(** * G1 glasses connector: pairing manager and device manager

    A shallow embedding of [connector/pairing.py] (class [PairingManager])
    and [services/device.py] (class [DeviceManager]).

    The Python coroutines are sequential programs over

    - the mutable objects they own or share (the connector's config
      object, the discovery cache and its timestamp, the silent-mode flag),
    - the outside world they call into (the BLE scanner and clients, the
      command manager, the state manager, the config file), every call of
      which may return or raise.

    Both are made explicit: a program is a function from an environment
    (which answers every external call, possibly with an exception, knowing
    everything that happened before) and a state to an outcome and a new
    state.  The state carries the trace of calls and log lines, so that
    "connect was invoked at most n times" or "no command was sent" are
    statements about the trace. *)

From stdpp Require Import gmap strings list pretty.
From Stdlib Require Import QArith.

Local Open Scope string_scope.

(** ** Data *)

(** Exceptions are values of Python's [Exception] class; [str(e)] is all the
    code ever looks at. *)
Inductive exn := Exn (msg : string).

Definition str_exn (e : exn) : string := let 'Exn m := e in m.

(** A device as reported by [BleakScanner.discover]: its [name] may be
    [None]. *)
Record BLEDevice := {
  dev_name : option string;
  dev_address : string;
  dev_rssi : Z
}.

(** The dict [{'address': .., 'name': .., 'rssi': ..}] stored per side. *)
Record glass := {
  g_address : string;
  g_name : string;
  g_rssi : Z
}.

(** Modelled from the spec: the Config Store, whose class is not part of
    the two source files.  It has the typed fields [left_address],
    [right_address], [left_name], [right_name], [left_paired],
    [right_paired]; assignments change the object in memory and an explicit
    [save()] forces durability. *)
Record Config := {
  left_address : option string;
  right_address : option string;
  left_name : option string;
  right_name : option string;
  left_paired : bool;
  right_paired : bool
}.

(** ** The outside world *)

(** Every call that leaves the two classes.  Times are in seconds. *)
Inductive call :=
| Discover (timeout : Q)            (* BleakScanner.discover(timeout=..) *)
| NewClient (addr : string)         (* BleakClient(addr) *)
| Connect (addr : string) (timeout : Q)
| IsConnected (addr : string)       (* client.is_connected *)
| Pair (addr : string)              (* client.pair() *)
| Disconnect (addr : string)
| Sleep (secs : Q)                  (* asyncio.sleep(..) *)
| Save                              (* connector.config.save() *)
| HandleStateChange (side : string) (* state_manager.handle_state_change *)
| SendCommand (frame : list Z) (expect_response : bool)
                                    (* command_manager.send_command(right_client, ..) *)
| UpdateStatus.                     (* connector.update_status() *)

(** What a call returns when it returns: the scan returns the devices,
    [is_connected] a boolean, [handle_state_change] a value of which only
    the truth value is used, [send_command] the response bytes or [None]. *)
Definition resp (c : call) : Type :=
  match c with
  | Discover _ => list BLEDevice
  | IsConnected _ => bool
  | HandleStateChange _ => bool
  | SendCommand _ _ => option (list Z)
  | _ => unit
  end.

Inductive answer (A : Type) :=
| Returns (a : A)
| Raises (e : exn).
Arguments Returns {A} a.
Arguments Raises {A} e.

Inductive level := DEBUG | INFO | WARNING | ERROR.

(** What an observer sees, in order: the external calls (and whether they
    raised), the log lines, the console lines. *)
Inductive event :=
| Called (c : call) (failed : option exn)
| Logged (lvl : level) (msg : string)
| Printed (msg : string).

(** The environment answers a call knowing the whole history, and tells the
    time of the event loop's monotonic clock. *)
Record env := {
  respond : list event -> forall c : call, answer (resp c);
  clock : list event -> Q
}.

(** ** State *)

Record state := {
  config : Config;                         (* connector.config, in memory *)
  saved : Config;                          (* what the last save() wrote *)
  _discovery_cache : gmap string glass;    (* PairingManager._discovery_cache *)
  _last_scan : Q;                          (* PairingManager._last_scan *)
  _silent_mode : bool;                     (* DeviceManager._silent_mode *)
  trace : list event
}.

Definition with_config (f : Config -> Config) (s : state) : state :=
  {| config := f (config s); saved := saved s;
     _discovery_cache := _discovery_cache s; _last_scan := _last_scan s;
     _silent_mode := _silent_mode s; trace := trace s |}.

Definition with_saved (c : Config) (s : state) : state :=
  {| config := config s; saved := c;
     _discovery_cache := _discovery_cache s; _last_scan := _last_scan s;
     _silent_mode := _silent_mode s; trace := trace s |}.

Definition with_cache (d : gmap string glass) (t : Q) (s : state) : state :=
  {| config := config s; saved := saved s;
     _discovery_cache := d; _last_scan := t;
     _silent_mode := _silent_mode s; trace := trace s |}.

Definition with_silent_mode (b : bool) (s : state) : state :=
  {| config := config s; saved := saved s;
     _discovery_cache := _discovery_cache s; _last_scan := _last_scan s;
     _silent_mode := b; trace := trace s |}.

Definition emit (ev : event) (s : state) : state :=
  {| config := config s; saved := saved s;
     _discovery_cache := _discovery_cache s; _last_scan := _last_scan s;
     _silent_mode := _silent_mode s; trace := trace s ++ [ev] |}.

(** ** Programs *)

Inductive outcome (A : Type) :=
| Val (a : A)
| Exc (e : exn).
Arguments Val {A} a.
Arguments Exc {A} e.

Definition M (A : Type) : Type := env -> state -> outcome A * state.

Definition ret {A} (a : A) : M A := fun _ s => (Val a, s).

Definition raise {A} (e : exn) : M A := fun _ s => (Exc e, s).

Definition bind {A B} (m : M A) (k : A -> M B) : M B :=
  fun w s =>
    match m w s with
    | (Val a, s') => k a w s'
    | (Exc e, s') => (Exc e, s')
    end.

Notation "x <- m ;; k" := (bind m (fun x => k))
  (at level 100, m at next level, right associativity).
Notation "m ;; k" := (bind m (fun _ => k))
  (at level 100, right associativity).

(** [try: m except Exception as e: h e] *)
Definition try_except {A} (m : M A) (h : exn -> M A) : M A :=
  fun w s =>
    match m w s with
    | (Val a, s') => (Val a, s')
    | (Exc e, s') => h e w s'
    end.

Definition get {A} (f : state -> A) : M A := fun _ s => (Val (f s), s).

Definition modify (f : state -> state) : M unit := fun _ s => (Val tt, f s).

(** An external call: the environment answers, the trace records it. *)
Definition ext (c : call) : M (resp c) :=
  fun w s =>
    match respond w (trace s) c with
    | Returns a => (Val a, emit (Called c None) s)
    | Raises e => (Exc e, emit (Called c (Some e)) s)
    end.

(** Logger and console are sinks. *)
Definition log (lvl : level) (msg : string) : M unit :=
  modify (emit (Logged lvl msg)).

Definition console_print (msg : string) : M unit :=
  modify (emit (Printed msg)).

(** [asyncio.get_event_loop().time()] *)
Definition loop_time : M Q := fun w s => (Val (clock w (trace s)), s).

(** [config.save()]: the call into the store, which on return has written
    the in-memory object. *)
Definition config_save : M unit :=
  ext Save ;; modify (fun s => with_saved (config s) s).

(** A [for] loop whose body may [return]: the body yields [Some r] to
    return [r] from the enclosing function, [None] to go on. *)
Fixpoint for_each {A R} (xs : list A) (body : A -> M (option R)) : M (option R) :=
  match xs with
  | [] => ret None
  | x :: xs' =>
      r <- body x ;;
      match r with
      | Some v => ret (Some v)
      | None => for_each xs' body
      end
  end.

(** A [for] loop that keeps updating a local variable. *)
Fixpoint for_fold {A S} (xs : list A) (acc : S) (body : S -> A -> M S) : M S :=
  match xs with
  | [] => ret acc
  | x :: xs' => acc' <- body acc x ;; for_fold xs' acc' body
  end.

(** ** Python values *)

(** [sub in s] on strings. *)
Fixpoint contains (sub s : string) : bool :=
  String.prefix sub s ||
  match s with
  | EmptyString => false
  | String _ s' => contains sub s'
  end.

(** The truth value of an optional string: [None] and [''] are false. *)
Definition truthy (o : option string) : option string :=
  match o with
  | Some EmptyString => None
  | Some s => Some s
  | None => None
  end.

(** The truth value of an optional byte string: [None] and [b''] are
    false. *)
Definition truthy_bytes (o : option (list Z)) : option (list Z) :=
  match o with
  | Some [] => None
  | Some r => Some r
  | None => None
  end.

(** [s.lower()], on the ASCII letters; the strings here are byte strings
    and the addresses compared are hexadecimal. *)
Definition lower_char (c : Ascii.ascii) : Ascii.ascii :=
  let n := Ascii.nat_of_ascii c in
  if (65 <=? n)%nat && (n <=? 90)%nat then Ascii.ascii_of_nat (n + 32) else c.

Fixpoint lower (s : string) : string :=
  match s with
  | EmptyString => EmptyString
  | String c s' => String (lower_char c) (lower s')
  end.

Definition fmt_nat (n : nat) : string := pretty n.
Definition fmt_Z (z : Z) : string := pretty z.

(** ** connector/pairing.py: class PairingManager *)

Module PairingManager.

Definition glass_of (device : BLEDevice) (name : string) : glass :=
  {| g_address := dev_address device; g_name := name; g_rssi := dev_rssi device |}.

(** The body of [for device in devices] of [discover_glasses]. *)
Definition classify (discovered : gmap string glass) (device : BLEDevice)
  : M (gmap string glass) :=
  match truthy (dev_name device) with
  | Some name =>
      if contains "_L_" name then
        log INFO ("Found left glass: " ++ name) ;;
        ret (<["left" := glass_of device name]> discovered)
      else if contains "_R_" name then
        log INFO ("Found right glass: " ++ name) ;;
        ret (<["right" := glass_of device name]> discovered)
      else ret discovered
  | None => ret discovered
  end.

(** [discover_glasses(timeout)].  The pairing lock it holds is free
    whenever one coroutine at a time runs the manager, which is the case
    modelled here. *)
Definition discover_glasses (timeout : Q) : M (gmap string glass) :=
  try_except
    (log INFO "Starting glasses discovery..." ;;
     devices <- ext (Discover timeout) ;;
     discovered <- for_fold devices ∅ classify ;;
     now <- loop_time ;;
     modify (with_cache discovered now) ;;
     ret discovered)
    (fun e =>
       log ERROR ("Discovery failed: " ++ str_exn e) ;;
       ret ∅).

Definition set_paired (is_left : bool) (c : Config) : Config :=
  if is_left then
    {| left_address := left_address c; right_address := right_address c;
       left_name := left_name c; right_name := right_name c;
       left_paired := true; right_paired := right_paired c |}
  else
    {| left_address := left_address c; right_address := right_address c;
       left_name := left_name c; right_name := right_name c;
       left_paired := left_paired c; right_paired := true |}.

(** The [try] block of one iteration of the retry loop. *)
Definition attempt_body (address glass_name : string) (is_left : bool)
  : M (option bool) :=
  ext (NewClient address) ;;
  ext (Connect address 20%Q) ;;
  connected <- ext (IsConnected address) ;;
  if connected : bool then
    log DEBUG "Connection established" ;;
    ext (Pair address) ;;
    log DEBUG "Pairing successful" ;;
    modify (with_config (set_paired is_left)) ;;
    config_save ;;
    ext (Disconnect address) ;;
    ext (Sleep 1%Q) ;;
    console_print ("[green]" ++ glass_name ++ " paired and connected![/green]") ;;
    initial_state <- ext (HandleStateChange
                            (if String.eqb glass_name "Left glass"
                             then "left" else "right")) ;;
    (if initial_state : bool then ret tt
     else log WARNING ("Could not get initial state for " ++ glass_name)) ;;
    ret (Some true)
  else ret None.

(** Its [except Exception as e] block, which ends in [continue]. *)
Definition attempt_failed (attempt max_attempts : nat) (e : exn)
  : M (option bool) :=
  log ERROR ("Connection attempt " ++ fmt_nat attempt ++ " failed: " ++ str_exn e) ;;
  (if (attempt <? max_attempts)%nat then
     console_print "[yellow]Retrying connection...[/yellow]" ;;
     ext (Sleep 2%Q)
   else ret tt) ;;
  ret None.

Definition attempt_step (address glass_name : string) (is_left : bool)
    (max_attempts attempt : nat) : M (option bool) :=
  try_except (attempt_body address glass_name is_left)
             (attempt_failed attempt max_attempts).

(** [_attempt_pairing(client, glass_name, max_attempts)], where [address]
    is [client.address]. *)
Definition _attempt_pairing (address glass_name : string) (max_attempts : nat)
  : M bool :=
  try_except
    (let is_left := String.eqb glass_name "Left glass" in
     log DEBUG ("Starting first-time pairing for " ++ glass_name) ;;
     console_print ("\n[yellow]Performing first-time pairing for "
                    ++ glass_name ++ "...[/yellow]") ;;
     r <- for_each (seq 1 max_attempts)
            (attempt_step address glass_name is_left max_attempts) ;;
     match r with
     | Some b => ret b
     | None => ret false
     end)
    (fun e =>
       log ERROR ("Pairing attempt failed: " ++ str_exn e) ;;
       ret false).

(** First pass of [verify_pairing]: connect and disconnect. *)
Definition probe (sa : string * string) : M (option bool) :=
  let '(side, addr) := sa in
  try_except
    (ext (NewClient addr) ;;
     ext (Connect addr 5%Q) ;;
     ext (Disconnect addr) ;;
     log DEBUG ("Successfully verified " ++ side ++ " glass pairing") ;;
     ret None)
    (fun e =>
       log WARNING ("Could not verify " ++ side ++ " glass pairing: " ++ str_exn e) ;;
       ret (Some false)).

(** Second pass: connect, pair, disconnect, then set the side's flag. *)
Definition probe_and_pair (sa : string * string) : M (option bool) :=
  let '(side, addr) := sa in
  try_except
    (ext (NewClient addr) ;;
     ext (Connect addr 5%Q) ;;
     ext (Pair addr) ;;
     ext (Disconnect addr) ;;
     log DEBUG ("Successfully verified " ++ side ++ " glass pairing") ;;
     modify (with_config (set_paired (String.eqb side "left"))) ;;
     ret None)
    (fun e =>
       log WARNING ("Could not verify " ++ side ++ " glass pairing: " ++ str_exn e) ;;
       ret (Some false)).

Definition first_time_pairing (la ra : string) : M bool :=
  log INFO "\nFirst time connection detected!" ;;
  log INFO "The glasses will be paired with your device. This only happens once." ;;
  log INFO "Please wait while the pairing is completed..." ;;
  log DEBUG "Verifying pairing..." ;;
  r <- for_each [("left", la); ("right", ra)] probe_and_pair ;;
  match r with
  | Some b => ret b
  | None =>
      config_save ;;
      log INFO "Pairing verification successful" ;;
      ret true
  end.

Definition verify_pairing : M bool :=
  try_except
    (log DEBUG "Verifying pairing..." ;;
     cfg <- get config ;;
     match truthy (left_address cfg), truthy (right_address cfg) with
     | Some la, Some ra =>
         r <- for_each [("left", la); ("right", ra)] probe ;;
         match r with
         | Some b => ret b
         | None =>
             log INFO "Pairing verification successful" ;;
             cfg <- get config ;;
             if negb (left_paired cfg) || negb (right_paired cfg)
             then first_time_pairing la ra
             else ret true
         end
     | _, _ =>
         log DEBUG "No saved addresses found" ;;
         ret false
     end)
    (fun e =>
       log ERROR ("Error verifying pairing: " ++ str_exn e) ;;
       ret false).

Definition set_discovered (l r : glass) (c : Config) : Config :=
  {| left_address := Some (g_address l); right_address := Some (g_address r);
     left_name := Some (g_name l); right_name := Some (g_name r);
     left_paired := left_paired c; right_paired := right_paired c |}.

(** [not self._discovery_cache or time() - self._last_scan > 60] *)
Definition need_scan : M bool :=
  cache <- get _discovery_cache ;;
  if bool_decide (cache = ∅) then ret true
  else
    now <- loop_time ;;
    last <- get _last_scan ;;
    ret (negb (Qle_bool (now - last) 60)).

(** What [pair_glasses] does once the cache is settled. *)
Definition pair_discovered : M bool :=
  cache <- get _discovery_cache ;;
  match cache !! "left", cache !! "right" with
  | Some l, Some r =>
      modify (with_config (set_discovered l r)) ;;
      ext (NewClient (g_address l)) ;;
      ext (NewClient (g_address r)) ;;
      ok <- _attempt_pairing (g_address l) "Left glass" 3 ;;
      if negb ok then ret false
      else
        ok <- _attempt_pairing (g_address r) "Right glass" 3 ;;
        if negb ok then ret false
        else
          log INFO "Successfully paired with both glasses" ;;
          ret true
  | _, _ =>
      log ERROR "Could not find both glasses" ;;
      ret false
  end.

Definition pair_glasses : M bool :=
  try_except
    (stale <- need_scan ;;
     (if stale : bool then discover_glasses 15%Q ;; ret tt else ret tt) ;;
     pair_discovered)
    (fun e =>
       log ERROR ("Pairing failed: " ++ str_exn e) ;;
       ret false).

Definition cleared (c : Config) : Config :=
  {| left_address := None; right_address := None;
     left_name := None; right_name := None;
     left_paired := false; right_paired := false |}.

Definition unpair_glasses : M unit :=
  try_except
    (modify (with_config cleared) ;;
     log INFO "Unpaired from glasses")
    (fun e => log ERROR ("Error unpairing: " ++ str_exn e)).

Section Platform.

(** What Bleak's Windows backend hangs on a scanned device:
    [device._device_info.pairing.is_paired], when the device has a
    [_device_info] with a [pairing]. *)
Variable is_paired : BLEDevice -> option bool.

(** The body of [for device in devices] of [_verify_windows_pairing]. *)
Definition same_address (address : string) (device : BLEDevice)
  : M (option bool) :=
  if String.eqb (lower (dev_address device)) (lower address) then
    match is_paired device with
    | Some paired => ret (Some paired)
    | None => ret (Some true)
    end
  else ret None.

Definition _verify_windows_pairing (address : string) : M bool :=
  try_except
    (devices <- ext (Discover 5%Q) ;;
     r <- for_each devices (same_address address) ;;
     match r with
     | Some b => ret b
     | None => ret false
     end)
    (fun e =>
       log ERROR ("Error verifying Windows pairing: " ++ str_exn e) ;;
       ret false).

End Platform.

End PairingManager.

(** ** services/device.py: class DeviceManager *)

Module DeviceManager.

Section Constants.

(** [utils.constants] is not part of the two source files: the opcode
    [COMMANDS.DASHBOARD_OPEN] and the category
    [EventCategories.COMMAND_RESPONSE] are integer constants. *)
Variable DASHBOARD_OPEN : Z.
Variable COMMAND_RESPONSE : Z.

(** [bytes([..])] raises [ValueError] on a value outside [range(256)]. *)
Definition bytes (xs : list Z) : M (list Z) :=
  if forallb (fun x => (0 <=? x)%Z && (x <? 256)%Z) xs then ret xs
  else raise (Exn "bytes must be in range(0, 256)").

(** [result[1]] raises [IndexError] on a response of one byte. *)
Definition second_byte (result : list Z) : M Z :=
  match result !! 1%nat with
  | Some b => ret b
  | None => raise (Exn "index out of range")
  end.

(** The [silent_mode] property. *)
Definition silent_mode : M bool := get _silent_mode.

Definition set_silent_mode (enabled : bool) : M bool :=
  try_except
    (current <- get _silent_mode ;;
     if Bool.eqb enabled current then ret true
     else
       command <- bytes [DASHBOARD_OPEN; if enabled then 1%Z else 0%Z] ;;
       result <- ext (SendCommand command true) ;;
       (* result and result[1] == EventCategories.COMMAND_RESPONSE *)
       acknowledged <- match truthy_bytes result with
                       | Some r =>
                           b <- second_byte r ;;
                           ret (b =? COMMAND_RESPONSE)%Z
                       | None => ret false
                       end ;;
       if acknowledged : bool then
         modify (with_silent_mode enabled) ;;
         log INFO ("Silent mode " ++ if enabled then "enabled" else "disabled") ;;
         ext UpdateStatus ;;
         ret true
       else
         shown <- match truthy_bytes result with
                  | Some r => b <- second_byte r ;; ret (fmt_Z b)
                  | None => ret "None"
                  end ;;
         log WARNING ("Failed to set silent mode: unexpected response " ++ shown) ;;
         ret false)
    (fun e =>
       log ERROR ("Error setting silent mode: " ++ str_exn e) ;;
       ret false).

End Constants.

(** *** Battery levels

    [_battery_level] is a dict object: the [battery_level] property hands
    out a copy of it, which the caller may change, and
    [update_battery_level] changes it in place.  To tell a copy from an
    alias, dict objects live in a heap and are known by their location. *)

Record manager := {
  heap : gmap nat (gmap string (option Z));   (* the dict objects *)
  _battery_level : nat;                        (* where self._battery_level is *)
  logged : list event                          (* what went to the logger *)
}.

(** [__init__]: [{'left': None, 'right': None}]. *)
Definition __init__ : manager :=
  {| heap := {[ 0%nat := <["left" := None]> (<["right" := None]> ∅) ]};
     _battery_level := 0%nat;
     logged := [] |}.

(** The dict at a location (an unknown location holds nothing). *)
Definition deref (m : manager) (loc : nat) : gmap string (option Z) :=
  default ∅ (heap m !! loc).

(** The [battery_level] property: [self._battery_level.copy()], a new dict
    object. *)
Definition battery_level (m : manager) : nat * manager :=
  let loc := fresh (dom (heap m)) in
  (loc,
   {| heap := <[loc := deref m (_battery_level m)]> (heap m);
      _battery_level := _battery_level m;
      logged := logged m |}).

(** [update_battery_level(side, level)] *)
Definition update_battery_level (side : string) (level : Z) (m : manager)
  : manager :=
  let d := deref m (_battery_level m) in
  match d !! side with
  | Some _ =>                                  (* side in self._battery_level *)
      {| heap := <[_battery_level m := <[side := Some level]> d]> (heap m);
         _battery_level := _battery_level m;
         logged := logged m ++
           [Logged DEBUG ("Battery level updated for " ++ side ++ ": "
                          ++ fmt_Z level ++ "%")] |}
  | None => m
  end.

(** What a caller can do to a dict it holds.  ([del d[key]] raises for a
    missing key and leaves the dict as it is; only the dict is followed
    here.) *)
Inductive mutation :=
| SetItem (key : string) (value : option Z)    (* d[key] = value *)
| DelItem (key : string)                       (* del d[key] *)
| Clear.                                       (* d.clear() *)

Definition mutate (loc : nat) (m : manager) (op : mutation) : manager :=
  let d := deref m loc in
  let d' := match op with
            | SetItem key value => <[key := value]> d
            | DelItem key => delete key d
            | Clear => ∅
            end in
  {| heap := <[loc := d']> (heap m);
     _battery_level := _battery_level m;
     logged := logged m |}.

End DeviceManager.

(** * Cancellation

    The operations are coroutines.  While one waits at an [await], the
    event loop can cancel its task: the [await] then raises
    [asyncio.CancelledError], which derives from [BaseException] and is no
    [Exception], so no [except Exception] catches it.  The programs above
    are the operations on a task that is not cancelled; here they are on a
    task that can be. *)

Module Task.

(** [cancel t c]: the task is cancelled while it awaits [c], reached with
    the history [t]. *)
Definition schedule : Type := list event -> call -> bool.

Definition never : schedule := fun _ _ => false.

(** The calls that are awaited.  [BleakClient(..)], [client.is_connected]
    and [config.save()] are plain calls. *)
Definition is_await (c : call) : bool :=
  match c with
  | NewClient _ | IsConnected _ | Save => false
  | _ => true
  end.

Inductive result (A : Type) :=
| Value (a : A)                 (* returned *)
| Raised (e : exn)              (* raised an [Exception] *)
| Cancelled.                    (* raised [asyncio.CancelledError] *)
Arguments Value {A} a.
Arguments Raised {A} e.
Arguments Cancelled {A}.

Definition T (A : Type) : Type := schedule -> env -> state -> result A * state.

Definition ret {A} (a : A) : T A := fun _ _ s => (Value a, s).

Definition bind {A B} (m : T A) (k : A -> T B) : T B :=
  fun cancel w s =>
    match m cancel w s with
    | (Value a, s') => k a cancel w s'
    | (Raised e, s') => (Raised e, s')
    | (Cancelled, s') => (Cancelled, s')
    end.

Declare Scope task_scope.
Delimit Scope task_scope with task.
Notation "x <- m ;; k" := (bind m (fun x => k))
  (at level 100, m at next level, right associativity) : task_scope.
Notation "m ;; k" := (bind m (fun _ => k))
  (at level 100, right associativity) : task_scope.
Local Open Scope task_scope.

(** [try: m except Exception as e: h e] lets a cancellation through. *)
Definition try_except {A} (m : T A) (h : exn -> T A) : T A :=
  fun cancel w s =>
    match m cancel w s with
    | (Value a, s') => (Value a, s')
    | (Raised e, s') => h e cancel w s'
    | (Cancelled, s') => (Cancelled, s')
    end.

(** Code without an [await] runs as it does on any task. *)
Definition widen {A} (r : outcome A * state) : result A * state :=
  match r with
  | (Val a, s') => (Value a, s')
  | (Exc e, s') => (Raised e, s')
  end.

Definition lift {A} (m : M A) : T A := fun _ w s => widen (m w s).

(** [await c]: cancelled, or else the call as the environment answers
    it.  A cancelled await leaves no event: the trace holds the calls that
    came back. *)
Definition await (c : call) : T (resp c) :=
  fun cancel w s =>
    if is_await c && cancel (trace s) c then (Cancelled, s)
    else lift (ext c) cancel w s.

Definition ext (c : call) : T (resp c) := lift (ext c).
Definition get {A} (f : state -> A) : T A := lift (get f).
Definition modify (f : state -> state) : T unit := lift (modify f).
Definition log (lvl : level) (msg : string) : T unit := lift (log lvl msg).
Definition console_print (msg : string) : T unit :=
  lift (console_print msg).
Definition config_save : T unit := lift config_save.

Fixpoint for_each {A R} (xs : list A) (body : A -> T (option R)) : T (option R) :=
  match xs with
  | [] => ret None
  | x :: xs' =>
      r <- body x ;;
      match r with
      | Some v => ret (Some v)
      | None => for_each xs' body
      end
  end.

Module PairingManager.

Import PairingManager.

(** [discover_glasses(timeout)].  Taking the pairing lock, which is free,
    does not suspend the task. *)
Definition discover_glasses (timeout : Q) : T (gmap string glass) :=
  try_except
    (log INFO "Starting glasses discovery..." ;;
     devices <- await (Discover timeout) ;;
     discovered <- lift (for_fold devices ∅ classify) ;;
     now <- lift loop_time ;;
     modify (with_cache discovered now) ;;
     ret discovered)
    (fun e =>
       log ERROR ("Discovery failed: " ++ str_exn e) ;;
       ret ∅).

Definition attempt_body (address glass_name : string) (is_left : bool)
  : T (option bool) :=
  ext (NewClient address) ;;
  await (Connect address 20%Q) ;;
  connected <- ext (IsConnected address) ;;
  if connected : bool then
    log DEBUG "Connection established" ;;
    await (Pair address) ;;
    log DEBUG "Pairing successful" ;;
    modify (with_config (set_paired is_left)) ;;
    config_save ;;
    await (Disconnect address) ;;
    await (Sleep 1%Q) ;;
    console_print ("[green]" ++ glass_name ++ " paired and connected![/green]") ;;
    initial_state <- await (HandleStateChange
                              (if String.eqb glass_name "Left glass"
                               then "left" else "right")) ;;
    (if initial_state : bool then ret tt
     else log WARNING ("Could not get initial state for " ++ glass_name)) ;;
    ret (Some true)
  else ret None.

Definition attempt_failed (attempt max_attempts : nat) (e : exn)
  : T (option bool) :=
  log ERROR ("Connection attempt " ++ fmt_nat attempt ++ " failed: " ++ str_exn e) ;;
  (if (attempt <? max_attempts)%nat then
     console_print "[yellow]Retrying connection...[/yellow]" ;;
     await (Sleep 2%Q)
   else ret tt) ;;
  ret None.

Definition attempt_step (address glass_name : string) (is_left : bool)
    (max_attempts attempt : nat) : T (option bool) :=
  try_except (attempt_body address glass_name is_left)
             (attempt_failed attempt max_attempts).

Definition _attempt_pairing (address glass_name : string) (max_attempts : nat)
  : T bool :=
  try_except
    (let is_left := String.eqb glass_name "Left glass" in
     log DEBUG ("Starting first-time pairing for " ++ glass_name) ;;
     console_print ("\n[yellow]Performing first-time pairing for "
                    ++ glass_name ++ "...[/yellow]") ;;
     r <- for_each (seq 1 max_attempts)
            (attempt_step address glass_name is_left max_attempts) ;;
     match r with
     | Some b => ret b
     | None => ret false
     end)
    (fun e =>
       log ERROR ("Pairing attempt failed: " ++ str_exn e) ;;
       ret false).

Definition probe (sa : string * string) : T (option bool) :=
  let '(side, addr) := sa in
  try_except
    (ext (NewClient addr) ;;
     await (Connect addr 5%Q) ;;
     await (Disconnect addr) ;;
     log DEBUG ("Successfully verified " ++ side ++ " glass pairing") ;;
     ret None)
    (fun e =>
       log WARNING ("Could not verify " ++ side ++ " glass pairing: " ++ str_exn e) ;;
       ret (Some false)).

Definition probe_and_pair (sa : string * string) : T (option bool) :=
  let '(side, addr) := sa in
  try_except
    (ext (NewClient addr) ;;
     await (Connect addr 5%Q) ;;
     await (Pair addr) ;;
     await (Disconnect addr) ;;
     log DEBUG ("Successfully verified " ++ side ++ " glass pairing") ;;
     modify (with_config (set_paired (String.eqb side "left"))) ;;
     ret None)
    (fun e =>
       log WARNING ("Could not verify " ++ side ++ " glass pairing: " ++ str_exn e) ;;
       ret (Some false)).

Definition first_time_pairing (la ra : string) : T bool :=
  log INFO "\nFirst time connection detected!" ;;
  log INFO "The glasses will be paired with your device. This only happens once." ;;
  log INFO "Please wait while the pairing is completed..." ;;
  log DEBUG "Verifying pairing..." ;;
  r <- for_each [("left", la); ("right", ra)] probe_and_pair ;;
  match r with
  | Some b => ret b
  | None =>
      config_save ;;
      log INFO "Pairing verification successful" ;;
      ret true
  end.

Definition verify_pairing : T bool :=
  try_except
    (log DEBUG "Verifying pairing..." ;;
     cfg <- get config ;;
     match truthy (left_address cfg), truthy (right_address cfg) with
     | Some la, Some ra =>
         r <- for_each [("left", la); ("right", ra)] probe ;;
         match r with
         | Some b => ret b
         | None =>
             log INFO "Pairing verification successful" ;;
             cfg <- get config ;;
             if negb (left_paired cfg) || negb (right_paired cfg)
             then first_time_pairing la ra
             else ret true
         end
     | _, _ =>
         log DEBUG "No saved addresses found" ;;
         ret false
     end)
    (fun e =>
       log ERROR ("Error verifying pairing: " ++ str_exn e) ;;
       ret false).

Definition pair_discovered : T bool :=
  cache <- get _discovery_cache ;;
  match cache !! "left", cache !! "right" with
  | Some l, Some r =>
      modify (with_config (set_discovered l r)) ;;
      ext (NewClient (g_address l)) ;;
      ext (NewClient (g_address r)) ;;
      ok <- _attempt_pairing (g_address l) "Left glass" 3 ;;
      if negb ok then ret false
      else
        ok <- _attempt_pairing (g_address r) "Right glass" 3 ;;
        if negb ok then ret false
        else
          log INFO "Successfully paired with both glasses" ;;
          ret true
  | _, _ =>
      log ERROR "Could not find both glasses" ;;
      ret false
  end.

Definition pair_glasses : T bool :=
  try_except
    (stale <- lift need_scan ;;
     (if stale : bool then discover_glasses 15%Q ;; ret tt else ret tt) ;;
     pair_discovered)
    (fun e =>
       log ERROR ("Pairing failed: " ++ str_exn e) ;;
       ret false).

(** [unpair_glasses] awaits nothing. *)
Definition unpair_glasses : T unit := lift unpair_glasses.

End PairingManager.

Module DeviceManager.

Import DeviceManager.

Section Constants.

Variable DASHBOARD_OPEN : Z.
Variable COMMAND_RESPONSE : Z.

Definition set_silent_mode (enabled : bool) : T bool :=
  try_except
    (current <- get _silent_mode ;;
     if Bool.eqb enabled current then ret true
     else
       command <- lift (bytes [DASHBOARD_OPEN; if enabled then 1%Z else 0%Z]) ;;
       result <- await (SendCommand command true) ;;
       acknowledged <- match truthy_bytes result with
                       | Some r =>
                           b <- lift (second_byte r) ;;
                           ret (b =? COMMAND_RESPONSE)%Z
                       | None => ret false
                       end ;;
       if acknowledged : bool then
         modify (with_silent_mode enabled) ;;
         log INFO ("Silent mode " ++ if enabled then "enabled" else "disabled") ;;
         await UpdateStatus ;;
         ret true
       else
         shown <- match truthy_bytes result with
                  | Some r => b <- lift (second_byte r) ;; ret (fmt_Z b)
                  | None => ret "None"
                  end ;;
         log WARNING ("Failed to set silent mode: unexpected response " ++ shown) ;;
         ret false)
    (fun e =>
       log ERROR ("Error setting silent mode: " ++ str_exn e) ;;
       ret false).

End Constants.

End DeviceManager.

End Task.

(** ** Reading traces *)

Definition is_connect (ev : event) : bool :=
  match ev with Called (Connect _ _) _ => true | _ => false end.

Definition is_scan (ev : event) : bool :=
  match ev with Called (Discover _) _ => true | _ => false end.

Definition is_send (ev : event) : bool :=
  match ev with Called (SendCommand _ _) _ => true | _ => false end.

Definition is_call (ev : event) : bool :=
  match ev with Called _ _ => true | _ => false end.

Definition is_raise (ev : event) : bool :=
  match ev with Called _ (Some _) => true | _ => false end.

Definition is_report (ev : event) : bool :=
  match ev with
  | Logged WARNING _ | Logged ERROR _ => true
  | _ => false
  end.

Definition count (p : event -> bool) (t : list event) : nat :=
  length (filter (fun ev => p ev = true) t).

(** The events a run added to the trace. *)
Definition since (s s' : state) : list event :=
  drop (length (trace s)) (trace s').

(** ** Environments and states to run the programs on *)

Definition quiet : Config :=
  {| left_address := None; right_address := None;
     left_name := None; right_name := None;
     left_paired := false; right_paired := false |}.

Definition known (la ra : string) : Config :=
  {| left_address := Some la; right_address := Some ra;
     left_name := Some "G1_L_42"; right_name := Some "G1_R_42";
     left_paired := false; right_paired := false |}.

Definition fresh (c : Config) : state :=
  {| config := c; saved := c; _discovery_cache := ∅; _last_scan := 0%Q;
     _silent_mode := false; trace := [] |}.

(** What a call returns when nothing goes wrong and nothing is there. *)
Definition plain (c : call) : resp c :=
  match c return resp c with
  | Discover _ => []
  | IsConnected _ => true
  | HandleStateChange _ => true
  | SendCommand _ _ => None
  | _ => tt
  end.

(** Every call returns. *)
Definition all_good : env :=
  {| respond := fun _ c => Returns (plain c); clock := fun _ => 0%Q |}.

(** * Verification *)

Local Open Scope list_scope.

Arguments bind {A B} m k w s /.
Arguments ret {A} a w s /.
Arguments raise {A} e w s /.
Arguments try_except {A} m h w s /.
Arguments get {A} f w s /.
Arguments modify f w s /.
Arguments ext c w s /.
Arguments log lvl msg w s /.
Arguments console_print msg w s /.
Arguments loop_time w s /.
Arguments config_save w s /.
Arguments String.append : simpl never.
Arguments fmt_nat : simpl never.
Arguments fmt_Z : simpl never.

(** ** Traces only grow *)

Lemma since_app (s s' : state) (new : list event) :
  trace s' = trace s ++ new -> since s s' = new.
Proof. intros H. unfold since. rewrite H. apply drop_app_length. Qed.

Lemma since_refl (s : state) : since s s = [].
Proof. apply since_app. by rewrite app_nil_r. Qed.

Lemma count_app (p : event -> bool) (t1 t2 : list event) :
  count p (t1 ++ t2) = (count p t1 + count p t2)%nat.
Proof. unfold count. by rewrite filter_app, length_app. Qed.

(** Puts [((t ++ a) ++ b) ++ c] into the shape [t ++ [..]]. *)
Ltac flatten := rewrite <- ?app_assoc; simpl.

(** Case analysis on the environment's answer to the next call. *)
Ltac answer :=
  match goal with
  | |- context [respond ?w ?t ?c] =>
      let E := fresh "E" in
      destruct (respond w t c) as [?|?] eqn:E; simpl
  end.

(** A frame is a relation between the state before and after that holds
    across any number of steps and that writing to the trace respects. *)
Class Frame (R : relation state) : Prop := {
  frame_refl s : R s s;
  frame_trans s1 s2 s3 : R s1 s2 -> R s2 s3 -> R s1 s3;
  frame_emit ev s : R s (emit ev s)
}.

(** [adding P R m]: whatever the environment does, [m] only appends to the
    trace, and only events satisfying [P], and changes the state within
    [R]. *)
Definition adding {A} (P : event -> Prop) (R : relation state) (m : M A) : Prop :=
  forall w s, exists new,
    trace (m w s).2 = trace s ++ new /\ Forall P new /\ R s (m w s).2.

Section Adding.

Context (P : event -> Prop) (R : relation state) `{!Frame R}.

Lemma adding_ret {A} (a : A) : adding P R (ret a).
Proof.
  intros w s. exists []. simpl. rewrite app_nil_r.
  repeat split; [done | apply frame_refl].
Qed.

Lemma adding_raise {A} (e : exn) : adding P R (@raise A e).
Proof.
  intros w s. exists []. simpl. rewrite app_nil_r.
  repeat split; [done | apply frame_refl].
Qed.

Lemma adding_get {A} (f : state -> A) : adding P R (get f).
Proof.
  intros w s. exists []. simpl. rewrite app_nil_r.
  repeat split; [done | apply frame_refl].
Qed.

Lemma adding_loop_time : adding P R loop_time.
Proof.
  intros w s. exists []. simpl. rewrite app_nil_r.
  repeat split; [done | apply frame_refl].
Qed.

Lemma adding_silent (f : state -> state) :
  (forall s, trace (f s) = trace s /\ R s (f s)) -> adding P R (modify f).
Proof.
  intros H w s. exists []. simpl. destruct (H s) as [-> ?].
  by rewrite app_nil_r.
Qed.

Lemma adding_log lvl msg : P (Logged lvl msg) -> adding P R (log lvl msg).
Proof.
  intros H w s. exists [Logged lvl msg]. simpl.
  repeat split; [by constructor | apply frame_emit].
Qed.

Lemma adding_print msg : P (Printed msg) -> adding P R (console_print msg).
Proof.
  intros H w s. exists [Printed msg]. simpl.
  repeat split; [by constructor | apply frame_emit].
Qed.

Lemma adding_ext c : (forall o, P (Called c o)) -> adding P R (ext c).
Proof.
  intros H w s. simpl.
  destruct (respond w (trace s) c); simpl; eexists;
    (repeat split; [by constructor | apply frame_emit]).
Qed.

Lemma adding_bind {A B} (m : M A) (k : A -> M B) :
  adding P R m -> (forall a, adding P R (k a)) -> adding P R (bind m k).
Proof.
  intros Hm Hk w s. simpl. destruct (Hm w s) as (n1 & E1 & F1 & R1).
  destruct (m w s) as [[a|e] s1]; simpl in *; [|by eauto].
  destruct (Hk a w s1) as (n2 & E2 & F2 & R2).
  exists (n1 ++ n2). rewrite E2, E1, app_assoc. split; [done|].
  split; [by apply Forall_app | by eapply frame_trans].
Qed.

Lemma adding_try {A} (m : M A) (h : exn -> M A) :
  adding P R m -> (forall e, adding P R (h e)) -> adding P R (try_except m h).
Proof.
  intros Hm Hh w s. simpl. destruct (Hm w s) as (n1 & E1 & F1 & R1).
  destruct (m w s) as [[a|e] s1]; simpl in *; [by eauto|].
  destruct (Hh e w s1) as (n2 & E2 & F2 & R2).
  exists (n1 ++ n2). rewrite E2, E1, app_assoc. split; [done|].
  split; [by apply Forall_app | by eapply frame_trans].
Qed.

Lemma adding_for_each {A B} (xs : list A) (body : A -> M (option B)) :
  (forall x, adding P R (body x)) -> adding P R (for_each xs body).
Proof.
  intros Hb. induction xs as [|x xs IH]; simpl.
  - apply adding_ret.
  - apply adding_bind; [done|]. intros [r|]; [apply adding_ret | done].
Qed.

Lemma adding_for_fold {A S} (xs : list A) (acc : S) (body : S -> A -> M S) :
  (forall acc x, adding P R (body acc x)) -> adding P R (for_fold xs acc body).
Proof.
  intros Hb. revert acc. induction xs as [|x xs IH]; intros acc; simpl.
  - apply adding_ret.
  - apply adding_bind; [done|]. intros acc'. apply IH.
Qed.

Lemma adding_save :
  (forall o, P (Called Save o)) ->
  (forall s, R s (with_saved (config s) s)) ->
  adding P R config_save.
Proof.
  intros H HR. apply adding_bind; [by apply adding_ext|].
  intros _. apply adding_silent. eauto.
Qed.

End Adding.

(** Walks down a program, splitting at conditionals. *)
Ltac rule l := apply l; try (by apply _).

Ltac adding_step :=
  match goal with
  | |- adding _ _ (bind _ _) => rule adding_bind; [|intros ?]
  | |- adding _ _ (try_except _ _) => rule adding_try; [|intros ?]
  | |- adding _ _ (for_each _ _) => rule adding_for_each; intros ?
  | |- adding _ _ (for_fold _ _ _) => rule adding_for_fold; intros ? ?
  | |- adding _ _ (ret _) => by rule adding_ret
  | |- adding _ _ (raise _) => by rule adding_raise
  | |- adding _ _ (get _) => by rule adding_get
  | |- adding _ _ loop_time => by rule adding_loop_time
  | |- adding _ _ (modify _) => rule adding_silent; intros ?; split; [reflexivity|]
  | |- adding _ _ (log _ _) => rule adding_log
  | |- adding _ _ (console_print _) => rule adding_print
  | |- adding _ _ (ext _) => rule adding_ext; intros ?
  | |- adding _ _ config_save => rule adding_save; intros ?
  | |- adding _ _ (if ?b then _ else _) => destruct b
  | |- adding _ _ (match ?x with _ => _ end) => destruct x
  | |- adding _ _ (let '(_, _) := ?x in _) => destruct x
  end.

Ltac adding_walk := repeat adding_step; try done.

(** The frame with nothing in it. *)
Definition anything : relation state := fun _ _ => True.

#[local] Instance anything_frame : Frame anything.
Proof. by split. Qed.

(** What pairing leaves alone: the discovery cache, the silent-mode flag,
    and the addresses and names in the config object. *)
Definition pairing_frame : relation state := fun s s' =>
  _discovery_cache s' = _discovery_cache s /\
  _last_scan s' = _last_scan s /\
  _silent_mode s' = _silent_mode s /\
  left_address (config s') = left_address (config s) /\
  right_address (config s') = right_address (config s) /\
  left_name (config s') = left_name (config s) /\
  right_name (config s') = right_name (config s).

#[local] Instance pairing_frame_frame : Frame pairing_frame.
Proof.
  split; unfold pairing_frame.
  - done.
  - intros s1 s2 s3 ? ?. destruct_and!. repeat split; congruence.
  - done.
Qed.

Import PairingManager.

Lemma set_paired_addresses b c :
  left_address (set_paired b c) = left_address c /\
  right_address (set_paired b c) = right_address c /\
  left_name (set_paired b c) = left_name c /\
  right_name (set_paired b c) = right_name c.
Proof. by destruct b. Qed.

Lemma adding_attempt_pairing (P : event -> Prop) address glass_name n :
  (forall c o, (forall t, c <> Discover t) -> P (Called c o)) ->
  (forall lvl msg, P (Logged lvl msg)) ->
  (forall msg, P (Printed msg)) ->
  adding P pairing_frame (_attempt_pairing address glass_name n).
Proof.
  intros Hc Hl Hp.
  unfold _attempt_pairing, attempt_step, attempt_body, attempt_failed.
  adding_walk; try (apply Hc; done).
  all: unfold pairing_frame; simpl;
    try (destruct (set_paired_addresses (glass_name =? "Left glass")%string (config s));
         destruct_and!); done.
Qed.

Lemma adding_discover (P : event -> Prop) timeout :
  (forall o, P (Called (Discover timeout) o)) ->
  (forall lvl msg, P (Logged lvl msg)) ->
  adding P anything (discover_glasses timeout).
Proof.
  intros Hc Hl. unfold discover_glasses, classify.
  adding_walk.
Qed.

Lemma count_none (p : event -> bool) (t : list event) :
  Forall (fun ev => p ev = false) t -> count p t = 0%nat.
Proof.
  unfold count. induction 1 as [|ev t Hev _ IH]; [done|].
  rewrite filter_cons. destruct (decide (p ev = true)); [congruence|done].
Qed.

Lemma count_cons (p : event -> bool) (ev : event) (t : list event) :
  count p (ev :: t) = ((if p ev then 1 else 0) + count p t)%nat.
Proof.
  unfold count. rewrite filter_cons.
  destruct (p ev); destruct (decide _); simpl; congruence.
Qed.

Lemma count_nil (p : event -> bool) : count p [] = 0%nat.
Proof. done. Qed.

(** Counts over a trace whose unknown parts are known to have none. *)
Ltac tally :=
  repeat first
    [ rewrite count_cons | rewrite count_app | rewrite count_nil
    | rewrite count_none by done ];
  simpl; try lia.

Definition no_scan (ev : event) : Prop := is_scan ev = false.

(** The scan of [discover_glasses] is its only one. *)
Lemma discover_scans_once timeout w s :
  exists d s', discover_glasses timeout w s = (Val d, s') /\
    count is_scan (since s s') = 1%nat.
Proof.
  unfold discover_glasses. simpl. answer.
  - assert (adding no_scan anything (for_fold a ∅ classify)) as H.
    { unfold classify. adding_walk. }
    destruct (H w (emit (Called (Discover timeout) None)
                     (emit (Logged INFO "Starting glasses discovery...") s)))
      as (new & Hnew & Hno & _).
    destruct (for_fold a ∅ classify w _) as [[d|e] s1]; simpl in *.
    + do 2 eexists. split; [done|].
      erewrite since_app; [|simpl; rewrite Hnew; flatten; done].
      tally.
    + do 2 eexists. split; [done|].
      erewrite since_app; [|simpl; rewrite Hnew; flatten; done].
      tally.
  - do 2 eexists. split; [done|].
    erewrite since_app; [|simpl; flatten; done]. tally.
Qed.

(** ** [pair_glasses] and the discovery cache *)

(** The cache is stale when it is empty or older than 60 seconds on the
    event loop's clock. *)
Definition stale (w : env) (s : state) : Prop :=
  _discovery_cache s = ∅ \/ (60 < clock w (trace s) - _last_scan s)%Q.

Lemma need_scan_spec w s :
  exists b, need_scan w s = (Val b, s) /\ (b = true <-> stale w s).
Proof.
  unfold need_scan, stale. simpl. case_bool_decide as Hc; simpl.
  - eexists. split; [done|]. tauto.
  - eexists. split; [done|].
    rewrite negb_true_iff, <- not_true_iff_false, Qle_bool_iff.
    split.
    + intros H. right. by apply Qnot_le_lt.
    + intros [?|H]; [done|]. by apply Qlt_not_le.
Qed.

(** The steps of [pair_discovered] after the config object is filled in. *)
Lemma adding_pairing_both (l r : glass) :
  adding no_scan pairing_frame
    (ext (NewClient (g_address l)) ;;
     ext (NewClient (g_address r)) ;;
     ok <- _attempt_pairing (g_address l) "Left glass" 3 ;;
     if negb ok then ret false
     else
       ok <- _attempt_pairing (g_address r) "Right glass" 3 ;;
       if negb ok then ret false
       else
         log INFO "Successfully paired with both glasses" ;;
         ret true).
Proof.
  adding_walk; try (apply adding_attempt_pairing; try done).
  all: intros [] o H; try done; by destruct (H timeout).
Qed.

Lemma pair_discovered_spec w s :
  exists new,
    trace (pair_discovered w s).2 = trace s ++ new /\
    Forall no_scan new /\
    _discovery_cache (pair_discovered w s).2 = _discovery_cache s /\
    _last_scan (pair_discovered w s).2 = _last_scan s /\
    match _discovery_cache s !! "left", _discovery_cache s !! "right" with
    | Some l, Some r =>
        left_address (config (pair_discovered w s).2) = Some (g_address l) /\
        right_address (config (pair_discovered w s).2) = Some (g_address r) /\
        left_name (config (pair_discovered w s).2) = Some (g_name l) /\
        right_name (config (pair_discovered w s).2) = Some (g_name r)
    | _, _ =>
        pair_discovered w s =
          (Val false, emit (Logged ERROR "Could not find both glasses") s)
    end.
Proof.
  unfold pair_discovered. cbn [bind get].
  destruct (_discovery_cache s !! "left") as [l|] eqn:El;
    [destruct (_discovery_cache s !! "right") as [r|] eqn:Er|].
  - cbn [bind modify].
    destruct (adding_pairing_both l r w (with_config (set_discovered l r) s))
      as (new & Hnew & Hno & Hfr).
    unfold pairing_frame in Hfr. simpl in Hfr, Hnew. destruct_and!.
    exists new. repeat split; done.
  - simpl. eexists. repeat split. by repeat constructor.
  - simpl. eexists. repeat split. by repeat constructor.
Qed.

(** C4: [pair_glasses] scans if and only if the discovery cache is empty or
    older than 60 seconds, and then scans once; otherwise it scans not at
    all, leaves cache and timestamp as they are, and pairs with the cached
    addresses (or gives up at once when the cache lacks a side). *)
Theorem pair_glasses_scans_iff_stale (w : env) (s : state) :
  let s' := (pair_glasses w s).2 in
  ((0 < count is_scan (since s s'))%nat <-> stale w s) /\
  (count is_scan (since s s') <= 1)%nat /\
  (~ stale w s ->
     _discovery_cache s' = _discovery_cache s /\
     _last_scan s' = _last_scan s /\
     match _discovery_cache s !! "left", _discovery_cache s !! "right" with
     | Some l, Some r =>
         left_address (config s') = Some (g_address l) /\
         right_address (config s') = Some (g_address r)
     | _, _ =>
         (pair_glasses w s).1 = Val false /\
         since s s' = [Logged ERROR "Could not find both glasses"]
     end).
Proof.
  unfold pair_glasses. cbn [try_except bind].
  destruct (need_scan_spec w s) as (b & -> & Hb).
  destruct b.
  - (* stale: one scan by discover_glasses, none afterwards *)
    cbn [bind].
    destruct (adding_discover (fun _ => True) 15 ltac:(done) ltac:(done) w s)
      as (n1 & Hs1 & _).
    destruct (discover_scans_once 15 w s) as (d & s1 & Hrun & H1).
    rewrite Hrun in *. simpl in Hs1. rewrite (since_app _ _ _ Hs1) in H1.
    cbn [ret].
    destruct (pair_discovered_spec w s1) as (new & Hnew & Hno & _).
    assert (stale w s) by (by apply Hb).
    destruct (pair_discovered w s1) as [[ok|e] s2]; simpl in *.
    + erewrite since_app; [|rewrite Hnew, Hs1; flatten; done].
      rewrite count_app, H1, count_none by done.
      split; [split; [done|lia]|]. split; [lia|done].
    + erewrite since_app; [|simpl; rewrite Hnew, Hs1; flatten; done].
      rewrite !count_app, H1, (count_none _ new) by done. simpl.
      split; [split; [done|tally]|]. split; [tally|done].
  - (* fresh: straight to the cached result *)
    assert (~ stale w s) as Hfresh by (rewrite <- Hb; done).
    cbn [bind ret].
    destruct (pair_discovered_spec w s) as (new & Hnew & Hno & Hc & Hl & Hre).
    destruct (pair_discovered w s) as [[ok|e] s2] eqn:Hrun; simpl in *.
    + erewrite since_app by done. rewrite count_none by done.
      split; [split; [lia|done]|]. split; [lia|]. intros _.
      repeat split; try done.
      destruct (_discovery_cache s !! "left");
        [destruct (_discovery_cache s !! "right")|].
      * tauto.
      * inversion Hre; subst. split; [done|].
        simpl in Hnew. by apply app_inv_head in Hnew.
      * inversion Hre; subst. split; [done|].
        simpl in Hnew. by apply app_inv_head in Hnew.
    + erewrite since_app; [|simpl; rewrite Hnew; flatten; done].
      rewrite count_app, count_none by done.
      split; [split; [simpl; tally|done]|]. split; [tally|]. intros _.
      repeat split; try done.
      destruct (_discovery_cache s !! "left");
        [destruct (_discovery_cache s !! "right")|].
      * tauto.
      * inversion Hre.
      * inversion Hre.
Qed.

(** ** [unpair_glasses] *)

(** C10: [unpair_glasses] clears flags, addresses and names of the config
    object in memory and makes no external call, [save()] included: what
    the store holds is what it held before. *)
Theorem unpair_glasses_never_saves (w : env) (s : state) :
  exists s',
    unpair_glasses w s = (Val tt, s') /\
    config s' = cleared (config s) /\
    saved s' = saved s /\
    since s s' = [Logged INFO "Unpaired from glasses"].
Proof.
  eexists. split; [reflexivity|]. simpl.
  repeat split. by apply since_app.
Qed.

(** After pairing both sides and unpairing, memory and store disagree. *)
Example unpair_glasses_leaves_store :
  let paired := set_paired true (set_paired false (known "AA" "BB")) in
  let s' := (unpair_glasses all_good (fresh paired)).2 in
  left_address (config s') = None /\ left_paired (config s') = false /\
  left_address (saved s') = Some "AA" /\ left_paired (saved s') = true.
Proof. done. Qed.

(** ** [verify_pairing] without saved addresses *)

(** C7: when the left or the right address is missing from the config
    object ([None], or the empty string, which Python's [not] treats
    alike), [verify_pairing] returns [False] having made no external call
    at all, so no connection was attempted. *)
Theorem verify_pairing_fails_fast (w : env) (s : state) :
  truthy (left_address (config s)) = None \/
  truthy (right_address (config s)) = None ->
  exists s',
    verify_pairing w s = (Val false, s') /\
    count is_call (since s s') = 0%nat /\
    count is_connect (since s s') = 0%nat.
Proof.
  intros H. unfold verify_pairing. simpl.
  destruct (truthy (left_address (config s))) as [la|];
    [destruct (truthy (right_address (config s))) as [ra|]|].
  - by destruct H.
  - eexists. split; [done|]. erewrite since_app; [|simpl; flatten; done]. done.
  - eexists. split; [done|]. erewrite since_app; [|simpl; flatten; done]. done.
Qed.

Lemma verify_pairing_fails_fast_witness :
  exists s',
    verify_pairing all_good (fresh quiet) = (Val false, s') /\
    count is_call (since (fresh quiet) s') = 0%nat /\
    count is_connect (since (fresh quiet) s') = 0%nat.
Proof.
  apply (verify_pairing_fails_fast all_good (fresh quiet)).
  left. reflexivity.
Defined.

(** ** [_attempt_pairing]: the retry loop *)

Definition side_of (glass_name : string) : string :=
  if String.eqb glass_name "Left glass" then "left" else "right".

(** What an attempt that runs to its end leaves in the trace: every call
    returned, from creating the client to the query of the initial state. *)
Definition completed (address glass_name : string) : list event :=
  [ Called (NewClient address) None;
    Called (Connect address 20%Q) None;
    Called (IsConnected address) None;
    Logged DEBUG "Connection established";
    Called (Pair address) None;
    Logged DEBUG "Pairing successful";
    Called Save None;
    Called (Disconnect address) None;
    Called (Sleep 1%Q) None;
    Printed ("[green]" ++ glass_name ++ " paired and connected![/green]")%string;
    Called (HandleStateChange (side_of glass_name)) None ].

(** The end of such an attempt: the initial-state query returned. *)
Definition is_completion (ev : event) : bool :=
  match ev with Called (HandleStateChange _) None => true | _ => false end.

(** After the query, at most the warning that it returned nothing. *)
Definition epilogue (glass_name : string) (tail : list event) : Prop :=
  tail = [] \/
  tail = [Logged WARNING ("Could not get initial state for " ++ glass_name)%string].

(** What a run of attempts looks like from outside: it returned [True]
    right after the first attempt that ran to its end, or no attempt did. *)
Definition attempts_outcome (address glass_name : string)
    (r : outcome (option bool)) (new : list event) : Prop :=
  match r with
  | Val (Some b) =>
      b = true /\
      exists before tail,
        new = before ++ completed address glass_name ++ tail /\
        count is_completion before = 0%nat /\
        epilogue glass_name tail
  | _ => count is_completion new = 0%nat
  end.

Lemma attempt_step_spec address glass_name is_left max_attempts attempt w s :
  exists new,
    trace (attempt_step address glass_name is_left max_attempts attempt w s).2
      = trace s ++ new /\
    (count is_connect new <= 1)%nat /\
    attempts_outcome address glass_name
      (attempt_step address glass_name is_left max_attempts attempt w s).1 new.
Proof.
  unfold attempt_step, attempt_body, attempt_failed, attempts_outcome.
  simpl.
  destruct (attempt <? max_attempts)%nat; simpl;
    repeat first
      [ answer
      | match goal with
        | |- context [if ?b then _ else _] => is_var b; destruct b; simpl
        end ].
  all: eexists; (split; [flatten; reflexivity|]); (split; [tally|]).
  all: try tally.
  all: split; [done|]; exists []; eexists; split; [reflexivity|].
  all: split; [done|]; unfold epilogue; auto.
Qed.

Lemma count_completed address glass_name before tail :
  (0 < count is_completion (before ++ completed address glass_name ++ tail))%nat.
Proof. rewrite !count_app. unfold completed. tally. Qed.

Arguments completed : simpl never.

Lemma attempts_spec address glass_name is_left max_attempts xs w s :
  exists new,
    trace (for_each xs (attempt_step address glass_name is_left max_attempts) w s).2
      = trace s ++ new /\
    (count is_connect new <= length xs)%nat /\
    attempts_outcome address glass_name
      (for_each xs (attempt_step address glass_name is_left max_attempts) w s).1
      new.
Proof.
  revert s. induction xs as [|x xs IH]; intros s.
  - exists []. simpl. by rewrite app_nil_r.
  - cbn [for_each bind].
    destruct (attempt_step_spec address glass_name is_left max_attempts x w s)
      as (n1 & E1 & C1 & O1).
    destruct (attempt_step address glass_name is_left max_attempts x w s)
      as [[[b|]|e] s1]; simpl in E1, O1.
    + exists n1. simpl. split; [done|]. split; [lia|done].
    + destruct (IH s1) as (n2 & E2 & C2 & O2).
      exists (n1 ++ n2). rewrite E2, E1, app_assoc. split; [done|].
      split; [rewrite count_app; simpl; lia|].
      destruct (for_each xs _ w s1) as [[[b|]|e] s2]; simpl in *.
      * destruct O2 as (-> & before & tail & -> & Hb & Ht).
        split; [done|]. exists (n1 ++ before), tail.
        rewrite <- app_assoc, count_app. split; [done|]. split; [lia|done].
      * rewrite count_app. lia.
      * rewrite count_app. lia.
    + exists n1. simpl. split; [done|]. split; [lia|done].
Qed.

(** The two-second wait before a retry. *)
Definition is_retry_wait (ev : event) : bool :=
  match ev with Called (Sleep secs) _ => Qeq_bool secs 2 | _ => false end.

(** ** [_attempt_pairing]: the environment decides *)

(** Whether the environment's answer is a return. *)
Definition returns {A} (a : answer A) : bool :=
  match a with Returns _ => true | Raises _ => false end.

(** The start of an attempt: a client is created. *)
Definition is_attempt (ev : event) : bool :=
  match ev with Called (NewClient _) _ => true | _ => false end.

(** A call of an attempt that raised. *)
Definition is_failure (ev : event) : bool :=
  match ev with
  | Called (Sleep secs) (Some _) => negb (Qeq_bool secs 2)
  | Called _ (Some _) => true
  | _ => false
  end.

(** Whether an answer lets the attempt go on: the call returned, and the
    client said it is connected. *)
Definition goes_on (c : call) : answer (resp c) -> bool :=
  match c return answer (resp c) -> bool with
  | IsConnected _ =>
      fun a => match a with Returns connected => connected | Raises _ => false end
  | _ => fun a => returns a
  end.

(** Whether the environment, asked from the history [t] on, lets the calls
    of [script] go on one after the other. *)
Fixpoint answers (w : env) (t : list event) (script : list event) : bool :=
  match script with
  | [] => true
  | ev :: rest =>
      match ev with
      | Called c _ => goes_on c (respond w t c)
      | _ => true
      end && answers w (t ++ [ev]) rest
  end.

(** Whether the environment lets an attempt that starts at the history [t]
    run to its end. *)
Definition lets_through (w : env) (t : list event) (address glass_name : string)
  : bool :=
  answers w t (completed address glass_name).

(** What an attempt leaves when the client says it is not connected. *)
Definition unconnected (address : string) : list event :=
  [ Called (NewClient address) None;
    Called (Connect address 20%Q) None;
    Called (IsConnected address) None ].

Definition failure_line (attempt : nat) (e : exn) : event :=
  Logged ERROR ("Connection attempt " ++ fmt_nat attempt ++ " failed: "
                ++ str_exn e)%string.

Definition retry_line : event := Printed "[yellow]Retrying connection...[/yellow]".

(** What follows the failure line: the wait, unless the attempt was the
    last. *)
Definition waited (attempt max_attempts : nat) (r : outcome (option bool))
    (wait : list event) : Prop :=
  if (attempt <? max_attempts)%nat
  then (r = Val None /\ wait = [retry_line; Called (Sleep 2%Q) None]) \/
       (exists e, r = Exc e /\ wait = [retry_line; Called (Sleep 2%Q) (Some e)])
  else r = Val None /\ wait = [].

(** An attempt in which a call raised. *)
Definition raised_attempt (address : string) (attempt max_attempts : nat)
    (r : outcome (option bool)) (new : list event) : Prop :=
  exists pre c e wait,
    new = pre ++ Called c (Some e) :: failure_line attempt e :: wait /\
    count is_failure pre = 0%nat /\
    count is_retry_wait pre = 0%nat /\
    count is_completion pre = 0%nat /\
    is_failure (Called c (Some e)) = true /\
    (exists o rest,
       pre ++ [Called c (Some e)] = Called (NewClient address) o :: rest /\
       count is_attempt rest = 0%nat) /\
    waited attempt max_attempts r wait.

(** The three ways an attempt can go. *)
Definition attempt_run (w : env) (address glass_name : string)
    (attempt max_attempts : nat) (t : list event)
    (r : outcome (option bool)) (new : list event) : Prop :=
  (lets_through w t address glass_name = true /\ r = Val (Some true) /\
   exists tail, new = completed address glass_name ++ tail /\
                epilogue glass_name tail) \/
  (lets_through w t address glass_name = false /\ r = Val None /\
   new = unconnected address) \/
  (lets_through w t address glass_name = false /\
   raised_attempt address attempt max_attempts r new).

Ltac cut_at l k :=
  lazymatch l with
  | Called ?c (Some ?e) :: _ :: ?wait => k (@nil event) c e wait
  | ?ev :: ?rest => cut_at rest ltac:(fun pre c e wait => k (ev :: pre) c e wait)
  end.

Ltac told :=
  repeat match goal with E : respond _ _ _ = _ |- _ => rewrite E end.

Lemma attempt_step_run address glass_name is_left max_attempts attempt w s :
  let r := attempt_step address glass_name is_left max_attempts attempt w s in
  exists new,
    trace r.2 = trace s ++ new /\
    attempt_run w address glass_name attempt max_attempts (trace s) r.1 new.
Proof.
  unfold attempt_step, attempt_body, attempt_failed, attempt_run, waited.
  simpl.
  destruct (attempt <? max_attempts)%nat eqn:Hlast; simpl;
    repeat first
      [ answer
      | match goal with
        | |- context [if ?b then _ else _] => is_var b; destruct b; simpl
        end ].
  all: eexists; (split; [flatten; reflexivity|]).
  all: unfold lets_through, completed, side_of; simpl; told; simpl.
  all: try (left; split; [done|]; split; [done|]; eexists; split; [reflexivity|];
            unfold epilogue; by auto).
  all: right.
  all: try (left; done).
  all: right; split; [done|].
  all: match goal with
       | |- raised_attempt _ _ _ _ ?L =>
           cut_at L ltac:(fun pre c e wait => exists pre, c, e, wait)
       end.
  all: split; [reflexivity|].
  all: split; [tally|].
  all: split; [tally|].
  all: split; [tally|].
  all: split; [done|].
  all: split; [eexists _, _; split; [reflexivity|tally]|].
  all: unfold waited, retry_line; rewrite Hlast; eauto.
Qed.

(** *** Finding an event in a trace *)

Lemma split_app {A} (l1 l2 before : list A) (y : A) (after : list A) :
  l1 ++ l2 = before ++ y :: after ->
  (exists mid, l1 = before ++ y :: mid /\ after = mid ++ l2) \/
  (exists mid, before = l1 ++ mid /\ l2 = mid ++ y :: after).
Proof.
  revert before. induction l1 as [|x l1 IH]; intros before H; simpl in H.
  - right. by exists before.
  - destruct before as [|b before]; simpl in H.
    + left. exists l1. by inversion H.
    + inversion H as [[Hx Ht]]. destruct (IH before Ht) as [(mid & -> & ->) | (mid & -> & ->)].
      * left. by exists mid.
      * right. by exists mid.
Qed.

Lemma in_middle (p : event -> bool) a1 x a2 before y mid :
  count p a1 = 0%nat -> count p a2 = 0%nat -> p y = true ->
  a1 ++ x :: a2 = before ++ y :: mid ->
  before = a1 /\ y = x /\ mid = a2.
Proof.
  intros H1 H2 Hy. revert before. induction a1 as [|a a1 IH]; intros before H.
  - destruct before as [|b before]; simpl in H.
    + by inversion H.
    + inversion H as [[Hx Ht]]. subst a2. revert H2. rewrite count_app, count_cons, Hy. lia.
  - rewrite count_cons in H1. destruct before as [|b before]; simpl in H.
    + inversion H as [[Hx Ht]]. subst a. rewrite Hy in H1. lia.
    + inversion H as [[Hx Ht]]. subst b.
      destruct (IH ltac:(lia) before Ht) as (-> & -> & ->). done.
Qed.

Lemma nowhere (p : event -> bool) l before y mid :
  count p l = 0%nat -> p y = true -> l = before ++ y :: mid -> False.
Proof. intros H Hy ->. revert H. rewrite count_app, count_cons, Hy. lia. Qed.

(** *** The run of the retry loop *)

(** What the loop over the attempts [start], .., [start + len - 1] leaves,
    from the history [t]: it goes on after an attempt that neither returned
    nor raised out of its handler. *)
Inductive run_of (w : env) (address glass_name : string) (max_attempts : nat)
  : nat -> nat -> list event -> outcome (option bool) -> list event -> Prop :=
| run_end start t :
    run_of w address glass_name max_attempts start 0 t (Val None) []
| run_stop start len t r seg :
    attempt_run w address glass_name start max_attempts t r seg ->
    r <> Val None ->
    run_of w address glass_name max_attempts start (S len) t r seg
| run_next start len t seg r new :
    attempt_run w address glass_name start max_attempts t (Val None) seg ->
    run_of w address glass_name max_attempts (S start) len (t ++ seg) r new ->
    run_of w address glass_name max_attempts start (S len) t r (seg ++ new).

Lemma attempts_run address glass_name is_left max_attempts len start w s :
  let r := for_each (seq start len)
             (attempt_step address glass_name is_left max_attempts) w s in
  exists new,
    trace r.2 = trace s ++ new /\
    run_of w address glass_name max_attempts start len (trace s) r.1 new.
Proof.
  revert start s. induction len as [|len IH]; intros start s.
  - exists []. simpl. rewrite app_nil_r. split; [done|]. constructor.
  - cbn [seq for_each bind].
    destruct (attempt_step_run address glass_name is_left max_attempts start w s)
      as (n1 & E1 & H1).
    destruct (attempt_step address glass_name is_left max_attempts start w s)
      as [[[b|]|e] s1]; simpl in E1, H1.
    + exists n1. simpl. split; [done|]. by apply run_stop.
    + destruct (IH (S start) s1) as (n2 & E2 & H2).
      exists (n1 ++ n2). rewrite E2, E1, app_assoc. split; [done|].
      apply run_next; [done|]. by rewrite <- E1.
    + exists n1. simpl. split; [done|]. by apply run_stop.
Qed.

(** Every attempt starts by creating a client for the address, and
    creates no other. *)
Lemma attempt_run_head w address glass_name attempt max_attempts t r seg :
  attempt_run w address glass_name attempt max_attempts t r seg ->
  exists o rest,
    seg = Called (NewClient address) o :: rest /\ count is_attempt rest = 0%nat.
Proof.
  intros [(_ & _ & tail & -> & Ht) | [(_ & _ & ->) | (_ & Hx)]].
  - eexists _, _. split; [reflexivity|]. destruct Ht as [-> | ->]; tally.
  - eexists _, _. split; [reflexivity|]. tally.
  - destruct Hx as (pre & c & e & wait & -> & _ & _ & _ & _ & (o & rest & Hh & Hc) & Hw).
    exists o, (rest ++ failure_line attempt e :: wait).
    split.
    { change (pre ++ Called c (Some e) :: failure_line attempt e :: wait)
        with (pre ++ [Called c (Some e)] ++ failure_line attempt e :: wait).
      by rewrite app_assoc, Hh. }
    unfold waited in Hw. destruct (attempt <? max_attempts)%nat.
    + destruct Hw as [[_ ->] | (e' & _ & ->)]; tally.
    + destruct Hw as [_ ->]. tally.
Qed.


Section Run.

Context (w : env) (address glass_name : string) (max_attempts : nat).


Lemma run_head start len t r new :
  run_of w address glass_name max_attempts start (S len) t r new ->
  exists o rest, new = Called (NewClient address) o :: rest.
Proof.
  inversion 1 as [| ? ? ? ? ? Hseg | ? ? ? ? ? ? Hseg]; subst.
  - destruct (attempt_run_head _ _ _ _ _ _ _ _ Hseg) as (o & rest & -> & _). eauto.
  - destruct (attempt_run_head _ _ _ _ _ _ _ _ Hseg) as (o & rest & -> & _).
    simpl. eauto.
Qed.





End Run.


Lemma skip_front (p : event -> bool) l1 l2 before y after :
  count p l1 = 0%nat -> p y = true ->
  l1 ++ l2 = before ++ y :: after ->
  exists mid, before = l1 ++ mid /\ l2 = mid ++ y :: after.
Proof.
  intros H1 Hy H.
  destruct (split_app _ _ _ _ _ H) as [(mid & Hm & _) | ?]; [|done].
  by destruct (nowhere p _ _ _ _ H1 Hy Hm).
Qed.

Lemma skip_back (p : event -> bool) l1 l2 before y after :
  count p l2 = 0%nat -> p y = true ->
  l1 ++ l2 = before ++ y :: after ->
  exists mid, l1 = before ++ y :: mid /\ after = mid ++ l2.
Proof.
  intros H2 Hy H.
  destruct (split_app _ _ _ _ _ H) as [? | (mid & _ & Hm)]; [done|].
  by destruct (nowhere p _ _ _ _ H2 Hy Hm).
Qed.

(** The two lines [_attempt_pairing] starts with. *)
Definition opening (glass_name : string) : list event :=
  [ Logged DEBUG ("Starting first-time pairing for " ++ glass_name)%string;
    Printed ("\n[yellow]Performing first-time pairing for "
             ++ glass_name ++ "...[/yellow]")%string ].

(** How [_attempt_pairing] runs: its two lines, the loop, and the error
    line if an exception left the loop. *)
Lemma attempt_pairing_run address glass_name max_attempts w s :
  exists r new,
    run_of w address glass_name max_attempts 1 max_attempts
      (trace s ++ opening glass_name) r new /\
    (count is_connect new <= max_attempts)%nat /\
    attempts_outcome address glass_name r new /\
    let out := _attempt_pairing address glass_name max_attempts w s in
    match r with
    | Val (Some b) =>
        out.1 = Val b /\ since s out.2 = opening glass_name ++ new
    | Val None =>
        out.1 = Val false /\ since s out.2 = opening glass_name ++ new
    | Exc e =>
        out.1 = Val false /\
        since s out.2 =
          opening glass_name ++ new ++
          [Logged ERROR ("Pairing attempt failed: " ++ str_exn e)%string]
    end.
Proof.
  unfold _attempt_pairing. cbn [try_except bind log console_print modify].
  remember (emit _ (emit _ s)) as s0 eqn:Hs0.
  assert (trace s0 = trace s ++ opening glass_name) as E0.
  { rewrite Hs0. simpl. by flatten. }
  clear Hs0.
  destruct (attempts_run address glass_name (glass_name =? "Left glass")%string
              max_attempts max_attempts 1 w s0) as (new & E & R).
  destruct (attempts_spec address glass_name (glass_name =? "Left glass")%string
              max_attempts (seq 1 max_attempts) w s0) as (new' & E' & C & O).
  rewrite E in E'. apply app_inv_head in E'. subst new'.
  rewrite length_seq in C. rewrite E0 in R.
  destruct (for_each _ _ w s0) as [r s1]. simpl in E, R, O.
  exists r, new. split; [done|]. split; [done|]. split; [done|].
  destruct r as [[b|]|e]; simpl; (split; [done|]).
  - apply since_app. by rewrite E, E0, <- app_assoc.
  - apply since_app. by rewrite E, E0, <- app_assoc.
  - apply since_app. simpl. by rewrite E, E0, <- !app_assoc.
Qed.



(** An environment in which only disconnecting fails. *)
Definition disconnect_fails : env :=
  {| respond := fun _ c =>
       match c return answer (resp c) with
       | Disconnect _ => Raises (Exn "disconnect failed")
       | c => Returns (plain c)
       end;
     clock := fun _ => 0%Q |}.


(** ** [_attempt_pairing] and the store *)

Definition paired_flag (is_left : bool) (c : Config) : bool :=
  if is_left then left_paired c else right_paired c.

(** A [save()] that returned. *)
Definition is_saved (ev : event) : bool :=
  match ev with Called Save None => true | _ => false end.

(** Whether and what a run wrote to the store: if a save returned, the
    store has the side's flag set; if none did, the store is untouched. *)
Definition stored (is_left : bool) (s s' : state) (new : list event) : Prop :=
  ((0 < count is_saved new)%nat -> paired_flag is_left (saved s') = true) /\
  (count is_saved new = 0%nat -> saved s' = saved s).

Lemma paired_flag_set is_left c : paired_flag is_left (set_paired is_left c) = true.
Proof. by destruct is_left. Qed.

Lemma attempt_step_stored address glass_name is_left max_attempts attempt w s :
  exists new,
    trace (attempt_step address glass_name is_left max_attempts attempt w s).2
      = trace s ++ new /\
    stored is_left s
      (attempt_step address glass_name is_left max_attempts attempt w s).2 new.
Proof.
  unfold attempt_step, attempt_body, attempt_failed, stored.
  simpl.
  destruct (attempt <? max_attempts)%nat; simpl;
    repeat first
      [ answer
      | match goal with
        | |- context [if ?b then _ else _] => is_var b; destruct b; simpl
        end ].
  all: eexists; (split; [flatten; reflexivity|]).
  all: split; [intros H|intros H];
    first [ apply paired_flag_set | reflexivity | revert H; tally ].
Qed.

Lemma attempts_stored address glass_name is_left max_attempts xs w s :
  exists new,
    trace (for_each xs (attempt_step address glass_name is_left max_attempts) w s).2
      = trace s ++ new /\
    stored is_left s
      (for_each xs (attempt_step address glass_name is_left max_attempts) w s).2
      new.
Proof.
  revert s. induction xs as [|x xs IH]; intros s.
  - exists []. simpl. rewrite app_nil_r. split; [done|]. split; [|done].
    rewrite count_nil. lia.
  - cbn [for_each bind].
    destruct (attempt_step_stored address glass_name is_left max_attempts x w s)
      as (n1 & E1 & S1 & K1).
    destruct (attempt_step address glass_name is_left max_attempts x w s)
      as [[[b|]|e] s1]; simpl in E1, S1, K1.
    + exists n1. simpl. by repeat split.
    + destruct (IH s1) as (n2 & E2 & S2 & K2).
      exists (n1 ++ n2). rewrite E2, E1, app_assoc. split; [done|].
      unfold stored. rewrite count_app. split.
      * intros H. destruct (count is_saved n2) as [|k] eqn:Hn2.
        -- rewrite K2 by done. apply S1. lia.
        -- apply S2. lia.
      * intros H. rewrite K2, K1 by lia. done.
    + exists n1. simpl. by repeat split.
Qed.

(** C9: [_attempt_pairing] is not atomic with respect to the store.  A
    [save()] that returned is never taken back: whatever the function
    returns, the store then has the side's paired flag set (and without
    such a save the store is as before).  And there is a run, every
    disconnect failing, in which it returns [False] while the store, which
    had the left flag unset, ends up with it set. *)
Theorem attempt_pairing_not_atomic :
  (forall w s address glass_name max_attempts,
     let s' := (_attempt_pairing address glass_name max_attempts w s).2 in
     ((0 < count is_saved (since s s'))%nat ->
        paired_flag (String.eqb glass_name "Left glass") (saved s') = true) /\
     (count is_saved (since s s') = 0%nat -> saved s' = saved s)) /\
  (exists w s,
     let r := _attempt_pairing "AA" "Left glass" 3 w s in
     r.1 = Val false /\
     left_paired (saved s) = false /\
     left_paired (saved r.2) = true /\
     (0 < count is_saved (since s r.2))%nat).
Proof.
  split.
  - intros w s address glass_name max_attempts.
    unfold _attempt_pairing. cbn [try_except bind log console_print modify].
    remember (emit _ (emit _ s)) as s0 eqn:Hs0.
    destruct (attempts_stored address glass_name (glass_name =? "Left glass")%string
                max_attempts (seq 1 max_attempts) w s0) as (new & E & S & K).
    assert (trace s0 = trace s ++
              [Logged DEBUG ("Starting first-time pairing for " ++ glass_name)%string;
               Printed ("\n[yellow]Performing first-time pairing for "
                        ++ glass_name ++ "...[/yellow]")%string]) as E0.
    { rewrite Hs0. simpl. by flatten. }
    assert (saved s0 = saved s) as Es by (by rewrite Hs0).
    clear Hs0.
    destruct (for_each _ _ w s0) as [[[b|]|e] s1]; simpl in E, S, K |- *.
    all: erewrite since_app; [|simpl; rewrite E, E0; flatten; done].
    all: rewrite ?count_cons, ?count_app, ?count_nil; simpl.
    all: rewrite ?Nat.add_0_r.
    all: split; [done | intros H; by rewrite K].
  - exists disconnect_fails, (fresh (known "AA" "BB")). vm_compute.
    repeat split; lia.
Qed.


(** ** Traces record the environment's answers *)

(** What the trace holds for a call is what the environment answered when
    the call was made. *)
Definition recorded (w : env) (t : list event) (ev : event) : Prop :=
  match ev with
  | Called c o =>
      o = match respond w t c with Returns _ => None | Raises e => Some e end
  | _ => True
  end.

(** [faithful w t new]: the events [new], appended to the history [t], are
    a record of what the environment [w] answered, call by call. *)
Fixpoint faithful (w : env) (t new : list event) : Prop :=
  match new with
  | [] => True
  | ev :: rest => recorded w t ev /\ faithful w (t ++ [ev]) rest
  end.

(** [recording m]: [m] only appends to the trace, and what it appends is
    faithful. *)
Definition recording {A} (m : M A) : Prop :=
  forall w s, exists new,
    trace (m w s).2 = trace s ++ new /\ faithful w (trace s) new.

Lemma faithful_app w t n1 n2 :
  faithful w t n1 -> faithful w (t ++ n1) n2 -> faithful w t (n1 ++ n2).
Proof.
  revert t. induction n1 as [|ev n1 IH]; intros t H1 H2; simpl in *.
  - by rewrite app_nil_r in H2.
  - destruct H1 as [Hev H1]. split; [done|]. apply IH; [done|].
    by rewrite <- app_assoc.
Qed.

Lemma recording_silent {A} (m : M A) :
  (forall w s, trace (m w s).2 = trace s) -> recording m.
Proof. intros H w s. exists []. by rewrite H, app_nil_r. Qed.

Lemma recording_ret {A} (a : A) : recording (ret a).
Proof. by apply recording_silent. Qed.

Lemma recording_raise {A} (e : exn) : recording (@raise A e).
Proof. by apply recording_silent. Qed.

Lemma recording_get {A} (f : state -> A) : recording (get f).
Proof. by apply recording_silent. Qed.

Lemma recording_loop_time : recording loop_time.
Proof. by apply recording_silent. Qed.

Lemma recording_modify (f : state -> state) :
  (forall s, trace (f s) = trace s) -> recording (modify f).
Proof. intros H. apply recording_silent. intros w s. apply H. Qed.

Lemma recording_log lvl msg : recording (log lvl msg).
Proof. intros w s. by exists [Logged lvl msg]. Qed.

Lemma recording_print msg : recording (console_print msg).
Proof. intros w s. by exists [Printed msg]. Qed.

Lemma recording_ext c : recording (ext c).
Proof.
  intros w s. simpl. destruct (respond w (trace s) c) eqn:E; simpl;
    eexists; (split; [done|]); simpl; by rewrite E.
Qed.

Lemma recording_bind {A B} (m : M A) (k : A -> M B) :
  recording m -> (forall a, recording (k a)) -> recording (bind m k).
Proof.
  intros Hm Hk w s. simpl. destruct (Hm w s) as (n1 & E1 & F1).
  destruct (m w s) as [[a|e] s1]; simpl in *; [|by eauto].
  destruct (Hk a w s1) as (n2 & E2 & F2).
  exists (n1 ++ n2). rewrite E2, E1, app_assoc. split; [done|].
  apply faithful_app; [done|]. by rewrite <- E1.
Qed.

Lemma recording_try {A} (m : M A) (h : exn -> M A) :
  recording m -> (forall e, recording (h e)) -> recording (try_except m h).
Proof.
  intros Hm Hh w s. simpl. destruct (Hm w s) as (n1 & E1 & F1).
  destruct (m w s) as [[a|e] s1]; simpl in *; [by eauto|].
  destruct (Hh e w s1) as (n2 & E2 & F2).
  exists (n1 ++ n2). rewrite E2, E1, app_assoc. split; [done|].
  apply faithful_app; [done|]. by rewrite <- E1.
Qed.

Lemma recording_for_each {A B} (xs : list A) (body : A -> M (option B)) :
  (forall x, recording (body x)) -> recording (for_each xs body).
Proof.
  intros Hb. induction xs as [|x xs IH]; simpl.
  - apply recording_ret.
  - apply recording_bind; [done|]. intros [r|]; [apply recording_ret | done].
Qed.

Lemma recording_for_fold {A S} (xs : list A) (acc : S) (body : S -> A -> M S) :
  (forall acc x, recording (body acc x)) -> recording (for_fold xs acc body).
Proof.
  intros Hb. revert acc. induction xs as [|x xs IH]; intros acc; simpl.
  - apply recording_ret.
  - apply recording_bind; [done|]. intros acc'. apply IH.
Qed.

Lemma recording_save : recording config_save.
Proof.
  apply recording_bind; [apply recording_ext|].
  intros _. by apply recording_modify.
Qed.

Ltac recording_step :=
  match goal with
  | |- recording (bind _ _) => apply recording_bind; [|intros ?]
  | |- recording (try_except _ _) => apply recording_try; [|intros ?]
  | |- recording (for_each _ _) => apply recording_for_each; intros ?
  | |- recording (for_fold _ _ _) => apply recording_for_fold; intros ? ?
  | |- recording (ret _) => apply recording_ret
  | |- recording (raise _) => apply recording_raise
  | |- recording (get _) => apply recording_get
  | |- recording loop_time => apply recording_loop_time
  | |- recording (modify _) => apply recording_modify; intros ?; reflexivity
  | |- recording (log _ _) => apply recording_log
  | |- recording (console_print _) => apply recording_print
  | |- recording (ext _) => apply recording_ext
  | |- recording config_save => apply recording_save
  | |- recording (if ?b then _ else _) => destruct b
  | |- recording (match ?x with _ => _ end) => destruct x
  | |- recording (let '(_, _) := ?x in _) => destruct x
  end.

Ltac recording_walk := repeat recording_step.

Lemma recording_since {A} (m : M A) w s :
  recording m -> faithful w (trace s) (since s (m w s).2).
Proof. intros H. destruct (H w s) as (new & E & F). by rewrite (since_app _ _ _ E). Qed.

Lemma recording_verify_pairing : recording verify_pairing.
Proof.
  unfold verify_pairing, first_time_pairing, probe, probe_and_pair.
  recording_walk.
Qed.

(** ** [verify_pairing]: the second pass *)

(** The external calls of a trace, each with whether it returned. *)
Definition calls (t : list event) : list (call * bool) :=
  omap (fun ev =>
          match ev with
          | Called c None => Some (c, true)
          | Called c (Some _) => Some (c, false)
          | _ => None
          end) t.

Definition returned (cs : list call) : list (call * bool) :=
  map (fun c => (c, true)) cs.

(** The calls of the two passes when nothing stops them. *)
Definition first_pass (la ra : string) : list call :=
  [ NewClient la; Connect la 5%Q; Disconnect la;
    NewClient ra; Connect ra 5%Q; Disconnect ra ].

Definition second_pass (la ra : string) : list call :=
  [ NewClient la; Connect la 5%Q; Pair la; Disconnect la;
    NewClient ra; Connect ra 5%Q; Pair ra; Disconnect ra;
    Save ].

(** [ran s s' cs]: from [s] to [s'] the trace grew, by the calls [cs]. *)
Definition ran (s s' : state) (cs : list (call * bool)) : Prop :=
  exists new, trace s' = trace s ++ new /\ calls new = cs.

Lemma calls_app t1 t2 : calls (t1 ++ t2) = calls t1 ++ calls t2.
Proof. unfold calls. apply omap_app. Qed.

Lemma ran_refl s : ran s s [].
Proof. exists []. by rewrite app_nil_r. Qed.

Lemma ran_trans s1 s2 s3 c1 c2 :
  ran s1 s2 c1 -> ran s2 s3 c2 -> ran s1 s3 (c1 ++ c2).
Proof.
  intros (n1 & E1 & <-) (n2 & E2 & <-). exists (n1 ++ n2).
  by rewrite E2, E1, app_assoc, calls_app.
Qed.

Lemma ran_log s s' lvl msg cs :
  ran s s' cs -> ran s (emit (Logged lvl msg) s') cs.
Proof.
  intros H. rewrite <- (app_nil_r cs).
  apply (ran_trans s s' (emit (Logged lvl msg) s') cs []); [done|].
  by exists [Logged lvl msg].
Qed.

Lemma ran_since s s' cs : ran s s' cs -> calls (since s s') = cs.
Proof. intros (new & E & <-). by rewrite (since_app _ _ _ E). Qed.

(** Reads [ran] off a computed final state. *)
Ltac ran_now :=
  eexists; split; [simpl; rewrite <- ?app_assoc; simpl; reflexivity | reflexivity].

(** The calls of one side in the second pass. *)
Definition pair_calls (addr : string) : list call :=
  [ NewClient addr; Connect addr 5%Q; Pair addr; Disconnect addr ].

Lemma probe_spec side addr w s :
  let r := probe (side, addr) w s in
  config r.2 = config s /\ saved r.2 = saved s /\
  ((r.1 = Val None /\
    ran s r.2 (returned [NewClient addr; Connect addr 5%Q; Disconnect addr])) \/
   (r.1 = Val (Some false) /\
    exists cs, ran s r.2 cs /\ (length cs <= 3)%nat /\ forallb snd cs = false)).
Proof.
  unfold probe. simpl. repeat answer.
  all: repeat split.
  1: left; split; [done|]; ran_now.
  all: right; split; [done|]; eexists; split; [ran_now|];
    simpl; split; [lia|done].
Qed.

Lemma probe_and_pair_spec side addr w s :
  let r := probe_and_pair (side, addr) w s in
  saved r.2 = saved s /\
  ((r.1 = Val None /\
    ran s r.2 (returned (pair_calls addr)) /\
    config r.2 = set_paired (String.eqb side "left") (config s)) \/
   (r.1 = Val (Some false) /\ config r.2 = config s /\
    exists k c, pair_calls addr !! k = Some c /\
      ran s r.2 (returned (take k (pair_calls addr)) ++ [(c, false)]))).
Proof.
  unfold probe_and_pair. simpl. repeat answer.
  all: split; [done|].
  1: left; split; [done|]; split; [ran_now|done].
  - right. repeat split. exists 3%nat. eexists. split; [done|].
    ran_now.
  - right. repeat split. exists 2%nat. eexists. split; [done|].
    ran_now.
  - right. repeat split. exists 1%nat. eexists. split; [done|].
    ran_now.
  - right. repeat split. exists 0%nat. eexists. split; [done|].
    ran_now.
Qed.

Arguments probe : simpl never.
Arguments probe_and_pair : simpl never.
Arguments first_time_pairing : simpl never.

Lemma first_pass_spec la ra w s :
  let r := for_each [("left", la); ("right", ra)] probe w s in
  config r.2 = config s /\ saved r.2 = saved s /\
  ((r.1 = Val None /\ ran s r.2 (returned (first_pass la ra))) \/
   (r.1 = Val (Some false) /\
    exists cs, ran s r.2 cs /\ (length cs <= 6)%nat /\ forallb snd cs = false)).
Proof.
  cbn [for_each bind].
  destruct (probe_spec "left" la w s) as (C1 & S1 & H1).
  destruct (probe ("left", la) w s) as [o1 s1]. simpl in C1, S1, H1.
  destruct H1 as [[-> R1] | [-> (cs & R1 & L1 & F1)]]; cbn [for_each bind ret].
  - destruct (probe_spec "right" ra w s1) as (C2 & S2 & H2).
    destruct (probe ("right", ra) w s1) as [o2 s2]. simpl in C2, S2, H2.
    rewrite C1 in C2. rewrite S1 in S2.
    destruct H2 as [[-> R2] | [-> (cs & R2 & L2 & F2)]]; simpl.
    + split; [done|]. split; [done|]. left. split; [done|].
      apply (ran_trans s s1 s2 _ _ R1 R2).
    + split; [done|]. split; [done|]. right. split; [done|].
      eexists. split; [apply (ran_trans s s1 s2 _ _ R1 R2)|].
      rewrite length_app, forallb_app, F2. simpl. split; [lia|done].
  - simpl. split; [done|]. split; [done|]. right. split; [done|].
    exists cs. split; [done|]. split; [lia|done].
Qed.

Lemma first_time_pairing_spec la ra w s :
  let r := first_time_pairing la ra w s in
  exists k ok c,
    second_pass la ra !! k = Some c /\
    ran s r.2 (returned (take k (second_pass la ra)) ++ [(c, ok)]) /\
    left_paired (config r.2) = left_paired (config s) || (4 <=? k)%nat /\
    right_paired (config r.2) = right_paired (config s) || (8 <=? k)%nat /\
    ((k = 8%nat /\ ok = true /\ r.1 = Val true /\ saved r.2 = config r.2) \/
     (ok = false /\
      (r.1 = Val false \/ exists e, r.1 = Exc e) /\ saved r.2 = saved s)).
Proof.
  unfold first_time_pairing.
  cbn [for_each bind log modify].
  set (s0 := emit _ (emit _ (emit _ (emit _ s)))).
  assert (ran s s0 []) as R0 by (subst s0; do 4 apply ran_log; apply ran_refl).
  assert (config s0 = config s) as C0 by done.
  assert (saved s0 = saved s) as S0 by done.
  clearbody s0.
  destruct (probe_and_pair_spec "left" la w s0) as (S1 & H1).
  destruct (probe_and_pair ("left", la) w s0) as [o1 s1]. simpl in S1, H1.
  destruct H1 as [(-> & R1 & C1) | (-> & C1 & k & c & Hk & R1)];
    cbn [for_each bind ret].
  - destruct (probe_and_pair_spec "right" ra w s1) as (S2 & H2).
    destruct (probe_and_pair ("right", ra) w s1) as [o2 s2]. simpl in S2, H2.
    destruct H2 as [(-> & R2 & C2) | (-> & C2 & k & c & Hk & R2)];
      cbn [for_each bind ret].
    + cbn [ret config_save bind ext modify log].
      destruct (respond w (trace s2) Save) as [[]|e] eqn:E.
      * exists 8%nat, true, Save. cbn [fst snd]. split; [done|]. split.
        { apply ran_log.
          apply (ran_trans s s2 _ (returned (pair_calls la ++ pair_calls ra)) [(Save, true)]).
          - apply (ran_trans s s0 s2 [] _ R0).
            apply (ran_trans s0 s1 s2 _ _ R1 R2).
          - by exists [Called Save None]. }
        simpl. rewrite C2, C1, C0. simpl.
        rewrite !orb_true_r. repeat split. left. done.
      * exists 8%nat, false, Save. cbn [fst snd]. split; [done|]. split.
        { apply (ran_trans s s2 _ (returned (pair_calls la ++ pair_calls ra)) [(Save, false)]).
          - apply (ran_trans s s0 s2 [] _ R0).
            apply (ran_trans s0 s1 s2 _ _ R1 R2).
          - by exists [Called Save (Some e)]. }
        simpl. rewrite C2, C1, C0. simpl.
        rewrite !orb_true_r. repeat split. right.
        split; [done|]. split; [by eauto|]. by rewrite S2, S1, S0.
    + cbn [ret fst snd].
      assert (k < 4)%nat as Hlt by (apply lookup_lt_Some in Hk; simpl in Hk; lia).
      exists (4 + k)%nat, false, c. split.
      { destruct k as [|[|[|[|?]]]]; try lia; simpl in *; done. }
      split.
      { replace (returned (take (4 + k) (second_pass la ra)))
          with (returned (pair_calls la) ++ returned (take k (pair_calls ra)))
          by (destruct k as [|[|[|[|?]]]]; try lia; done).
        rewrite <- app_assoc.
        apply (ran_trans s s0 s2 [] _ R0).
        apply (ran_trans s0 s1 s2 _ _ R1 R2). }
      rewrite C2, C1, C0.
      replace (4 <=? 4 + k)%nat with true by (symmetry; apply Nat.leb_le; lia).
      replace (8 <=? 4 + k)%nat with false by (symmetry; apply Nat.leb_gt; lia).
      simpl. rewrite orb_true_r, orb_false_r. repeat split. right.
      split; [done|]. split; [by left|]. by rewrite S2, S1, S0.
  - cbn [ret fst snd].
    assert (k < 4)%nat as Hlt by (apply lookup_lt_Some in Hk; simpl in Hk; lia).
    exists k, false, c. split.
    { destruct k as [|[|[|[|?]]]]; try lia; simpl in *; done. }
    split.
    { replace (returned (take k (second_pass la ra)))
        with (returned (take k (pair_calls la)))
        by (destruct k as [|[|[|[|?]]]]; try lia; done).
      apply (ran_trans s s0 s1 [] _ R0 R1). }
    rewrite C1, C0.
    replace (4 <=? k)%nat with false by (symmetry; apply Nat.leb_gt; lia).
    replace (8 <=? k)%nat with false by (symmetry; apply Nat.leb_gt; lia).
    rewrite !orb_false_r. repeat split. right.
    split; [done|]. split; [by left|]. by rewrite S1, S0.
Qed.

Lemma config_emit ev s : config (emit ev s) = config s.
Proof. done. Qed.

Lemma saved_emit ev s : saved (emit ev s) = saved s.
Proof. done. Qed.

(** How [verify_pairing] runs once both addresses are there and a flag is
    unset: it stops in the first pass, or goes through the second up to
    its [k]-th call. *)
Lemma verify_pairing_run la ra w s :
  truthy (left_address (config s)) = Some la ->
  truthy (right_address (config s)) = Some ra ->
  negb (left_paired (config s)) || negb (right_paired (config s)) = true ->
  let r := verify_pairing w s in
  (r.1 = Val false /\
   exists cs, ran s r.2 cs /\ (length cs <= 6)%nat /\ forallb snd cs = false) \/
  (exists k ok c,
     second_pass la ra !! k = Some c /\
     ran s r.2 (returned (first_pass la ra) ++
                returned (take k (second_pass la ra)) ++ [(c, ok)]) /\
     left_paired (config r.2) = left_paired (config s) || (4 <=? k)%nat /\
     right_paired (config r.2) = right_paired (config s) || (8 <=? k)%nat /\
     ((k = 8%nat /\ ok = true /\ r.1 = Val true /\ saved r.2 = config r.2) \/
      (ok = false /\ r.1 = Val false /\ saved r.2 = saved s))).
Proof.
  intros Hl Hr Hneg. unfold verify_pairing.
  cbn [try_except bind get log modify]. rewrite config_emit, Hl, Hr.
  cbn [bind].
  set (s0 := emit (Logged DEBUG "Verifying pairing...") s).
  assert (ran s s0 []) as R0 by (subst s0; apply ran_log, ran_refl).
  assert (config s0 = config s) as C0 by done.
  assert (saved s0 = saved s) as S0 by done.
  clearbody s0.
  destruct (first_pass_spec la ra w s0) as (C1 & S1 & H1).
  destruct (for_each _ probe w s0) as [o1 s1]. simpl in C1, S1, H1.
  destruct H1 as [[-> R1] | [-> (cs & R1 & L1 & F1)]];
    cbn [ret bind log modify get].
  - rewrite config_emit, C1, C0, Hneg.
    set (s2 := emit _ s1).
    assert (ran s s2 (returned (first_pass la ra))) as R2.
    { subst s2. apply ran_log. apply (ran_trans s s0 s1 [] _ R0 R1). }
    assert (config s2 = config s) as C2 by (subst s2; by rewrite config_emit, C1).
    assert (saved s2 = saved s) as S2 by (subst s2; by rewrite saved_emit, S1).
    clearbody s2.
    destruct (first_time_pairing_spec la ra w s2)
      as (k & ok & c & Hk & R3 & Fl & Fr & H3).
    destruct (first_time_pairing la ra w s2) as [o3 s3].
    simpl in R3, Fl, Fr, H3. rewrite C2 in Fl, Fr. rewrite S2 in H3.
    right. exists k, ok, c. split; [done|].
    destruct H3 as [(-> & -> & -> & S3) | (Hko & [-> | [e ->]] & S3)];
      cbn [fst snd config emit saved].
    + split; [apply (ran_trans s s2 s3 _ _ R2 R3)|]. repeat split; try done.
      left. done.
    + split; [apply (ran_trans s s2 s3 _ _ R2 R3)|]. repeat split; try done.
      right. done.
    + split; [apply ran_log, (ran_trans s s2 s3 _ _ R2 R3)|].
      repeat split; try done. right. done.
  - left. cbn [fst snd]. split; [done|]. exists cs. split; [|done].
    apply (ran_trans s s0 s1 [] _ R0 R1).
Qed.

Lemma forallb_returned cs : forallb snd (returned cs) = true.
Proof. by induction cs. Qed.

(** C2: with both addresses saved, both first-pass probes successful and a
    paired flag unset, [verify_pairing] goes into the second pass: it issues
    the calls of [second_pass] in order (per side: new client, connect, pair,
    disconnect; then one [save()]), each recorded as the environment
    answered it, and stops only at a call that raised or after the save.
    The left flag is set once the four left calls returned, the right flag
    once the four right calls returned; [save()] is the ninth call, reached
    only after both; and the result is [True] exactly when all nine calls
    returned, in which case the store holds the config object. *)
Theorem verify_pairing_second_pass (w : env) (s : state) (la ra : string) :
  truthy (left_address (config s)) = Some la ->
  truthy (right_address (config s)) = Some ra ->
  left_paired (config s) = false \/ right_paired (config s) = false ->
  let r := verify_pairing w s in
  take 6 (calls (since s r.2)) = returned (first_pass la ra) ->
  exists b k ok c,
    r.1 = Val b /\
    second_pass la ra !! k = Some c /\
    calls (since s r.2) =
      returned (first_pass la ra) ++
      returned (take k (second_pass la ra)) ++ [(c, ok)] /\
    faithful w (trace s) (since s r.2) /\
    ((k < 8)%nat -> ok = false) /\
    left_paired (config r.2) = left_paired (config s) || (4 <=? k)%nat /\
    right_paired (config r.2) = right_paired (config s) || (8 <=? k)%nat /\
    (b = true <-> k = 8%nat /\ ok = true) /\
    saved r.2 = (if b then config r.2 else saved s).
Proof.
  intros Hl Hr Hflag r Htake. subst r.
  assert (negb (left_paired (config s)) || negb (right_paired (config s)) = true)
    as Hneg.
  { destruct Hflag as [-> | ->]; [done|]. by rewrite orb_true_r. }
  pose proof (recording_since verify_pairing w s recording_verify_pairing) as HF.
  destruct (verify_pairing_run la ra w s Hl Hr Hneg)
    as [(_ & cs & R & L & F) | (k & ok & c & Hk & R & Fl & Fr & H)].
  - apply ran_since in R. rewrite R in Htake.
    rewrite take_ge in Htake by lia. subst cs.
    by rewrite forallb_returned in F.
  - apply ran_since in R.
    destruct H as [(-> & -> & Hb & S) | (-> & Hb & S)].
    + exists true, 8%nat, true, c. repeat split; try done. lia.
    + exists false, k, false, c. repeat split; try done.
      by intros [_ ?].
Qed.

Lemma verify_pairing_second_pass_witness :
  let r := verify_pairing all_good (fresh (known "AA" "BB")) in
  exists b k ok c,
    r.1 = Val b /\
    second_pass "AA" "BB" !! k = Some c /\
    calls (since (fresh (known "AA" "BB")) r.2) =
      returned (first_pass "AA" "BB") ++
      returned (take k (second_pass "AA" "BB")) ++ [(c, ok)] /\
    faithful all_good [] (since (fresh (known "AA" "BB")) r.2) /\
    ((k < 8)%nat -> ok = false) /\
    left_paired (config r.2) = false || (4 <=? k)%nat /\
    right_paired (config r.2) = false || (8 <=? k)%nat /\
    (b = true <-> k = 8%nat /\ ok = true) /\
    saved r.2 = (if b then config r.2 else known "AA" "BB").
Proof.
  apply (verify_pairing_second_pass all_good (fresh (known "AA" "BB")) "AA" "BB").
  - reflexivity.
  - reflexivity.
  - left. reflexivity.
  - vm_compute. reflexivity.
Defined.

(** ** [set_silent_mode] *)

Import DeviceManager.

(** The frame [bytes([COMMANDS.DASHBOARD_OPEN, 0x01 if enabled else 0x00])]. *)
Definition frame (DASHBOARD_OPEN : Z) (enabled : bool) : list Z :=
  [DASHBOARD_OPEN; if enabled then 1%Z else 0%Z].

(** The dispatcher's answer is an acknowledgement: it returned a non-empty
    response whose second byte is the command-response category. *)
Definition acknowledged (COMMAND_RESPONSE : Z) (a : answer (option (list Z))) : bool :=
  match a with
  | Returns (Some (b0 :: b1 :: _)) => (b1 =? COMMAND_RESPONSE)%Z
  | _ => false
  end.

(** A status refresh that returned. *)
Definition is_refreshed (ev : event) : bool :=
  match ev with Called UpdateStatus None => true | _ => false end.

Lemma bytes_frame DO enabled w s :
  (0 <= DO < 256)%Z -> bytes (frame DO enabled) w s = (Val (frame DO enabled), s).
Proof.
  intros H. unfold bytes, frame. cbn [forallb].
  replace ((0 <=? DO)%Z && (DO <? 256)%Z) with true by (symmetry; lia).
  by destruct enabled.
Qed.

(** What a call does when it has something to do. *)
Lemma set_silent_mode_sends DO CR enabled w s :
  (0 <= DO < 256)%Z ->
  _silent_mode s <> enabled ->
  let sent := respond w (trace s) (SendCommand (frame DO enabled) true) in
  let r := set_silent_mode DO CR enabled w s in
  count is_send (since s r.2) = 1%nat /\
  (if acknowledged CR sent
   then _silent_mode r.2 = enabled /\
        ((r.1 = Val true /\ count is_refreshed (since s r.2) = 1%nat) \/
         (r.1 = Val false /\ count is_refreshed (since s r.2) = 0%nat))
   else r.1 = Val false /\ _silent_mode r.2 = _silent_mode s /\
        count is_refreshed (since s r.2) = 0%nat).
Proof.
  intros HDO Hne. cbv zeta. unfold set_silent_mode.
  cbn [try_except bind get].
  replace (Bool.eqb enabled (_silent_mode s)) with false
    by (symmetry; apply Bool.eqb_false_iff; congruence).
  cbn [bind]. fold (frame DO enabled). rewrite bytes_frame by done.
  cbn [bind ext].
  destruct (respond w (trace s) (SendCommand (frame DO enabled) true))
    as [[[|b0 [|b1 rest]]|]|e] eqn:E; simpl.
  - erewrite since_app by (simpl; flatten; done). split; [tally|]. by repeat split.
  - erewrite since_app by (simpl; flatten; done). split; [tally|]. by repeat split.
  - destruct (b1 =? CR)%Z eqn:Hb; simpl.
    + answer.
      * erewrite since_app by (simpl; flatten; done). split; [tally|].
        split; [done|]. left. split; [done|tally].
      * erewrite since_app by (simpl; flatten; done). split; [tally|].
        split; [done|]. right. split; [done|tally].
    + erewrite since_app by (simpl; flatten; done). split; [tally|]. by repeat split.
  - erewrite since_app by (simpl; flatten; done). split; [tally|]. by repeat split.
  - erewrite since_app by (simpl; flatten; done). split; [tally|]. by repeat split.
Qed.

(** What a call does when the state is already as asked. *)
Lemma set_silent_mode_same DO CR enabled w s :
  _silent_mode s = enabled ->
  set_silent_mode DO CR enabled w s = (Val true, s).
Proof.
  intros H. unfold set_silent_mode. cbn [try_except bind get].
  rewrite H, Bool.eqb_reflx. done.
Qed.

(** The line logged once the state is changed. *)
Definition confirmation (enabled : bool) : event :=
  Logged INFO ("Silent mode " ++ if enabled then "enabled" else "disabled")%string.

(** C3, as the code has it.  For a call that has something to do
    ([enabled] differs from the state, the opcode is a byte): it never
    raises; it sends the command once, and refreshes the status exactly
    when the dispatcher's answer is an acknowledgement; it returns [True]
    exactly when the answer is an acknowledgement and the environment lets
    the status refresh that follows return, and then the state is
    [enabled]; on any other answer (no response, an empty or one-byte
    response, another second byte, an exception during the send) it
    returns [False] and the state is unchanged. *)
Theorem set_silent_mode_outcome
    (DASHBOARD_OPEN COMMAND_RESPONSE : Z) (w : env) (s : state) (enabled : bool) :
  (0 <= DASHBOARD_OPEN < 256)%Z ->
  _silent_mode s <> enabled ->
  let command := SendCommand (frame DASHBOARD_OPEN enabled) true in
  let sent := respond w (trace s) command in
  let refreshed :=
    respond w (trace s ++ [Called command None; confirmation enabled]) UpdateStatus in
  let r := set_silent_mode DASHBOARD_OPEN COMMAND_RESPONSE enabled w s in
  exists b,
    r.1 = Val b /\
    (b = true <->
       acknowledged COMMAND_RESPONSE sent = true /\ returns refreshed = true) /\
    (b = true -> _silent_mode r.2 = enabled) /\
    (acknowledged COMMAND_RESPONSE sent = false ->
       b = false /\ _silent_mode r.2 = _silent_mode s) /\
    calls (since s r.2) =
      (command, returns sent) ::
      (if acknowledged COMMAND_RESPONSE sent
       then [(UpdateStatus, returns refreshed)] else []).
Proof.
  intros HDO Hne command sent refreshed r. subst r refreshed sent command.
  unfold set_silent_mode, confirmation.
  cbn [try_except bind get].
  replace (Bool.eqb enabled (_silent_mode s)) with false
    by (symmetry; apply Bool.eqb_false_iff; congruence).
  cbn [bind]. fold (frame DASHBOARD_OPEN enabled). rewrite bytes_frame by done.
  cbn [bind ext].
  destruct (respond w (trace s) (SendCommand (frame DASHBOARD_OPEN enabled) true))
    as [[[|b0 [|b1 rest]]|]|e] eqn:E; simpl.
  1,2,4,5: exists false; erewrite since_app by (simpl; flatten; done);
    repeat split; try done; by intros [? _].
  destruct (b1 =? COMMAND_RESPONSE)%Z eqn:Hb; simpl.
  - destruct (respond w _ UpdateStatus) as [[]|e] eqn:E1; simpl;
      rewrite <- app_assoc in E1; simpl in E1; rewrite E1.
    + exists true. erewrite since_app by (simpl; flatten; done).
      repeat split; done.
    + exists false. erewrite since_app by (simpl; flatten; done).
      repeat split; try done. by intros [_ ?].
  - exists false. erewrite since_app by (simpl; flatten; done).
    repeat split; try done. by intros [? _].
Qed.

(** Sample constants and environments: the dispatcher acknowledges; the
    dispatcher acknowledges but the status refresh fails. *)
Definition acknowledging : env :=
  {| respond := fun _ c =>
       match c return answer (resp c) with
       | SendCommand _ _ => Returns (Some [7%Z; 201%Z])
       | c => Returns (plain c)
       end;
     clock := fun _ => 0%Q |}.

Definition refresh_fails : env :=
  {| respond := fun _ c =>
       match c return answer (resp c) with
       | SendCommand _ _ => Returns (Some [7%Z; 201%Z])
       | UpdateStatus => Raises (Exn "refresh failed")
       | c => Returns (plain c)
       end;
     clock := fun _ => 0%Q |}.

Lemma set_silent_mode_outcome_witness :
  let s := fresh quiet in
  let command := SendCommand (frame 3 true) true in
  let sent := respond acknowledging (trace s) command in
  let refreshed :=
    respond acknowledging (trace s ++ [Called command None; confirmation true])
      UpdateStatus in
  let r := set_silent_mode 3 201 true acknowledging s in
  exists b,
    r.1 = Val b /\
    (b = true <-> acknowledged 201 sent = true /\ returns refreshed = true) /\
    (b = true -> _silent_mode r.2 = true) /\
    (acknowledged 201 sent = false ->
       b = false /\ _silent_mode r.2 = _silent_mode s) /\
    calls (since s r.2) =
      (command, returns sent) ::
      (if acknowledged 201 sent then [(UpdateStatus, returns refreshed)] else []).
Proof.
  apply (set_silent_mode_outcome 3 201 acknowledging (fresh quiet) true).
  - lia.
  - simpl. discriminate.
Defined.

(** C3 as stated does not hold: the dispatcher acknowledges, the status
    refresh raises, and the call returns [False] with the state changed. *)
Lemma set_silent_mode_refresh_raises :
  let s := fresh quiet in
  let r := set_silent_mode 3 201 true refresh_fails s in
  _silent_mode s = false /\
  acknowledged 201 (respond refresh_fails (trace s) (SendCommand (frame 3 true) true))
    = true /\
  r.1 = Val false /\
  _silent_mode r.2 = true.
Proof. vm_compute. done. Qed.

(** A call that returns [True] leaves the state as asked, having sent at
    most once. *)
Lemma set_silent_mode_true DO CR x w s :
  (set_silent_mode DO CR x w s).1 = Val true ->
  _silent_mode (set_silent_mode DO CR x w s).2 = x /\
  (count is_send (since s (set_silent_mode DO CR x w s).2) <= 1)%nat.
Proof.
  destruct (decide (_silent_mode s = x)) as [Hx|Hx].
  { rewrite set_silent_mode_same by done. simpl. intros _.
    split; [done|]. rewrite since_refl. rewrite count_nil. lia. }
  destruct (decide (0 <= DO < 256)%Z) as [HDO|HDO].
  - destruct (set_silent_mode_sends DO CR x w s HDO Hx) as (Hc & H).
    rewrite Hc. intros Hr. split; [|lia].
    destruct (acknowledged CR _).
    + by destruct H.
    + destruct H as (Hf & _). congruence.
  - unfold set_silent_mode. cbn [try_except bind get].
    replace (Bool.eqb x (_silent_mode s)) with false
      by (symmetry; apply Bool.eqb_false_iff; congruence).
    cbn [bind]. unfold bytes. cbn [forallb].
    replace ((0 <=? DO)%Z && (DO <? 256)%Z) with false by (symmetry; lia).
    simpl. discriminate.
Qed.

(** C6, as the code has it.  A call with the state already as asked returns
    [True] and does nothing else: no command is sent, nothing is logged,
    the state is the same.  Hence of two calls in a row with the same
    argument, the first returning [True], the second is such a call and
    the two send at most one command. *)
Theorem set_silent_mode_idempotent
    (DASHBOARD_OPEN COMMAND_RESPONSE : Z) (w : env) (s : state) (x : bool) :
  let r1 := set_silent_mode DASHBOARD_OPEN COMMAND_RESPONSE x w s in
  let r2 := set_silent_mode DASHBOARD_OPEN COMMAND_RESPONSE x w r1.2 in
  (_silent_mode s = x -> r1 = (Val true, s)) /\
  (r1.1 = Val true ->
     r2 = (Val true, r1.2) /\ (count is_send (since s r2.2) <= 1)%nat).
Proof.
  intros r1 r2. split.
  - apply set_silent_mode_same.
  - intros Hr.
    destruct (set_silent_mode_true DASHBOARD_OPEN COMMAND_RESPONSE x w s Hr)
      as (Hx & Hc).
    fold r1 in Hx, Hc. subst r2.
    rewrite set_silent_mode_same by done. done.
Qed.

(** C6 as stated does not hold: when the dispatcher gives no response, the
    first call fails, the state stays, and the second call sends again. *)
Lemma set_silent_mode_sends_twice :
  let s := fresh quiet in
  let r1 := set_silent_mode 3 201 true all_good s in
  let r2 := set_silent_mode 3 201 true all_good r1.2 in
  r1.1 = Val false /\ r2.1 = Val false /\
  count is_send (since s r2.2) = 2%nat.
Proof. vm_compute. done. Qed.

(** ** [discover_glasses]: classification *)

(** The entry a device makes on the left: it has a name that is not empty
    and contains ["_L_"]. *)
Definition as_left (device : BLEDevice) : option glass :=
  match truthy (dev_name device) with
  | Some name => if contains "_L_" name then Some (glass_of device name) else None
  | None => None
  end.

(** The entry a device makes on the right: its name contains ["_R_"], and
    not ["_L_"], which is asked first. *)
Definition as_right (device : BLEDevice) : option glass :=
  match truthy (dev_name device) with
  | Some name =>
      if contains "_R_" name && negb (contains "_L_" name)
      then Some (glass_of device name) else None
  | None => None
  end.

(** One round of the loop, without its log lines. *)
Definition place (discovered : gmap string glass) (device : BLEDevice)
  : gmap string glass :=
  match as_left device, as_right device with
  | Some g, _ => <["left" := g]> discovered
  | None, Some g => <["right" := g]> discovered
  | None, None => discovered
  end.

Lemma classify_place discovered device w s :
  exists new,
    classify discovered device w s
      = (Val (place discovered device),
         {| config := config s; saved := saved s;
            _discovery_cache := _discovery_cache s; _last_scan := _last_scan s;
            _silent_mode := _silent_mode s; trace := trace s ++ new |}) /\
    count is_call new = 0%nat.
Proof.
  unfold classify, place, as_left, as_right.
  destruct (truthy (dev_name device)) as [name|].
  - destruct (contains "_L_" name); simpl.
    + by eexists.
    + destruct (contains "_R_" name); simpl.
      * by eexists.
      * exists []. rewrite app_nil_r. by destruct s.
  - exists []. simpl. rewrite app_nil_r. by destruct s.
Qed.

Lemma for_fold_classify devices discovered w s :
  exists new,
    for_fold devices discovered classify w s
      = (Val (foldl place discovered devices),
         {| config := config s; saved := saved s;
            _discovery_cache := _discovery_cache s; _last_scan := _last_scan s;
            _silent_mode := _silent_mode s; trace := trace s ++ new |}) /\
    count is_call new = 0%nat.
Proof.
  revert discovered s. induction devices as [|device devices IH]; intros discovered s.
  - exists []. simpl. rewrite app_nil_r. by destruct s.
  - cbn [for_fold bind foldl].
    destruct (classify_place discovered device w s) as (n1 & -> & C1).
    destruct (IH (place discovered device)
                {| config := config s; saved := saved s;
                   _discovery_cache := _discovery_cache s;
                   _last_scan := _last_scan s;
                   _silent_mode := _silent_mode s; trace := trace s ++ n1 |})
      as (n2 & -> & C2).
    exists (n1 ++ n2). simpl. rewrite app_assoc, count_app, C1, C2. done.
Qed.

Lemma last_omap_snoc {A B} (f : A -> option B) (l : list A) (x : A) :
  last (omap f (l ++ [x])) =
  match f x with Some y => Some y | None => last (omap f l) end.
Proof.
  rewrite omap_app. simpl. destruct (f x) as [y|].
  - by rewrite last_snoc.
  - by rewrite app_nil_r.
Qed.

Lemma as_left_right device g : as_left device = Some g -> as_right device = None.
Proof.
  unfold as_left, as_right. destruct (truthy (dev_name device)); [|done].
  destruct (contains "_L_" s); [|done]. by rewrite andb_false_r.
Qed.

(** Per key, the last device that makes an entry wins. *)
Lemma foldl_place devices :
  foldl place ∅ devices !! "left" = last (omap as_left devices) /\
  foldl place ∅ devices !! "right" = last (omap as_right devices) /\
  (forall k, k <> "left" -> k <> "right" -> foldl place ∅ devices !! k = None).
Proof.
  induction devices as [|device devices (IHl & IHr & IHo)] using rev_ind.
  - done.
  - rewrite foldl_app, !last_omap_snoc. cbn [foldl]. unfold place at 1 3 5.
    destruct (as_left device) as [g|] eqn:El.
    + rewrite (as_left_right _ _ El), lookup_insert_eq.
      rewrite lookup_insert_ne by discriminate.
      split; [done|]. split; [done|]. intros k Hl Hr.
        rewrite lookup_insert_ne by congruence. by apply IHo.
    + destruct (as_right device) as [g|] eqn:Er.
      * rewrite lookup_insert_eq.
        rewrite lookup_insert_ne by discriminate.
        split; [done|]. split; [done|]. intros k Hl Hr.
        rewrite lookup_insert_ne by congruence. by apply IHo.
      * done.
Qed.

(** C5, as the code has it.  When the scan returns [devices], the result of
    [discover_glasses] (which also becomes the cache) holds under ['left']
    the last device with a non-empty name containing ["_L_"], under
    ['right'] the last device with a non-empty name containing ["_R_"] and
    not ["_L_"], and nothing else: devices without a name, with an empty
    name, or with neither marker make no entry. *)
Theorem discover_glasses_classifies
    (w : env) (s : state) (timeout : Q) (devices : list BLEDevice) :
  respond w (trace s ++ [Logged INFO "Starting glasses discovery..."])
    (Discover timeout) = Returns devices ->
  exists d s',
    discover_glasses timeout w s = (Val d, s') /\
    _discovery_cache s' = d /\
    d !! "left" = last (omap as_left devices) /\
    d !! "right" = last (omap as_right devices) /\
    (forall k, k <> "left" -> k <> "right" -> d !! k = None).
Proof.
  intros Hscan. unfold discover_glasses.
  cbn [try_except bind log modify ext]. cbn [trace emit]. rewrite Hscan.
  destruct (for_fold_classify devices ∅ w
              (emit (Called (Discover timeout) None)
                 (emit (Logged INFO "Starting glasses discovery...") s)))
    as (new & Hrun & _).
  cbn [trace emit config saved _discovery_cache _last_scan _silent_mode] in Hrun |- *.
  rewrite Hrun. cbn [bind loop_time modify ret].
  do 2 eexists. split; [reflexivity|]. split; [done|].
  apply foldl_place.
Qed.

Definition device (name address : string) : BLEDevice :=
  {| dev_name := Some name; dev_address := address; dev_rssi := (-60)%Z |}.

(** A scan that finds the pair of the spec's scenario. *)
Definition two_glasses : env :=
  {| respond := fun _ c =>
       match c return answer (resp c) with
       | Discover _ => Returns [device "G1_L_42" "AA"; device "G1_R_42" "BB"]
       | c => Returns (plain c)
       end;
     clock := fun _ => 0%Q |}.

(** A scan that finds one device whose name has both markers. *)
Definition both_markers : env :=
  {| respond := fun _ c =>
       match c return answer (resp c) with
       | Discover _ => Returns [device "G1_L_R_42" "AA"]
       | c => Returns (plain c)
       end;
     clock := fun _ => 0%Q |}.

Lemma discover_glasses_classifies_witness :
  exists d s',
    discover_glasses 15 two_glasses (fresh quiet) = (Val d, s') /\
    _discovery_cache s' = d /\
    d !! "left" = last (omap as_left [device "G1_L_42" "AA"; device "G1_R_42" "BB"]) /\
    d !! "right" = last (omap as_right [device "G1_L_42" "AA"; device "G1_R_42" "BB"]) /\
    (forall k, k <> "left" -> k <> "right" -> d !! k = None).
Proof.
  apply (discover_glasses_classifies two_glasses (fresh quiet) 15
           [device "G1_L_42" "AA"; device "G1_R_42" "BB"]).
  reflexivity.
Defined.

(** The scenario of the spec: left is the device at AA, right the one at BB. *)
Example discover_glasses_scenario :
  match (discover_glasses 15 two_glasses (fresh quiet)).1 with
  | Val d =>
      g_address <$> d !! "left" = Some "AA" /\
      g_address <$> d !! "right" = Some "BB"
  | Exc _ => False
  end.
Proof. vm_compute. done. Qed.

(** C5 as stated does not hold: a device whose name contains ["_R_"] is not
    classified right when the name contains ["_L_"] as well; it is taken
    for the left one, and the result has no right side. *)
Lemma discover_glasses_both_markers :
  contains "_R_" "G1_L_R_42" = true /\
  match (discover_glasses 15 both_markers (fresh quiet)).1 with
  | Val d =>
      d !! "right" = None /\
      g_name <$> d !! "left" = Some "G1_L_R_42"
  | Exc _ => False
  end.
Proof. vm_compute. done. Qed.

(** ** No exception leaves a public operation *)

(** Every exception raised by a call has been followed up by a warning or
    an error in the log. *)
Definition accounted (t : list event) : Prop :=
  (0 < count is_raise t)%nat -> (0 < count is_report t)%nat.

(** [tidy m]: [m] only appends to the trace, and if it returns, what it
    appended is accounted for. *)
Definition tidy {A} (m : M A) : Prop :=
  forall w s, exists new,
    trace (m w s).2 = trace s ++ new /\
    ((exists a, (m w s).1 = Val a) -> accounted new).

(** [reporting m], for exception handlers: [m] only appends to the trace,
    and if it returns, it has logged a warning or an error. *)
Definition reporting {A} (m : M A) : Prop :=
  forall w s, exists new,
    trace (m w s).2 = trace s ++ new /\
    ((exists a, (m w s).1 = Val a) -> (0 < count is_report new)%nat).

(** [safe m], for public operations: [m] returns, whatever the environment
    does, and what it appended to the trace is accounted for. *)
Definition safe {A} (m : M A) : Prop :=
  forall w s, exists a new,
    (m w s).1 = Val a /\
    trace (m w s).2 = trace s ++ new /\
    accounted new.

Lemma accounted_app t1 t2 : accounted t1 -> accounted t2 -> accounted (t1 ++ t2).
Proof. unfold accounted. rewrite !count_app. lia. Qed.

Lemma accounted_reported t1 t2 :
  (0 < count is_report t2)%nat -> accounted (t1 ++ t2).
Proof. unfold accounted. rewrite !count_app. lia. Qed.

Lemma accounted_quiet t : count is_raise t = 0%nat -> accounted t.
Proof. unfold accounted. lia. Qed.

Lemma safe_tidy {A} (m : M A) : safe m -> tidy m.
Proof. intros H w s. destruct (H w s) as (a & new & _ & E & Hacc). eauto. Qed.

Lemma tidy_silent {A} (m : M A) :
  (forall w s, trace (m w s).2 = trace s) -> tidy m.
Proof.
  intros H w s. exists []. rewrite H, app_nil_r. split; [done|].
  intros _. by apply accounted_quiet.
Qed.

Lemma tidy_ret {A} (a : A) : tidy (ret a).
Proof. by apply tidy_silent. Qed.

Lemma tidy_raise {A} (e : exn) : tidy (@raise A e).
Proof. by apply tidy_silent. Qed.

Lemma tidy_get {A} (f : state -> A) : tidy (get f).
Proof. by apply tidy_silent. Qed.

Lemma tidy_loop_time : tidy loop_time.
Proof. by apply tidy_silent. Qed.

Lemma tidy_modify (f : state -> state) :
  (forall s, trace (f s) = trace s) -> tidy (modify f).
Proof. intros H. apply tidy_silent. intros w s. apply H. Qed.

Lemma tidy_log lvl msg : tidy (log lvl msg).
Proof.
  intros w s. exists [Logged lvl msg]. split; [done|].
  intros _. by apply accounted_quiet.
Qed.

Lemma tidy_print msg : tidy (console_print msg).
Proof.
  intros w s. exists [Printed msg]. split; [done|].
  intros _. by apply accounted_quiet.
Qed.

Lemma tidy_ext c : tidy (ext c).
Proof.
  intros w s. simpl. destruct (respond w (trace s) c); simpl.
  - eexists. split; [done|]. intros _. by apply accounted_quiet.
  - eexists. split; [done|]. by intros [? ?].
Qed.

Lemma tidy_bind {A B} (m : M A) (k : A -> M B) :
  tidy m -> (forall a, tidy (k a)) -> tidy (bind m k).
Proof.
  intros Hm Hk w s. simpl. destruct (Hm w s) as (n1 & E1 & A1).
  destruct (m w s) as [[a|e] s1]; simpl in *.
  - destruct (Hk a w s1) as (n2 & E2 & A2).
    exists (n1 ++ n2). rewrite E2, E1, app_assoc. split; [done|].
    intros Hv. apply accounted_app; eauto.
  - exists n1. split; [done|]. by intros [? ?].
Qed.

Lemma tidy_try {A} (m : M A) (h : exn -> M A) :
  tidy m -> (forall e, reporting (h e)) -> tidy (try_except m h).
Proof.
  intros Hm Hh w s. simpl. destruct (Hm w s) as (n1 & E1 & A1).
  destruct (m w s) as [[a|e] s1]; simpl in *.
  - exists n1. split; [done|]. eauto.
  - destruct (Hh e w s1) as (n2 & E2 & A2).
    exists (n1 ++ n2). rewrite E2, E1, app_assoc. split; [done|].
    intros Hv. apply accounted_reported. auto.
Qed.

Lemma tidy_for_each {A B} (xs : list A) (body : A -> M (option B)) :
  (forall x, tidy (body x)) -> tidy (for_each xs body).
Proof.
  intros Hb. induction xs as [|x xs IH]; simpl.
  - apply tidy_ret.
  - apply tidy_bind; [done|]. intros [r|]; [apply tidy_ret | done].
Qed.

Lemma tidy_for_fold {A S} (xs : list A) (acc : S) (body : S -> A -> M S) :
  (forall acc x, tidy (body acc x)) -> tidy (for_fold xs acc body).
Proof.
  intros Hb. revert acc. induction xs as [|x xs IH]; intros acc; simpl.
  - apply tidy_ret.
  - apply tidy_bind; [done|]. intros acc'. apply IH.
Qed.

Lemma tidy_save : tidy config_save.
Proof. apply tidy_bind; [apply tidy_ext|]. intros _. by apply tidy_modify. Qed.

(** A handler that starts by logging a warning or an error. *)
Lemma reporting_log {A} lvl msg (k : M A) :
  is_report (Logged lvl msg) = true ->
  adding (fun _ => True) anything k ->
  reporting (log lvl msg ;; k).
Proof.
  intros Hr Hk w s. simpl.
  destruct (Hk w (emit (Logged lvl msg) s)) as (new & E & _).
  exists (Logged lvl msg :: new). simpl in E. rewrite E. flatten.
  split; [done|]. intros _. rewrite count_cons.
  destruct lvl; simpl in *; (lia || discriminate).
Qed.

(** A public operation: a [try] whose handler logs and returns. *)
Lemma safe_try {A} (m : M A) (h : exn -> M A) :
  tidy m ->
  (forall e w s, exists lvl msg a,
     is_report (Logged lvl msg) = true /\
     h e w s = (Val a, emit (Logged lvl msg) s)) ->
  safe (try_except m h).
Proof.
  intros Hm Hh w s. simpl. destruct (Hm w s) as (n1 & E1 & A1).
  destruct (m w s) as [[a|e] s1]; simpl in *.
  - exists a, n1. eauto.
  - destruct (Hh e w s1) as (lvl & msg & a & Hr & ->). simpl.
    exists a, (n1 ++ [Logged lvl msg]). rewrite E1, app_assoc.
    split; [done|]. split; [done|].
    apply accounted_reported. rewrite count_cons.
    destruct lvl; simpl in *; (lia || discriminate).
Qed.

Ltac tidy_step :=
  match goal with
  | |- tidy (bind _ _) => apply tidy_bind; [|intros ?]
  | |- tidy (try_except _ _) => apply tidy_try; [|intros ?]
  | |- tidy (for_each _ _) => apply tidy_for_each; intros ?
  | |- tidy (for_fold _ _ _) => apply tidy_for_fold; intros ? ?
  | |- tidy (ret _) => apply tidy_ret
  | |- tidy (raise _) => apply tidy_raise
  | |- tidy (get _) => apply tidy_get
  | |- tidy loop_time => apply tidy_loop_time
  | |- tidy (modify _) => apply tidy_modify; intros ?; reflexivity
  | |- tidy (log _ _) => apply tidy_log
  | |- tidy (console_print _) => apply tidy_print
  | |- tidy (ext _) => apply tidy_ext
  | |- tidy config_save => apply tidy_save
  | |- tidy (if ?b then _ else _) => destruct b
  | |- tidy (match ?x with _ => _ end) => destruct x
  | |- tidy (let '(_, _) := ?x in _) => destruct x
  | |- reporting (bind (log _ _) _) =>
      apply reporting_log; [reflexivity | adding_walk]
  end.

Ltac tidy_walk := repeat tidy_step.

(** The handler at the boundary logs an error and returns. *)
Ltac boundary :=
  intros ? ? ?; do 3 eexists; split; [|reflexivity]; reflexivity.

Lemma safe_discover_glasses timeout : safe (discover_glasses timeout).
Proof.
  unfold discover_glasses. apply safe_try; [|boundary].
  unfold classify. tidy_walk.
Qed.

Lemma safe_attempt_pairing address glass_name max_attempts :
  safe (_attempt_pairing address glass_name max_attempts).
Proof.
  unfold _attempt_pairing. apply safe_try; [|boundary].
  unfold attempt_step, attempt_body, attempt_failed. tidy_walk.
Qed.

Lemma safe_pair_glasses : safe pair_glasses.
Proof.
  unfold pair_glasses. apply safe_try; [|boundary].
  unfold need_scan, pair_discovered. tidy_walk.
  all: try (apply safe_tidy, safe_discover_glasses).
  all: apply safe_tidy, safe_attempt_pairing.
Qed.

Lemma safe_verify_pairing : safe verify_pairing.
Proof.
  unfold verify_pairing. apply safe_try; [|boundary].
  unfold first_time_pairing, probe, probe_and_pair. tidy_walk.
Qed.

Lemma safe_unpair_glasses : safe unpair_glasses.
Proof.
  unfold unpair_glasses. apply safe_try; [|boundary]. tidy_walk.
Qed.

Lemma safe_set_silent_mode DO CR enabled : safe (set_silent_mode DO CR enabled).
Proof.
  unfold set_silent_mode. apply safe_try; [|boundary].
  unfold bytes, second_byte. tidy_walk.
Qed.

(** ** Cancellation and the boundary *)

Arguments Task.bind {A B} m k cancel w s /.
Arguments Task.ret {A} a cancel w s /.
Arguments Task.try_except {A} m h cancel w s /.
Arguments Task.lift {A} m cancel w s /.
Arguments Task.await c cancel w s /.
Arguments Task.widen {A} r /.

(** The task was cancelled at an await it had reached. *)
Definition cancelled_at (cancel : Task.schedule) (t : list event) : Prop :=
  exists c, Task.is_await c = true /\ cancel t c = true.

(** [orderly m]: [m] only appends to the trace; unless it ends in an
    [Exception], what it appended is accounted for; and it ends cancelled
    only where the schedule cancels. *)
Definition orderly {A} (m : Task.T A) : Prop :=
  forall cancel w s, exists new,
    trace (m cancel w s).2 = trace s ++ new /\
    match (m cancel w s).1 with
    | Task.Value _ => accounted new
    | Task.Raised _ => True
    | Task.Cancelled => accounted new /\ cancelled_at cancel (trace s ++ new)
    end.

(** [announcing m], for exception handlers: [m] only appends to the
    trace, starting with a warning or an error, and ends cancelled only
    where the schedule cancels. *)
Definition announcing {A} (m : Task.T A) : Prop :=
  forall cancel w s, exists new,
    trace (m cancel w s).2 = trace s ++ new /\
    (0 < count is_report new)%nat /\
    match (m cancel w s).1 with
    | Task.Cancelled => cancelled_at cancel (trace s ++ new)
    | _ => True
    end.

(** [contained m], for public operations: no [Exception] leaves [m];
    [m] returns, or ends cancelled where the schedule cancels; and what it
    appended to the trace is accounted for. *)
Definition contained {A} (m : Task.T A) : Prop :=
  forall cancel w s, exists new,
    trace (m cancel w s).2 = trace s ++ new /\
    accounted new /\
    match (m cancel w s).1 with
    | Task.Value _ => True
    | Task.Raised _ => False
    | Task.Cancelled => cancelled_at cancel (trace s ++ new)
    end.

Lemma contained_orderly {A} (m : Task.T A) : contained m -> orderly m.
Proof.
  intros H cancel w s. destruct (H cancel w s) as (new & E & Hacc & Hr).
  exists new. split; [done|]. by destruct (m cancel w s).1.
Qed.

Lemma orderly_lift {A} (m : M A) : tidy m -> orderly (Task.lift m).
Proof.
  intros H cancel w s. destruct (H w s) as (new & E & Hacc).
  exists new. simpl. destruct (m w s) as [[a|e] s1]; simpl in *.
  - split; [done|]. eauto.
  - done.
Qed.

Lemma orderly_ret {A} (a : A) : orderly (Task.ret a).
Proof.
  intros cancel w s. exists []. simpl. rewrite app_nil_r. split; [done|].
  by apply accounted_quiet.
Qed.

Lemma orderly_await c : orderly (Task.await c).
Proof.
  intros cancel w s. simpl.
  destruct (Task.is_await c && cancel (trace s) c) eqn:Hc.
  - exists []. simpl. rewrite app_nil_r. split; [done|].
    split; [by apply accounted_quiet|]. exists c. by apply andb_true_iff in Hc.
  - apply (orderly_lift (ext c) (tidy_ext c) cancel w s).
Qed.

Lemma orderly_bind {A B} (m : Task.T A) (k : A -> Task.T B) :
  orderly m -> (forall a, orderly (k a)) -> orderly (Task.bind m k).
Proof.
  intros Hm Hk cancel w s. simpl. destruct (Hm cancel w s) as (n1 & E1 & H1).
  destruct (m cancel w s) as [[a|e|] s1]; simpl in *.
  - destruct (Hk a cancel w s1) as (n2 & E2 & H2).
    exists (n1 ++ n2). rewrite E2, E1, app_assoc. split; [done|].
    rewrite E1 in H2.
    destruct (k a cancel w s1).1; [by apply accounted_app|done|].
    destruct H2 as [? ?]. split; [by apply accounted_app|done].
  - by exists n1.
  - by exists n1.
Qed.

Lemma orderly_try {A} (m : Task.T A) (h : exn -> Task.T A) :
  orderly m -> (forall e, announcing (h e)) -> orderly (Task.try_except m h).
Proof.
  intros Hm Hh cancel w s. simpl. destruct (Hm cancel w s) as (n1 & E1 & H1).
  destruct (m cancel w s) as [[a|e|] s1]; simpl in *.
  - by exists n1.
  - destruct (Hh e cancel w s1) as (n2 & E2 & R2 & H2).
    exists (n1 ++ n2). rewrite E2, E1, app_assoc. split; [done|].
    rewrite E1 in H2.
    destruct (h e cancel w s1).1; [by apply accounted_reported|done|].
    split; [by apply accounted_reported|done].
  - by exists n1.
Qed.

Lemma orderly_for_each {A B} (xs : list A) (body : A -> Task.T (option B)) :
  (forall x, orderly (body x)) -> orderly (Task.for_each xs body).
Proof.
  intros Hb. induction xs as [|x xs IH]; simpl.
  - apply orderly_ret.
  - apply orderly_bind; [done|]. intros [r|]; [apply orderly_ret | done].
Qed.

(** A handler that starts by logging a warning or an error. *)
Lemma announcing_log {A} lvl msg (k : Task.T A) :
  is_report (Logged lvl msg) = true ->
  orderly k ->
  announcing (Task.bind (Task.log lvl msg) (fun _ => k)).
Proof.
  intros Hr Hk cancel w s. simpl.
  destruct (Hk cancel w (emit (Logged lvl msg) s)) as (new & E & H).
  exists (Logged lvl msg :: new). simpl in E, H. rewrite E. flatten.
  split; [done|]. split.
  { rewrite count_cons. destruct lvl; simpl in *; (lia || discriminate). }
  destruct (k cancel w _).1; [done..|].
  destruct H as [_ H]. by rewrite <- app_assoc in H.
Qed.

(** A public operation: a [try] whose handler logs and returns. *)
Lemma contained_try {A} (m : Task.T A) (h : exn -> Task.T A) :
  orderly m ->
  (forall e cancel w s, exists lvl msg a,
     is_report (Logged lvl msg) = true /\
     h e cancel w s = (Task.Value a, emit (Logged lvl msg) s)) ->
  contained (Task.try_except m h).
Proof.
  intros Hm Hh cancel w s. simpl. destruct (Hm cancel w s) as (n1 & E1 & H1).
  destruct (m cancel w s) as [[a|e|] s1]; simpl in *.
  - by exists n1.
  - destruct (Hh e cancel w s1) as (lvl & msg & a & Hr & ->). simpl.
    exists (n1 ++ [Logged lvl msg]). rewrite E1, app_assoc.
    split; [done|]. split; [|done].
    apply accounted_reported. rewrite count_cons.
    destruct lvl; simpl in *; (lia || discriminate).
  - exists n1. by destruct H1.
Qed.

Ltac orderly_step :=
  match goal with
  | |- orderly (Task.bind _ _) => apply orderly_bind; [|intros ?]
  | |- orderly (Task.try_except _ _) => apply orderly_try; [|intros ?]
  | |- orderly (Task.for_each _ _) => apply orderly_for_each; intros ?
  | |- orderly (Task.ret _) => apply orderly_ret
  | |- orderly (Task.await _) => apply orderly_await
  | |- orderly (Task.lift _) => apply orderly_lift; tidy_walk
  | |- orderly (if ?b then _ else _) => destruct b
  | |- orderly (match ?x with _ => _ end) => destruct x
  | |- orderly (let '(_, _) := ?x in _) => destruct x
  | |- announcing (Task.bind (Task.log _ _) _) =>
      apply announcing_log; [reflexivity|]
  end.

Ltac orderly_walk :=
  repeat first
    [ orderly_step
    | progress unfold Task.ext, Task.get, Task.modify, Task.log,
                      Task.console_print, Task.config_save ].

Ltac task_boundary :=
  intros ? ? ? ?; do 3 eexists; split; [|reflexivity]; reflexivity.

Lemma contained_discover_glasses timeout :
  contained (Task.PairingManager.discover_glasses timeout).
Proof.
  unfold Task.PairingManager.discover_glasses. apply contained_try; [|task_boundary].
  unfold classify. orderly_walk.
Qed.

Lemma contained_attempt_pairing address glass_name max_attempts :
  contained (Task.PairingManager._attempt_pairing address glass_name max_attempts).
Proof.
  unfold Task.PairingManager._attempt_pairing. apply contained_try; [|task_boundary].
  unfold Task.PairingManager.attempt_step, Task.PairingManager.attempt_body,
    Task.PairingManager.attempt_failed.
  orderly_walk.
Qed.

Lemma contained_pair_glasses : contained Task.PairingManager.pair_glasses.
Proof.
  unfold Task.PairingManager.pair_glasses. apply contained_try; [|task_boundary].
  unfold need_scan, Task.PairingManager.pair_discovered. orderly_walk.
  all: try (apply contained_orderly, contained_discover_glasses).
  all: apply contained_orderly, contained_attempt_pairing.
Qed.

Lemma contained_verify_pairing : contained Task.PairingManager.verify_pairing.
Proof.
  unfold Task.PairingManager.verify_pairing. apply contained_try; [|task_boundary].
  unfold Task.PairingManager.first_time_pairing, Task.PairingManager.probe,
    Task.PairingManager.probe_and_pair.
  orderly_walk.
Qed.

Lemma contained_unpair_glasses : contained Task.PairingManager.unpair_glasses.
Proof.
  intros cancel w s. destruct (safe_unpair_glasses w s) as (a & new & Hr & E & Hacc).
  exists new. unfold Task.PairingManager.unpair_glasses, Task.lift.
  destruct (unpair_glasses w s) as [r s1]. simpl in *. by subst r.
Qed.

Lemma contained_set_silent_mode DO CR enabled :
  contained (Task.DeviceManager.set_silent_mode DO CR enabled).
Proof.
  unfold Task.DeviceManager.set_silent_mode. apply contained_try; [|task_boundary].
  unfold bytes, second_byte. orderly_walk.
Qed.

(** ** A task that is not cancelled *)

(** [agree m t]: on a task that is never cancelled, [t] is [m]. *)
Definition agree {A} (m : M A) (t : Task.T A) : Prop :=
  forall w s, t Task.never w s = Task.widen (m w s).

Lemma agree_lift {A} (m : M A) : agree m (Task.lift m).
Proof. done. Qed.

Lemma agree_ret {A} (a : A) : agree (ret a) (Task.ret a).
Proof. done. Qed.

Lemma agree_await c : agree (ext c) (Task.await c).
Proof.
  intros w s. unfold Task.await, Task.never. by rewrite andb_false_r.
Qed.

Lemma agree_bind {A B} (m : M A) (k : A -> M B) t k' :
  agree m t -> (forall a, agree (k a) (k' a)) -> agree (bind m k) (Task.bind t k').
Proof.
  intros Hm Hk w s. simpl. rewrite Hm.
  destruct (m w s) as [[a|e] s1]; simpl; [apply Hk|done].
Qed.

Lemma agree_try {A} (m : M A) (h : exn -> M A) t h' :
  agree m t -> (forall e, agree (h e) (h' e)) ->
  agree (try_except m h) (Task.try_except t h').
Proof.
  intros Hm Hh w s. simpl. rewrite Hm.
  destruct (m w s) as [[a|e] s1]; simpl; [done|apply Hh].
Qed.

Lemma agree_for_each {A B} (xs : list A) (body : A -> M (option B)) body' :
  (forall x, agree (body x) (body' x)) ->
  agree (for_each xs body) (Task.for_each xs body').
Proof.
  intros Hb. induction xs as [|x xs IH]; simpl.
  - apply agree_ret.
  - apply agree_bind; [done|]. intros [r|]; [apply agree_ret | done].
Qed.

Ltac agree_step :=
  match goal with
  | |- agree (bind _ _) (Task.bind _ _) => apply agree_bind; [|intros ?]
  | |- agree (try_except _ _) (Task.try_except _ _) => apply agree_try; [|intros ?]
  | |- agree (for_each _ _) (Task.for_each _ _) => apply agree_for_each; intros ?
  | |- agree (ret _) (Task.ret _) => apply agree_ret
  | |- agree (ext _) (Task.await _) => apply agree_await
  | |- agree _ (Task.lift _) => apply agree_lift
  | |- agree (if ?b then _ else _) _ => destruct b
  | |- agree (match ?x with _ => _ end) _ => destruct x
  | |- agree (let '(_, _) := ?x in _) _ => destruct x
  end.

Ltac agree_walk :=
  repeat first
    [ agree_step
    | progress unfold Task.ext, Task.get, Task.modify, Task.log,
                      Task.console_print, Task.config_save ].

Lemma agree_discover_glasses timeout :
  agree (discover_glasses timeout) (Task.PairingManager.discover_glasses timeout).
Proof.
  unfold discover_glasses, Task.PairingManager.discover_glasses. agree_walk.
Qed.

Lemma agree_attempt_pairing address glass_name max_attempts :
  agree (_attempt_pairing address glass_name max_attempts)
        (Task.PairingManager._attempt_pairing address glass_name max_attempts).
Proof.
  unfold _attempt_pairing, attempt_step, attempt_body, attempt_failed,
    Task.PairingManager._attempt_pairing, Task.PairingManager.attempt_step,
    Task.PairingManager.attempt_body, Task.PairingManager.attempt_failed.
  agree_walk.
Qed.

Lemma agree_pair_glasses : agree pair_glasses Task.PairingManager.pair_glasses.
Proof.
  unfold pair_glasses, pair_discovered, Task.PairingManager.pair_glasses,
    Task.PairingManager.pair_discovered.
  agree_walk.
  all: try apply agree_discover_glasses.
  all: apply agree_attempt_pairing.
Qed.

Lemma agree_verify_pairing : agree verify_pairing Task.PairingManager.verify_pairing.
Proof.
  unfold verify_pairing, first_time_pairing, probe, probe_and_pair,
    Task.PairingManager.verify_pairing, Task.PairingManager.first_time_pairing,
    Task.PairingManager.probe, Task.PairingManager.probe_and_pair.
  agree_walk.
Qed.

Lemma agree_set_silent_mode DO CR enabled :
  agree (set_silent_mode DO CR enabled)
        (Task.DeviceManager.set_silent_mode DO CR enabled).
Proof.
  unfold set_silent_mode, Task.DeviceManager.set_silent_mode. agree_walk.
Qed.

(** [guarded m t]: [t] is the operation [m] on a task that can be
    cancelled, and no [Exception] leaves it; [m], the operation on a task
    that is not cancelled, always returns. *)
Definition guarded {A} (m : M A) (t : Task.T A) : Prop :=
  agree m t /\ contained t /\ safe m.

(** C8, as the code has it: no [Exception] leaves [discover_glasses],
    [pair_glasses], [verify_pairing], [unpair_glasses] or
    [set_silent_mode].  On a task that can be cancelled, each of them, in
    every environment, under every schedule and from every state, returns
    a value (a dict, a boolean, [None]) or ends in [CancelledError] at an
    await where the schedule cancels; whenever a call it made raised, a
    warning or an error is in the log it wrote; and on a task that is
    never cancelled it is the operation of the sections above, which
    therefore always returns. *)
Theorem no_exception_crosses_boundary (DASHBOARD_OPEN COMMAND_RESPONSE : Z) :
  (forall timeout,
     guarded (discover_glasses timeout)
             (Task.PairingManager.discover_glasses timeout)) /\
  guarded pair_glasses Task.PairingManager.pair_glasses /\
  guarded verify_pairing Task.PairingManager.verify_pairing /\
  guarded unpair_glasses Task.PairingManager.unpair_glasses /\
  (forall enabled,
     guarded (set_silent_mode DASHBOARD_OPEN COMMAND_RESPONSE enabled)
             (Task.DeviceManager.set_silent_mode DASHBOARD_OPEN COMMAND_RESPONSE
                enabled)).
Proof.
  split.
  { intros timeout. split; [apply agree_discover_glasses|].
    split; [apply contained_discover_glasses|apply safe_discover_glasses]. }
  split.
  { split; [apply agree_pair_glasses|].
    split; [apply contained_pair_glasses|apply safe_pair_glasses]. }
  split.
  { split; [apply agree_verify_pairing|].
    split; [apply contained_verify_pairing|apply safe_verify_pairing]. }
  split.
  { split; [apply agree_lift|].
    split; [apply contained_unpair_glasses|apply safe_unpair_glasses]. }
  intros enabled. split; [apply agree_set_silent_mode|].
  split; [apply contained_set_silent_mode|apply safe_set_silent_mode].
Qed.

(** The event loop cancels the task while it waits for the scan; while it
    waits for the status refresh. *)
Definition scan_cancelled : Task.schedule :=
  fun _ c => match c with Discover _ => true | _ => false end.

Definition refresh_cancelled : Task.schedule :=
  fun _ c => match c with UpdateStatus => true | _ => false end.

(** C8 as stated does not hold: cancelled while it waits for the scan,
    [discover_glasses] ends in [CancelledError] with nothing but its first
    line logged; cancelled while it waits for the status refresh,
    [set_silent_mode] ends in [CancelledError] with the state changed and
    no warning or error logged. *)
Lemma cancellation_crosses_boundary :
  (let r := Task.PairingManager.discover_glasses 15 scan_cancelled all_good
              (fresh quiet) in
   r.1 = Task.Cancelled /\
   trace r.2 = [Logged INFO "Starting glasses discovery..."]) /\
  (let r := Task.DeviceManager.set_silent_mode 3 201 true refresh_cancelled
              acknowledging (fresh quiet) in
   r.1 = Task.Cancelled /\
   _silent_mode r.2 = true /\
   count is_report (trace r.2) = 0%nat).
Proof. vm_compute. done. Qed.

(** * Further properties *)

(** ** [discover_glasses]: what it touches *)

Lemma calls_quiet (t : list event) : count is_call t = 0%nat -> calls t = [].
Proof.
  induction t as [|ev t IH]; [done|].
  rewrite count_cons. destruct ev as [c [e|]| |]; simpl; intros H; try lia; auto.
Qed.

Lemma discover_glasses_run (w : env) (s : state) (timeout : Q) :
  exists d s' ok,
    discover_glasses timeout w s = (Val d, s') /\
    calls (since s s') = [(Discover timeout, ok)] /\
    config s' = config s /\ saved s' = saved s /\
    _silent_mode s' = _silent_mode s /\
    (if ok : bool
     then _discovery_cache s' = d /\ _last_scan s' = clock w (trace s')
     else d = ∅ /\
          _discovery_cache s' = _discovery_cache s /\
          _last_scan s' = _last_scan s).
Proof.
  unfold discover_glasses. cbn [try_except bind log modify ext].
  cbn [trace emit].
  destruct (respond w (trace s ++ [Logged INFO "Starting glasses discovery..."])
              (Discover timeout)) as [devices|e] eqn:Hscan.
  - destruct (for_fold_classify devices ∅ w
                (emit (Called (Discover timeout) None)
                   (emit (Logged INFO "Starting glasses discovery...") s)))
      as (new & Hrun & Hnew).
    cbn [trace emit config saved _discovery_cache _last_scan _silent_mode]
      in Hrun |- *.
    rewrite Hrun. cbn [bind loop_time modify ret].
    exists (foldl place ∅ devices). eexists. exists true.
    split; [reflexivity|]. cbn [config saved _discovery_cache _last_scan
                               _silent_mode trace with_cache].
    split; [|done].
    erewrite since_app by (simpl; flatten; reflexivity).
    unfold calls. cbn [omap list_omap]. fold (calls new).
    by rewrite (calls_quiet new Hnew).
  - exists ∅. eexists. exists false. split; [reflexivity|]. simpl.
    split; [|done].
    erewrite since_app by (simpl; flatten; reflexivity). done.
Qed.

(** [discover_glasses] makes one external call, the scan with the given
    timeout, and never raises.  It leaves the config object, the store and
    the silent-mode flag alone.  If the scan returns, the result becomes
    the cache and the timestamp is the clock's reading; if the scan raises,
    the result is empty and cache and timestamp stay as they were. *)
Theorem discover_glasses_effects (w : env) (s : state) (timeout : Q) :
  exists d s' ok,
    discover_glasses timeout w s = (Val d, s') /\
    calls (since s s') = [(Discover timeout, ok)] /\
    config s' = config s /\ saved s' = saved s /\
    _silent_mode s' = _silent_mode s /\
    (if ok : bool
     then _discovery_cache s' = d /\ _last_scan s' = clock w (trace s')
     else d = ∅ /\
          _discovery_cache s' = _discovery_cache s /\
          _last_scan s' = _last_scan s).
Proof. apply discover_glasses_run. Qed.

(** ** [_attempt_pairing]: what it commits, how long it waits, whom it
    contacts *)

(** What a run of attempts did to the config object and the store: either
    no save returned, the store is as before and the config object at most
    has the side's flag set; or both are the old config object with the
    side's flag set. *)
Definition committed (is_left : bool) (s s' : state) (new : list event) : Prop :=
  (count is_saved new = 0%nat /\ saved s' = saved s /\
   (config s' = config s \/ config s' = set_paired is_left (config s))) \/
  ((0 < count is_saved new)%nat /\
   saved s' = set_paired is_left (config s) /\
   config s' = set_paired is_left (config s)).

Lemma set_paired_twice is_left c :
  set_paired is_left (set_paired is_left c) = set_paired is_left c.
Proof. by destruct is_left. Qed.

Lemma committed_trans is_left s s1 s2 n1 n2 :
  committed is_left s s1 n1 -> committed is_left s1 s2 n2 ->
  committed is_left s s2 (n1 ++ n2).
Proof.
  unfold committed. rewrite count_app.
  intros [(C1 & S1 & K1) | (C1 & S1 & K1)] [(C2 & S2 & K2) | (C2 & S2 & K2)].
  - left. split; [lia|]. split; [congruence|].
    destruct K1 as [K1|K1], K2 as [K2|K2]; rewrite K2, K1, ?set_paired_twice; auto.
  - right. split; [lia|].
    destruct K1 as [K1|K1]; rewrite S2, K2, K1, ?set_paired_twice; auto.
  - right. split; [lia|]. rewrite S2, S1. split; [done|].
    destruct K2 as [K2|K2]; rewrite K2, K1, ?set_paired_twice; auto.
  - right. split; [lia|]. rewrite S2, K2, K1, ?set_paired_twice. auto.
Qed.

Lemma attempt_step_effects address glass_name is_left max_attempts attempt w s :
  exists new,
    trace (attempt_step address glass_name is_left max_attempts attempt w s).2
      = trace s ++ new /\
    committed is_left s
      (attempt_step address glass_name is_left max_attempts attempt w s).2 new /\
    (count is_retry_wait new <= if (attempt <? max_attempts)%nat then 1 else 0)%nat /\
    (forall b,
       (attempt_step address glass_name is_left max_attempts attempt w s).1
         = Val (Some b) ->
       (0 < count is_saved new)%nat).
Proof.
  unfold attempt_step, attempt_body, attempt_failed, committed.
  simpl.
  destruct (attempt <? max_attempts)%nat; simpl;
    repeat first
      [ answer
      | match goal with
        | |- context [if ?b then _ else _] => is_var b; destruct b; simpl
        end ].
  all: eexists; (split; [flatten; reflexivity|]).
  all: split;
    [ first [ left; split; [tally|]; split; [reflexivity|]; (by left) || (by right)
            | right; split; [tally|]; split; reflexivity ]
    | split; [tally | intros b Hb; first [discriminate Hb | tally]] ].
Qed.

(** How many of the attempts [xs] are followed by a wait. *)
Definition retries (max_attempts : nat) (xs : list nat) : nat :=
  length (filter (fun attempt => (attempt < max_attempts)%nat) xs).

Lemma retries_seq max_attempts start len :
  (retries max_attempts (seq start len) <= max_attempts - start)%nat.
Proof.
  unfold retries. revert start. induction len as [|len IH]; intros start; simpl.
  - lia.
  - rewrite filter_cons. specialize (IH (S start)).
    destruct (decide (start < max_attempts)%nat); simpl; lia.
Qed.

Lemma attempts_effects address glass_name is_left max_attempts xs w s :
  exists new,
    trace (for_each xs (attempt_step address glass_name is_left max_attempts) w s).2
      = trace s ++ new /\
    committed is_left s
      (for_each xs (attempt_step address glass_name is_left max_attempts) w s).2
      new /\
    (count is_retry_wait new <= retries max_attempts xs)%nat /\
    (forall b,
       (for_each xs (attempt_step address glass_name is_left max_attempts) w s).1
         = Val (Some b) ->
       (0 < count is_saved new)%nat).
Proof.
  revert s. induction xs as [|x xs IH]; intros s.
  - exists []. simpl. rewrite app_nil_r. split; [done|].
    split; [left; by auto|]. split; [rewrite count_nil; lia | done].
  - cbn [for_each bind].
    destruct (attempt_step_effects address glass_name is_left max_attempts x w s)
      as (n1 & E1 & C1 & W1 & V1).
    assert (retries max_attempts (x :: xs) =
            ((if (x <? max_attempts)%nat then 1 else 0)
             + retries max_attempts xs)%nat) as Hre.
    { unfold retries. rewrite filter_cons.
      destruct (decide (x < max_attempts)%nat) as [H|H].
      - apply Nat.ltb_lt in H as ->. done.
      - apply Nat.ltb_nlt in H as ->. done. }
    destruct (attempt_step address glass_name is_left max_attempts x w s)
      as [[[b|]|e] s1]; simpl in E1, C1, V1.
    + exists n1. simpl. split; [done|]. split; [done|]. split; [lia|].
      intros b' _. by apply (V1 b).
    + destruct (IH s1) as (n2 & E2 & C2 & W2 & V2).
      exists (n1 ++ n2). rewrite E2, E1, app_assoc. split; [done|].
      split; [by apply (committed_trans _ s s1)|].
      split; [rewrite count_app; lia|].
      intros b Hb. specialize (V2 b Hb). rewrite count_app. lia.
    + exists n1. simpl. split; [done|]. split; [done|]. split; [lia|done].
Qed.

(** The whole of [_attempt_pairing], seen from outside. *)
Lemma attempt_pairing_effects address glass_name max_attempts w s :
  let is_left := String.eqb glass_name "Left glass" in
  exists b s' new,
    _attempt_pairing address glass_name max_attempts w s = (Val b, s') /\
    trace s' = trace s ++ new /\
    committed is_left s s' new /\
    (count is_retry_wait new <= max_attempts - 1)%nat /\
    (count is_connect new <= max_attempts)%nat /\
    (if b then (0 < count is_saved new)%nat /\ (0 < count is_completion new)%nat
     else count is_completion new = 0%nat).
Proof.
  intros is_left. unfold _attempt_pairing.
  cbn [try_except bind log console_print modify]. fold is_left.
  remember (emit _ (emit _ s)) as s0 eqn:Hs0.
  destruct (attempts_effects address glass_name is_left max_attempts
              (seq 1 max_attempts) w s0) as (new & E & C & W & V).
  destruct (attempts_spec address glass_name is_left max_attempts
              (seq 1 max_attempts) w s0) as (new' & E' & Cn & O).
  rewrite E in E'. apply app_inv_head in E'. subst new'.
  rewrite length_seq in Cn.
  pose proof (retries_seq max_attempts 1 max_attempts) as Hre.
  set (pre := [Logged DEBUG ("Starting first-time pairing for " ++ glass_name)%string;
               Printed ("\n[yellow]Performing first-time pairing for "
                        ++ glass_name ++ "...[/yellow]")%string]).
  assert (trace s0 = trace s ++ pre) as E0.
  { rewrite Hs0. simpl. by flatten. }
  assert (committed is_left s s0 pre) as C0.
  { rewrite Hs0. left. by auto. }
  clear Hs0.
  destruct (for_each _ _ w s0) as [[[b|]|e] s1]; simpl in E, C, V, O |- *.
  - destruct O as (-> & before & tail & Hnew & Hb & Ht).
    exists true, s1, (pre ++ new).
    split; [done|]. split; [by rewrite E, E0, app_assoc|].
    split; [apply (committed_trans _ s s0 s1 pre new C0 C)|].
    specialize (V true eq_refl).
    pose proof (count_completed address glass_name before tail) as Hpos.
    unfold completed in Hpos. simpl in Hpos. rewrite <- Hnew in Hpos.
    rewrite !count_app. unfold pre. tally.
  - exists false, s1, (pre ++ new).
    split; [done|]. split; [by rewrite E, E0, app_assoc|].
    split; [apply (committed_trans _ s s0 s1 pre new C0 C)|].
    rewrite !count_app. unfold pre. tally.
  - exists false. eexists.
    exists (pre ++ new ++ [Logged ERROR ("Pairing attempt failed: " ++ str_exn e)%string]).
    split; [done|]. split; [simpl; by rewrite E, E0, <- !app_assoc|].
    split.
    { apply (committed_trans _ s s0 _ pre _ C0).
      apply (committed_trans _ s0 s1 _ new _ C). left. by auto. }
    rewrite !count_app. unfold pre. tally.
Qed.

(** When [_attempt_pairing] returns [True], the config object is the old
    one with the side's flag set and the store holds exactly that; whatever
    it returns, the config object is the old one or the old one with the
    side's flag set, so the other side's flag, the addresses and the names
    are never changed and no flag is ever cleared.  The side is the left
    one for the name ["Left glass"] and the right one for every other
    name. *)
Theorem attempt_pairing_commits
    (w : env) (s : state) (address glass_name : string) (max_attempts : nat) :
  let r := _attempt_pairing address glass_name max_attempts w s in
  let paired := set_paired (String.eqb glass_name "Left glass") (config s) in
  (r.1 = Val true -> config r.2 = paired /\ saved r.2 = paired) /\
  (config r.2 = config s \/ config r.2 = paired).
Proof.
  intros r paired. subst r.
  destruct (attempt_pairing_effects address glass_name max_attempts w s)
    as (b & s' & new & -> & E & C & _ & _ & H).
  cbn [fst snd]. fold paired in C. unfold committed in C. split.
  - intros [= ->]. destruct H as (Hs & _).
    destruct C as [(C0 & _) | (_ & S & K)]; [lia|done].
  - destruct C as [(_ & _ & K) | (_ & _ & K)]; auto.
Qed.

Lemma failure_not_wait c e :
  is_failure (Called c (Some e)) = true -> is_retry_wait (Called c (Some e)) = false.
Proof. destruct c; simpl; try done. by destruct (Qeq_bool secs 2). Qed.

(** An attempt creates one client. *)
Lemma attempt_run_attempts w address glass_name attempt max_attempts t r seg :
  attempt_run w address glass_name attempt max_attempts t r seg ->
  count is_attempt seg = 1%nat.
Proof.
  intros H. destruct (attempt_run_head _ _ _ _ _ _ _ _ H) as (o & rest & -> & Hc).
  rewrite count_cons, Hc. done.
Qed.

Section Waits.

Context (w : env) (address glass_name : string) (max_attempts : nat).

(** A wait stands right after the failure and retry lines of an attempt
    that is not the last; when it returns the next attempt starts, when it
    raises the loop is left. *)
Lemma run_waits start len t r new before o after :
  run_of w address glass_name max_attempts start len t r new ->
  (start + len = S max_attempts)%nat ->
  new = before ++ Called (Sleep 2%Q) o :: after ->
  exists k,
    (S k = start + count is_attempt before)%nat /\
    (k < max_attempts)%nat /\
    (exists before' c e,
       before = before' ++ [Called c (Some e); failure_line k e; retry_line] /\
       is_failure (Called c (Some e)) = true) /\
    match o with
    | None => exists o' rest, after = Called (NewClient address) o' :: rest
    | Some e => after = [] /\ r = Exc e
    end.
Proof.
  intros H. revert before.
  induction H as [| ? ? ? ? ? Hseg Hr | ? ? ? ? ? ? Hseg Hrest IH];
    intros before Hsum Hnew.
  - by destruct before.
  - destruct Hseg as [(_ & _ & tail & -> & Ht) | [(_ & ? & _) | (_ & Hx)]];
      [|done|].
    { exfalso. refine (nowhere is_retry_wait _ _ _ _ _ _ Hnew); [|reflexivity].
      destruct Ht as [-> | ->]; unfold completed; tally. }
    destruct Hx as (pre & c & e0 & wait & -> & Hf & Hw0 & _ & Hc & (o0 & rest & Hh & Hrc) & Hw).
    unfold waited in Hw. destruct (start <? max_attempts)%nat eqn:Hlt;
      [|by destruct Hw].
    destruct Hw as [[? _] | (e' & -> & ->)]; [done|].
    change (pre ++ Called c (Some e0) :: failure_line start e0
              :: [retry_line; Called (Sleep 2%Q) (Some e')])
      with (pre ++ [Called c (Some e0); failure_line start e0; retry_line]
              ++ Called (Sleep 2%Q) (Some e') :: []) in Hnew.
    rewrite app_assoc in Hnew.
    apply in_middle with (p := is_retry_wait) in Hnew as (-> & [= ->] & ->);
      [|rewrite count_app, Hw0, !count_cons, (failure_not_wait _ _ Hc); done
       |done|done].
    exists start. split.
    { change (pre ++ [Called c (Some e0); failure_line start e0; retry_line])
        with (pre ++ [Called c (Some e0)] ++ [failure_line start e0; retry_line]).
      rewrite app_assoc, Hh, count_app, count_cons, Hrc.
      unfold failure_line, retry_line. tally. }
    split; [by apply Nat.ltb_lt|]. split; [by eauto|]. done.
  - pose proof (attempt_run_attempts _ _ _ _ _ _ _ _ Hseg) as Hone.
    destruct (split_app _ _ _ _ _ Hnew) as [(mid & Hm & ->) | (mid & -> & Hm)].
    + destruct Hseg as [(_ & ? & _) | [(_ & _ & ->) | (_ & Hx)]]; [done| |].
      { exfalso. refine (nowhere is_retry_wait _ _ _ _ _ _ Hm); [|reflexivity].
        unfold unconnected. tally. }
      destruct Hx as (pre & c & e0 & wait & -> & Hf & Hw0 & _ & Hc & (o0 & rest & Hh & Hrc) & Hw).
      unfold waited in Hw. destruct (start <? max_attempts)%nat eqn:Hlt.
      * destruct Hw as [[_ ->] | (e' & ? & _)]; [|done].
        change (pre ++ Called c (Some e0) :: failure_line start e0
                  :: [retry_line; Called (Sleep 2%Q) None])
          with (pre ++ [Called c (Some e0); failure_line start e0; retry_line]
                  ++ Called (Sleep 2%Q) None :: []) in Hm.
        rewrite app_assoc in Hm.
        apply in_middle with (p := is_retry_wait) in Hm as (-> & [= ->] & ->);
          [|rewrite count_app, Hw0, !count_cons, (failure_not_wait _ _ Hc); done
           |done|done].
        exists start. split.
        { change (pre ++ [Called c (Some e0); failure_line start e0; retry_line])
            with (pre ++ [Called c (Some e0)] ++ [failure_line start e0; retry_line]).
          rewrite app_assoc, Hh, count_app, count_cons, Hrc.
      unfold failure_line, retry_line. tally. }
        apply Nat.ltb_lt in Hlt.
        split; [done|]. split; [by eauto|].
        destruct len as [|len]; [lia|].
        simpl. apply (run_head _ _ _ _ _ _ _ _ _ Hrest).
      * destruct Hw as [_ ->]. exfalso.
        refine (nowhere is_retry_wait _ _ _ _ _ _ Hm); [|reflexivity].
        rewrite count_app, Hw0, !count_cons, (failure_not_wait _ _ Hc). done.
    + destruct (IH mid ltac:(lia) Hm) as (k & Hk & Hlt & (b' & c & e0 & -> & Hc) & Ho).
      exists k. rewrite count_app, Hone. split; [lia|]. split; [done|].
      split; [|done]. exists (seg ++ b'), c, e0. by rewrite <- app_assoc.
Qed.

(** An attempt in which a call raised logs the failure; it is followed by
    the retry line and the wait when it is not the last, and by nothing
    when it is. *)
Lemma run_failures start len t r new before c e after :
  run_of w address glass_name max_attempts start len t r new ->
  (start + len = S max_attempts)%nat ->
  new = before ++ Called c (Some e) :: after ->
  is_failure (Called c (Some e)) = true ->
  exists k rest,
    (S k = start + count is_attempt (before ++ [Called c (Some e)]))%nat /\
    after = failure_line k e :: rest /\
    if (k <? max_attempts)%nat
    then exists o rest', rest = retry_line :: Called (Sleep 2%Q) o :: rest'
    else rest = [] /\ r = Val None.
Proof.
  intros H. revert before.
  induction H as [| ? ? ? ? ? Hseg Hr | ? ? ? ? ? ? Hseg Hrest IH];
    intros before Hsum Hnew Hc.
  - by destruct before.
  - destruct Hseg as [(_ & _ & tail & -> & Ht) | [(_ & ? & _) | (_ & Hx)]];
      [|done|].
    { exfalso. refine (nowhere is_failure _ _ _ _ _ _ Hnew); [|exact Hc].
      destruct Ht as [-> | ->]; unfold completed; tally. }
    destruct Hx as (pre & c0 & e0 & wait & -> & Hf & Hw0 & _ & Hc0 & (o0 & rest & Hh & Hrc) & Hw).
    unfold waited in Hw. destruct (start <? max_attempts)%nat eqn:Hlt;
      [|by destruct Hw].
    destruct Hw as [[? _] | (e' & -> & ->)]; [done|].
    apply in_middle with (p := is_failure) in Hnew as (-> & [= -> ->] & ->);
      [|done|tally|done].
    exists start, [retry_line; Called (Sleep 2%Q) (Some e')].
    split; [rewrite Hh, count_cons, Hrc; simpl; lia|].
    split; [done|]. rewrite Hlt. eauto.
  - pose proof (attempt_run_attempts _ _ _ _ _ _ _ _ Hseg) as Hone.
    destruct (split_app _ _ _ _ _ Hnew) as [(mid & Hm & ->) | (mid & -> & Hm)].
    + destruct Hseg as [(_ & ? & _) | [(_ & _ & ->) | (_ & Hx)]]; [done| |].
      { exfalso. refine (nowhere is_failure _ _ _ _ _ _ Hm); [|exact Hc].
        unfold unconnected. tally. }
      destruct Hx as (pre & c0 & e0 & wait & -> & Hf & Hw0 & _ & Hc0 & (o0 & rest & Hh & Hrc) & Hw).
      unfold waited in Hw. destruct (start <? max_attempts)%nat eqn:Hlt.
      * destruct Hw as [[_ ->] | (e' & ? & _)]; [|done].
        apply in_middle with (p := is_failure) in Hm as (-> & [= -> ->] & ->);
          [|done|tally|done].
        exists start, ([retry_line; Called (Sleep 2%Q) None] ++ new).
        split; [rewrite Hh, count_cons, Hrc; simpl; lia|].
        split; [done|]. rewrite Hlt. eauto.
      * destruct Hw as [_ ->].
        apply in_middle with (p := is_failure) in Hm as (-> & [= -> ->] & ->);
          [|done|tally|done].
        apply Nat.ltb_ge in Hlt.
        destruct len as [|len]; [|lia].
        inversion Hrest; subst.
        exists start, []. 
        split; [rewrite Hh, count_cons, Hrc; simpl; lia|].
        split; [done|].
        replace (start <? max_attempts)%nat with false
          by (symmetry; apply Nat.ltb_ge; lia).
        done.
    + destruct (IH mid ltac:(lia) Hm Hc) as (k & rest & Hk & -> & Hif).
      exists k, rest. rewrite <- app_assoc, count_app, Hone.
      split; [lia|]. done.
Qed.

End Waits.

(** [_attempt_pairing] waits two seconds before a retry and not after the
    last attempt: at most [max_attempts - 1] times in all.  Each wait
    stands right after the failure line and the retry line of an attempt
    in which a call raised and which is not the last; when the wait
    returns the next attempt starts at once, and when it raises the
    operation logs that and returns [False].  Conversely each attempt in
    which a call raised logs its failure line, which is followed by the
    retry line and the wait when the attempt is not the last, and by
    nothing more when it is. *)
Theorem attempt_pairing_waits
    (w : env) (s : state) (address glass_name : string) (max_attempts : nat) :
  let r := _attempt_pairing address glass_name max_attempts w s in
  (count is_retry_wait (since s r.2) <= max_attempts - 1)%nat /\
  (forall before o after,
     since s r.2 = before ++ Called (Sleep 2%Q) o :: after ->
     let k := count is_attempt before in
     (k < max_attempts)%nat /\
     (exists before' c e,
        before = before' ++ [Called c (Some e); failure_line k e; retry_line] /\
        is_failure (Called c (Some e)) = true) /\
     match o with
     | None => exists o' rest, after = Called (NewClient address) o' :: rest
     | Some e =>
         after = [Logged ERROR ("Pairing attempt failed: " ++ str_exn e)%string] /\
         r.1 = Val false
     end) /\
  (forall before c e after,
     since s r.2 = before ++ Called c (Some e) :: after ->
     is_failure (Called c (Some e)) = true ->
     let k := count is_attempt (before ++ [Called c (Some e)]) in
     exists rest,
       after = failure_line k e :: rest /\
       if (k <? max_attempts)%nat
       then exists o rest', rest = retry_line :: Called (Sleep 2%Q) o :: rest'
       else rest = [] /\ r.1 = Val false).
Proof.
  intros r. subst r. split.
  { destruct (attempt_pairing_effects address glass_name max_attempts w s)
      as (b & s' & new & -> & E & _ & W & _).
    cbn [snd]. by rewrite (since_app _ _ _ E). }
  destruct (attempt_pairing_run address glass_name max_attempts w s)
    as (r & new & R & _ & _ & H).
  destruct (_attempt_pairing address glass_name max_attempts w s) as [out s'].
  cbn [fst snd] in *.
  assert (forall e, count is_attempt
            [Logged ERROR ("Pairing attempt failed: " ++ str_exn e)%string] = 0%nat)
    as Hclose by done.
  assert (count is_attempt (opening glass_name) = 0%nat) as Hopen by done.
  split.
  - intros before o after Hd.
    assert (exists mid post closing,
              before = opening glass_name ++ mid /\
              new = mid ++ Called (Sleep 2%Q) o :: post /\
              after = post ++ closing /\
              count is_attempt closing = 0%nat /\
              out = Val (match r with Val (Some b) => b | _ => false end) /\
              match r with
              | Exc e =>
                  closing = [Logged ERROR ("Pairing attempt failed: " ++ str_exn e)%string]
              | _ => closing = []
              end) as (mid & post & closing & -> & Hm & -> & Hcl & Hout & Hr).
    { destruct r as [[b|]|e]; destruct H as [-> Hs]; rewrite Hs in Hd.
      - destruct (skip_front is_retry_wait (opening glass_name) new before
                    (Called (Sleep 2%Q) o) after eq_refl eq_refl Hd)
          as (mid & -> & Hm).
        exists mid, after, []. by rewrite app_nil_r.
      - destruct (skip_front is_retry_wait (opening glass_name) new before
                    (Called (Sleep 2%Q) o) after eq_refl eq_refl Hd)
          as (mid & -> & Hm).
        exists mid, after, []. by rewrite app_nil_r.
      - destruct (skip_front is_retry_wait (opening glass_name) _ before
                    (Called (Sleep 2%Q) o) after eq_refl eq_refl Hd)
          as (mid & -> & Hm).
        destruct (skip_back is_retry_wait new
                    [Logged ERROR ("Pairing attempt failed: " ++ str_exn e)%string]
                    mid (Called (Sleep 2%Q) o) after eq_refl eq_refl Hm)
          as (post & -> & ->).
        by exists mid, post, [Logged ERROR ("Pairing attempt failed: " ++ str_exn e)%string]. }
    destruct (run_waits w address glass_name max_attempts 1 max_attempts
                _ _ _ _ _ _ R eq_refl Hm)
      as (k & Hk & Hlt & (b' & c & e0 & -> & Hc) & Ho).
    rewrite count_app, Hopen. simpl.
    assert (k = count is_attempt
                  (b' ++ [Called c (Some e0); failure_line k e0; retry_line]))
      as <- by lia.
    split; [done|]. split.
    { exists (opening glass_name ++ b'), c, e0. by rewrite <- app_assoc. }
    destruct o as [e|].
    + destruct Ho as [-> ->]. by rewrite Hr.
    + destruct Ho as (o' & rest & ->). simpl. eauto.
  - intros before c e after Hd Hc.
    assert (exists mid post closing,
              before = opening glass_name ++ mid /\
              new = mid ++ Called c (Some e) :: post /\
              after = post ++ closing /\
              out = Val (match r with Val (Some b) => b | _ => false end) /\
              match r with
              | Exc e =>
                  closing = [Logged ERROR ("Pairing attempt failed: " ++ str_exn e)%string]
              | _ => closing = []
              end) as (mid & post & closing & -> & Hm & -> & Hout & Hr).
    { destruct r as [[b|]|e']; destruct H as [-> Hs]; rewrite Hs in Hd.
      - destruct (skip_front is_failure (opening glass_name) new before
                    (Called c (Some e)) after eq_refl Hc Hd)
          as (mid & -> & Hm).
        exists mid, after, []. by rewrite app_nil_r.
      - destruct (skip_front is_failure (opening glass_name) new before
                    (Called c (Some e)) after eq_refl Hc Hd)
          as (mid & -> & Hm).
        exists mid, after, []. by rewrite app_nil_r.
      - destruct (skip_front is_failure (opening glass_name) _ before
                    (Called c (Some e)) after eq_refl Hc Hd)
          as (mid & -> & Hm).
        destruct (skip_back is_failure new
                    [Logged ERROR ("Pairing attempt failed: " ++ str_exn e')%string]
                    mid (Called c (Some e)) after eq_refl Hc Hm)
          as (post & -> & ->).
        by exists mid, post, [Logged ERROR ("Pairing attempt failed: " ++ str_exn e')%string]. }
    destruct (run_failures w address glass_name max_attempts 1 max_attempts
                _ _ _ _ _ _ _ R eq_refl Hm Hc)
      as (k & rest & Hk & -> & Hif).
    rewrite <- app_assoc, count_app, Hopen. simpl.
    assert (k = count is_attempt (mid ++ [Called c (Some e)])) as <- by lia.
    destruct (k <? max_attempts)%nat.
    + destruct Hif as (o & rest' & ->). eexists. split; [reflexivity|].
      simpl. eauto.
    + destruct Hif as [-> ->]. subst closing out. by exists [].
Qed.

(** With no attempt allowed, [_attempt_pairing] returns [False] after its
    two opening lines, without any external call and without touching the
    config object or the store. *)
Theorem attempt_pairing_no_attempts
    (w : env) (s : state) (address glass_name : string) :
  let r := _attempt_pairing address glass_name 0 w s in
  r.1 = Val false /\
  calls (since s r.2) = [] /\
  config r.2 = config s /\ saved r.2 = saved s.
Proof.
  simpl. split; [done|]. split; [|done].
  erewrite since_app by (simpl; flatten; reflexivity). done.
Qed.

(** The events [_attempt_pairing] may add for a device: client calls on
    that device only, connects with the twenty-second timeout, sleeps,
    saves, state queries, log and console lines; no scan, no command, no
    status refresh. *)
Definition pairing_event (address : string) (ev : event) : Prop :=
  match ev with
  | Called (NewClient a) _ | Called (IsConnected a) _
  | Called (Pair a) _ | Called (Disconnect a) _ => a = address
  | Called (Connect a timeout) _ => a = address /\ timeout = 20%Q
  | Called (Sleep _) _ | Called Save _ | Called (HandleStateChange _) _ => True
  | Called (Discover _) _ | Called (SendCommand _ _) _ | Called UpdateStatus _ => False
  | Logged _ _ | Printed _ => True
  end.

(** [_attempt_pairing] talks to the given device only, and leaves the
    discovery cache, its timestamp, the silent-mode flag and the addresses
    and names of the config object as they are. *)
Theorem attempt_pairing_one_device
    (w : env) (s : state) (address glass_name : string) (max_attempts : nat) :
  let r := _attempt_pairing address glass_name max_attempts w s in
  Forall (pairing_event address) (since s r.2) /\
  pairing_frame s r.2.
Proof.
  intros r. subst r.
  assert (adding (pairing_event address) pairing_frame
            (_attempt_pairing address glass_name max_attempts)) as H.
  { unfold _attempt_pairing, attempt_step, attempt_body, attempt_failed.
    adding_walk.
    all: unfold pairing_frame; simpl;
      try (destruct (set_paired_addresses (glass_name =? "Left glass")%string
                       (config s0)); destruct_and!); done. }
  destruct (H w s) as (new & E & F & R).
  by rewrite (since_app _ _ _ E).
Qed.

(** ** [verify_pairing]: what it changes and whom it contacts *)

(** A pairing handshake or a save. *)
Definition is_handshake (ev : event) : bool :=
  match ev with
  | Called (Pair _) _ | Called Save _ => true
  | _ => false
  end.

Lemma adding_probes la ra :
  adding (fun ev => is_handshake ev = false) anything
    (for_each [("left", la); ("right", ra)] probe).
Proof. unfold probe. adding_walk. Qed.

(** The ways [verify_pairing] can go: it fails before the second pass; it
    finds both flags set after the probes; or it runs the second pass up
    to its [k]-th call. *)
Lemma verify_pairing_cases w s :
  let r := verify_pairing w s in
  (r.1 = Val false /\ saved r.2 = saved s /\ config r.2 = config s /\
   count is_handshake (since s r.2) = 0%nat) \/
  (r.1 = Val true /\ saved r.2 = saved s /\ config r.2 = config s /\
   count is_handshake (since s r.2) = 0%nat /\
   left_paired (config s) = true /\ right_paired (config s) = true /\
   exists la ra,
     truthy (left_address (config s)) = Some la /\
     truthy (right_address (config s)) = Some ra /\
     calls (since s r.2) = returned (first_pass la ra)) \/
  (exists la ra k ok c,
     (left_paired (config s) = false \/ right_paired (config s) = false) /\
     second_pass la ra !! k = Some c /\
     calls (since s r.2) =
       returned (first_pass la ra) ++
       returned (take k (second_pass la ra)) ++ [(c, ok)] /\
     left_paired (config r.2) = left_paired (config s) || (4 <=? k)%nat /\
     right_paired (config r.2) = right_paired (config s) || (8 <=? k)%nat /\
     ((k = 8%nat /\ ok = true /\ r.1 = Val true /\ saved r.2 = config r.2) \/
      ((k <> 8%nat \/ ok = false) /\ r.1 = Val false /\ saved r.2 = saved s))).
Proof.
  unfold verify_pairing.
  cbn [try_except bind get log modify]. rewrite config_emit.
  set (s0 := emit (Logged DEBUG "Verifying pairing...") s).
  assert (trace s0 = trace s ++ [Logged DEBUG "Verifying pairing..."]) as E0 by done.
  assert (config s0 = config s) as C0 by done.
  assert (saved s0 = saved s) as S0 by done.
  clearbody s0.
  destruct (truthy (left_address (config s))) as [la|] eqn:Hl;
    [destruct (truthy (right_address (config s))) as [ra|] eqn:Hr|].
  - cbn [bind].
    destruct (first_pass_spec la ra w s0) as (C1 & S1 & H1).
    destruct (adding_probes la ra w s0) as (n1 & E1 & F1 & _).
    destruct (for_each _ probe w s0) as [o1 s1]. simpl in C1, S1, H1, E1.
    assert (count is_handshake n1 = 0%nat) as K1 by (by apply count_none).
    destruct H1 as [[-> R1] | [-> (cs & R1 & L1 & F1')]];
      cbn [ret bind log modify get].
    + rewrite config_emit, C1, C0.
      destruct R1 as (n1' & E1' & R1).
      rewrite E1 in E1'. apply app_inv_head in E1'. subst n1'.
      destruct (negb (left_paired (config s)) || negb (right_paired (config s)))
        eqn:Hneg.
      * (* second pass *)
        set (s2 := emit _ s1).
        assert (trace s2 = trace s1 ++ [Logged INFO "Pairing verification successful"])
          as E2 by done.
        assert (config s2 = config s) as C2 by (subst s2; by rewrite config_emit, C1).
        assert (saved s2 = saved s) as S2 by (subst s2; by rewrite saved_emit, S1).
        clearbody s2.
        destruct (first_time_pairing_spec la ra w s2)
          as (k & ok & c & Hk & (n3 & E3 & R3) & Fl & Fr & H3).
        destruct (first_time_pairing la ra w s2) as [o3 s3].
        simpl in E3, Fl, Fr, H3. rewrite C2 in Fl, Fr. rewrite S2 in H3.
        right. right. exists la, ra, k, ok, c.
        split.
        { apply orb_true_iff in Hneg as [H|H]; apply negb_true_iff in H; auto. }
        split; [done|].
        assert (trace s3 = trace s ++
                  [Logged DEBUG "Verifying pairing..."] ++ n1 ++
                  [Logged INFO "Pairing verification successful"] ++ n3) as E.
        { rewrite E3, E2, E1, E0. by rewrite <- !app_assoc. }
        destruct H3 as [(-> & -> & -> & S3) | (Hko' & [-> | [e ->]] & S3)];
          try pose proof (or_intror Hko' : k <> 8%nat \/ ok = false) as Hko;
          cbn [fst snd config emit saved].
        -- rewrite (since_app _ _ _ E), !calls_app, R1, R3. simpl.
           repeat split; try done. by left.
        -- rewrite (since_app _ _ _ E), !calls_app, R1, R3. simpl.
           repeat split; try done. by right.
        -- erewrite since_app by (simpl; rewrite E, <- !app_assoc; reflexivity).
           rewrite !calls_app, R1, R3. simpl. rewrite ?app_nil_r.
           repeat split; try done. by right.
      * (* already paired *)
        apply orb_false_iff in Hneg as [Hlp Hrp].
        apply negb_false_iff in Hlp, Hrp.
        right. left. cbn [ret fst snd]. rewrite saved_emit, config_emit.
        split; [done|]. split; [congruence|]. split; [congruence|].
        erewrite since_app
          by (simpl; rewrite E1, E0, <- !app_assoc; reflexivity).
        split; [rewrite !count_app, K1; tally|].
        split; [done|]. split; [done|]. exists la, ra.
        split; [done|]. split; [done|].
        rewrite !calls_app, R1. simpl. by rewrite ?app_nil_r.
    + left. cbn [fst snd]. split; [done|]. split; [congruence|].
      split; [congruence|].
      erewrite since_app by (rewrite E1, E0, <- !app_assoc; reflexivity).
      rewrite !count_app, K1. tally.
  - left. simpl. split; [done|]. split; [done|]. split; [done|].
    erewrite since_app by (simpl; rewrite E0, <- !app_assoc; reflexivity). tally.
  - left. simpl. split; [done|]. split; [done|]. split; [done|].
    erewrite since_app by (simpl; rewrite E0, <- !app_assoc; reflexivity). tally.
Qed.

(** With both paired flags already set, [verify_pairing] is a pure
    reachability check: it performs no handshake and no save, leaves the
    config object and the store as they are, and when it returns [True]
    its calls were exactly the six of the first pass, all returned. *)
Theorem verify_pairing_already_paired (w : env) (s : state) :
  left_paired (config s) = true ->
  right_paired (config s) = true ->
  let r := verify_pairing w s in
  config r.2 = config s /\ saved r.2 = saved s /\
  count is_handshake (since s r.2) = 0%nat /\
  (r.1 = Val false \/
   r.1 = Val true /\
   exists la ra,
     truthy (left_address (config s)) = Some la /\
     truthy (right_address (config s)) = Some ra /\
     calls (since s r.2) = returned (first_pass la ra)).
Proof.
  intros Hlp Hrp r. subst r.
  destruct (verify_pairing_cases w s)
    as [(Hr & S & C & K) | [(Hr & S & C & K & _ & _ & H) | H]].
  - auto.
  - repeat split; try done. right. done.
  - destruct H as (la & ra & k & ok & c & [H|H] & _); congruence.
Qed.

Definition both_paired : Config :=
  set_paired false (set_paired true (known "AA" "BB")).

Lemma verify_pairing_already_paired_witness :
  let s := fresh both_paired in
  let r := verify_pairing all_good s in
  config r.2 = config s /\ saved r.2 = saved s /\
  count is_handshake (since s r.2) = 0%nat /\
  (r.1 = Val false \/
   r.1 = Val true /\
   exists la ra,
     truthy (left_address (config s)) = Some la /\
     truthy (right_address (config s)) = Some ra /\
     calls (since s r.2) = returned (first_pass la ra)).
Proof.
  apply (verify_pairing_already_paired all_good (fresh both_paired)).
  - reflexivity.
  - reflexivity.
Defined.

(** [verify_pairing] returns [True] only with both paired flags set in the
    config object.  It changes the store only when it returns [True], and
    then to the config object; when it returns [False] the store is as
    before. *)
Theorem verify_pairing_true_means_paired (w : env) (s : state) :
  let r := verify_pairing w s in
  (r.1 = Val true ->
     left_paired (config r.2) = true /\ right_paired (config r.2) = true /\
     (saved r.2 = saved s \/ saved r.2 = config r.2)) /\
  (r.1 = Val false -> saved r.2 = saved s).
Proof.
  intros r. subst r.
  destruct (verify_pairing_cases w s)
    as [(Hr & S & C & K) | [(Hr & S & C & K & Hlp & Hrp & _) | H]].
  - rewrite Hr. split; [discriminate|done].
  - rewrite Hr, C. split; [auto|discriminate].
  - destruct H as (la & ra & k & ok & c & _ & _ & _ & Fl & Fr & H).
    destruct H as [(-> & -> & Hr & S) | (_ & Hr & S)]; rewrite Hr.
    + split; [|discriminate]. intros _. rewrite Fl, Fr. simpl.
      rewrite !orb_true_r. auto.
    + split; [discriminate|done].
Qed.

(** The events [verify_pairing] may add: client calls on the two saved
    addresses only, connects with the five-second timeout, a save, log
    lines; no scan, no sleep, no state query, no command. *)
Definition verifying_event (la ra : option string) (ev : event) : Prop :=
  match ev with
  | Called (NewClient a) _ | Called (Pair a) _ | Called (Disconnect a) _ =>
      Some a = la \/ Some a = ra
  | Called (Connect a timeout) _ =>
      (Some a = la \/ Some a = ra) /\ timeout = 5%Q
  | Called Save _ => True
  | Called _ _ => False
  | Logged _ _ | Printed _ => True
  end.

Lemma truthy_Some o a : truthy o = Some a -> o = Some a.
Proof. destruct o as [[|c s]|]; simpl; congruence. Qed.

(** [verify_pairing] talks to the two saved addresses only, and leaves the
    discovery cache, its timestamp, the silent-mode flag and the addresses
    and names of the config object as they are. *)
Theorem verify_pairing_saved_devices (w : env) (s : state) :
  let r := verify_pairing w s in
  Forall (verifying_event (left_address (config s)) (right_address (config s)))
    (since s r.2) /\
  pairing_frame s r.2.
Proof.
  intros r. subst r. unfold verify_pairing.
  cbn [try_except bind get log modify]. rewrite config_emit.
  set (s0 := emit (Logged DEBUG "Verifying pairing...") s).
  assert (trace s0 = trace s ++ [Logged DEBUG "Verifying pairing..."]) as E0 by done.
  assert (pairing_frame s s0) as R0 by done.
  clearbody s0.
  set (P := verifying_event (left_address (config s)) (right_address (config s))).
  destruct (truthy (left_address (config s))) as [la|] eqn:Hl;
    [destruct (truthy (right_address (config s))) as [ra|] eqn:Hr|].
  - apply truthy_Some in Hl, Hr.
    lazymatch goal with
    | |- context [@bind ?A ?B ?m ?k w s0] =>
        assert (adding P pairing_frame (@bind A B m k)) as H;
        [|destruct (H w s0) as (new & E & F & R);
          destruct (@bind A B m k w s0) as [[b|e] s1]]
    end.
    { unfold first_time_pairing. cbn [for_each].
      unfold probe, probe_and_pair, P.
      rewrite Hl, Hr. adding_walk; simpl; auto.
      all: unfold pairing_frame; simpl;
        try match goal with
            | |- context [set_paired ?b (config ?st)] =>
                destruct (set_paired_addresses b (config st)); destruct_and!
            end; done. }
    + cbn [fst snd] in *.
      erewrite since_app by (rewrite E, E0, <- app_assoc; reflexivity).
      split; [by constructor|]. by apply (frame_trans s s0 s1).
    + cbn [fst snd bind log modify ret] in *.
      erewrite since_app by (simpl; rewrite E, E0, <- !app_assoc; reflexivity).
      split.
      * constructor; [done|]. apply Forall_app. split; [done|]. by repeat constructor.
      * apply (frame_trans s s1); [by apply (frame_trans s s0 s1)|].
        apply frame_emit.
  - simpl. erewrite since_app by (simpl; rewrite E0, <- !app_assoc; reflexivity).
    split; [by repeat constructor|].
    apply (frame_trans s s0); [done|apply frame_emit].
  - simpl. erewrite since_app by (simpl; rewrite E0, <- !app_assoc; reflexivity).
    split; [by repeat constructor|].
    apply (frame_trans s s0); [done|apply frame_emit].
Qed.

(** ** [pair_glasses]: what a success means, what a failure costs *)

Definition no_contact (ev : event) : Prop :=
  is_connect ev = false /\ is_completion ev = false.

Lemma count_no_contact (t : list event) :
  Forall no_contact t ->
  count is_connect t = 0%nat /\ count is_completion t = 0%nat.
Proof.
  intros H. split; apply count_none; eapply Forall_impl; eauto; by intros ? [? ?].
Qed.

(** [pair_discovered] with both sides in the cache. *)
Lemma pair_discovered_both l rg w s :
  _discovery_cache s !! "left" = Some l ->
  _discovery_cache s !! "right" = Some rg ->
  exists o s' new,
    pair_discovered w s = (o, s') /\
    trace s' = trace s ++ new /\
    (count is_connect new <= 6)%nat /\
    (count is_completion new = 0%nat -> (count is_connect new <= 3)%nat) /\
    (o = Val true ->
       config s' = set_paired false (set_paired true (set_discovered l rg (config s))) /\
       saved s' = config s').
Proof.
  intros Hl Hr. unfold pair_discovered. cbn [bind get]. rewrite Hl, Hr.
  cbn [bind modify ext]. cbn [trace with_config].
  destruct (respond w (trace s) (NewClient (g_address l))) as [[]|e] eqn:E1;
    cbn [trace emit with_config];
    [destruct (respond w (trace s ++ [Called (NewClient (g_address l)) None])
                 (NewClient (g_address rg))) as [[]|e] eqn:E2|].
  - set (s3 := emit _ (emit _ (with_config _ s))).
    set (pre := [Called (NewClient (g_address l)) None;
                 Called (NewClient (g_address rg)) None]).
    assert (trace s3 = trace s ++ pre) as E3.
    { subst s3. simpl. by rewrite <- app_assoc. }
    assert (count is_connect pre = 0%nat /\ count is_completion pre = 0%nat)
      as [Kp Kp'] by done.
    assert (config s3 = set_discovered l rg (config s)) as C3 by done.
    clearbody s3.
    destruct (attempt_pairing_effects (g_address l) "Left glass" 3 w s3)
      as (b1 & s4 & n1 & -> & E4 & C4 & _ & K4 & H4).
    change ("Left glass" =? "Left glass")%string with true in C4.
    destruct b1; cbn [negb ret bind].
    + destruct (attempt_pairing_effects (g_address rg) "Right glass" 3 w s4)
        as (b2 & s5 & n2 & -> & E5 & C5 & _ & K5 & H5).
      change ("Right glass" =? "Left glass")%string with false in C5.
      assert (config s4 = set_paired true (config s3) /\
              saved s4 = set_paired true (config s3)) as [C4' S4'].
      { destruct C4 as [(Z & _) | (_ & ? & ?)]; [|done]. destruct H4. lia. }
      destruct b2; cbn [negb ret bind log modify].
      * do 2 eexists.
        exists (pre ++ n1 ++ n2 ++
                [Logged INFO "Successfully paired with both glasses"]).
        split; [reflexivity|].
        split; [simpl; rewrite E5, E4, E3, <- !app_assoc; reflexivity|].
        rewrite !count_app, Kp, Kp'. destruct H4, H5.
        split; [tally|]. split; [tally|]. intros _.
        rewrite config_emit, saved_emit.
        destruct C5 as [(Z & _) | (_ & S5 & C5)]; [lia|].
        rewrite S5, C5, C4', C3. done.
      * do 2 eexists. exists (pre ++ n1 ++ n2).
        split; [reflexivity|].
        split; [rewrite E5, E4, E3, <- !app_assoc; reflexivity|].
        rewrite !count_app, Kp, Kp'. destruct H4.
        split; [tally|]. split; [tally|]. discriminate.
    + do 2 eexists. exists (pre ++ n1).
      split; [reflexivity|].
      split; [rewrite E4, E3, <- !app_assoc; reflexivity|].
      rewrite !count_app, Kp, Kp'.
      split; [tally|]. split; [tally|]. discriminate.
  - do 3 eexists. split; [reflexivity|].
    split; [simpl; rewrite <- !app_assoc; reflexivity|].
    split; [tally|]. split; [tally|]. discriminate.
  - do 3 eexists. split; [reflexivity|].
    split; [simpl; reflexivity|].
    split; [tally|]. split; [tally|]. discriminate.
Qed.

(** [pair_glasses] in two steps: settling the cache (state [s1]), then
    pairing from it. *)
Lemma pair_glasses_run w s :
  let r := pair_glasses w s in
  exists s1 n1,
    trace s1 = trace s ++ n1 /\ Forall no_contact n1 /\
    config s1 = config s /\ saved s1 = saved s /\
    _discovery_cache r.2 = _discovery_cache s1 /\
    match _discovery_cache s1 !! "left", _discovery_cache s1 !! "right" with
    | Some l, Some rg =>
        exists new,
          trace r.2 = trace s1 ++ new /\
          (count is_connect new <= 6)%nat /\
          (count is_completion new = 0%nat -> (count is_connect new <= 3)%nat) /\
          (r.1 = Val true \/ r.1 = Val false) /\
          (r.1 = Val true ->
             config r.2 =
               set_paired false (set_paired true (set_discovered l rg (config s))) /\
             saved r.2 = config r.2)
    | _, _ =>
        r = (Val false, emit (Logged ERROR "Could not find both glasses") s1)
    end.
Proof.
  unfold pair_glasses. cbn [try_except bind].
  destruct (need_scan_spec w s) as (b & -> & _).
  assert (exists s1 n1,
            (if b then discover_glasses 15 ;; ret () else ret ()) w s = (Val tt, s1) /\
            trace s1 = trace s ++ n1 /\ Forall no_contact n1 /\
            config s1 = config s /\ saved s1 = saved s)
    as (s1 & n1 & Hscan & E1 & F1 & C1 & S1).
  { destruct b; cbn [bind ret].
    - destruct (adding_discover no_contact 15 ltac:(done) ltac:(done) w s)
        as (n1 & E1 & F1 & _).
      destruct (discover_glasses_run w s 15)
        as (d & s1 & ok & Hrun & _ & C1 & S1 & _).
      rewrite Hrun in *. simpl in E1. eauto 10.
    - exists s, []. rewrite app_nil_r. by auto. }
  rewrite Hscan. exists s1, n1.
  split; [done|]. split; [done|]. split; [done|]. split; [done|].
  destruct (pair_discovered_spec w s1) as (n2 & E2 & _ & K2 & _ & H2).
  destruct (_discovery_cache s1 !! "left") as [l|] eqn:Hl;
    [destruct (_discovery_cache s1 !! "right") as [rg|] eqn:Hr|].
  - clear H2.
    destruct (pair_discovered_both l rg w s1 Hl Hr)
      as (o & s' & new & Hrun & E & K6 & K3 & Hc).
    rewrite Hrun in *. simpl in K2. rewrite C1 in Hc.
    destruct o as [b'|e]; cbn [fst snd log bind modify ret].
    + split; [done|]. exists new. split; [done|]. split; [done|].
      split; [done|]. split; [destruct b'; auto|done].
    + split; [done|].
      exists (new ++ [Logged ERROR ("Pairing failed: " ++ str_exn e)%string]).
      split; [simpl; by rewrite E, <- app_assoc|].
      rewrite !count_app. split; [tally|]. split; [tally|].
      split; [by right|discriminate].
  - rewrite H2. done.
  - rewrite H2. done.
Qed.

(** When [pair_glasses] returns [True], both sides are in the cache, the
    config object has their addresses and names and both paired flags set
    (its flags apart, nothing of the old config object is left), and the
    store holds exactly this config object. *)
Theorem pair_glasses_commits (w : env) (s : state) :
  let r := pair_glasses w s in
  r.1 = Val true ->
  exists l rg,
    _discovery_cache r.2 !! "left" = Some l /\
    _discovery_cache r.2 !! "right" = Some rg /\
    config r.2 =
      set_paired false (set_paired true (set_discovered l rg (config s))) /\
    saved r.2 = config r.2.
Proof.
  intros r Htrue. subst r.
  destruct (pair_glasses_run w s) as (s1 & n1 & _ & _ & _ & _ & Hc & H).
  rewrite Hc.
  destruct (_discovery_cache s1 !! "left") as [l|];
    [destruct (_discovery_cache s1 !! "right") as [rg|]|].
  - destruct H as (new & _ & _ & _ & _ & H). exists l, rg. auto.
  - rewrite H in Htrue. discriminate.
  - rewrite H in Htrue. discriminate.
Qed.

Lemma pair_glasses_commits_witness :
  let s := fresh quiet in
  let r := pair_glasses two_glasses s in
  exists l rg,
    _discovery_cache r.2 !! "left" = Some l /\
    _discovery_cache r.2 !! "right" = Some rg /\
    config r.2 =
      set_paired false (set_paired true (set_discovered l rg (config s))) /\
    saved r.2 = config r.2.
Proof.
  apply (pair_glasses_commits two_glasses (fresh quiet)).
  vm_compute. reflexivity.
Defined.

(** When a side is missing from the cache that [pair_glasses] ends up with,
    it has returned [False] without any connection attempt and without
    touching the config object or the store. *)
Theorem pair_glasses_missing_side (w : env) (s : state) :
  let r := pair_glasses w s in
  _discovery_cache r.2 !! "left" = None \/
  _discovery_cache r.2 !! "right" = None ->
  r.1 = Val false /\
  config r.2 = config s /\ saved r.2 = saved s /\
  count is_connect (since s r.2) = 0%nat.
Proof.
  intros r Hmiss. subst r.
  destruct (pair_glasses_run w s) as (s1 & n1 & E1 & F1 & C1 & S1 & Hc & H).
  rewrite Hc in Hmiss.
  destruct (count_no_contact n1 F1) as [K1 _].
  assert (pair_glasses w s =
          (Val false, emit (Logged ERROR "Could not find both glasses") s1)) as ->.
  { destruct (_discovery_cache s1 !! "left") as [l|];
      [destruct (_discovery_cache s1 !! "right") as [rg|]|]; try done.
    by destruct Hmiss. }
  cbn [fst snd]. rewrite config_emit, saved_emit.
  split; [done|]. split; [done|]. split; [done|].
  erewrite since_app by (simpl; rewrite E1, <- app_assoc; reflexivity).
  rewrite count_app, K1. tally.
Qed.

Lemma pair_glasses_missing_side_witness :
  let s := fresh quiet in
  let r := pair_glasses all_good s in
  r.1 = Val false /\
  config r.2 = config s /\ saved r.2 = saved s /\
  count is_connect (since s r.2) = 0%nat.
Proof.
  apply (pair_glasses_missing_side all_good (fresh quiet)).
  left. vm_compute. reflexivity.
Defined.

(** [pair_glasses] connects at most six times (three attempts a side), and
    at most three times when no attempt runs to its end: after a failure
    on the left, the right side is not attempted. *)
Theorem pair_glasses_connects (w : env) (s : state) :
  let r := pair_glasses w s in
  (count is_connect (since s r.2) <= 6)%nat /\
  (count is_completion (since s r.2) = 0%nat ->
   (count is_connect (since s r.2) <= 3)%nat).
Proof.
  intros r. subst r.
  destruct (pair_glasses_run w s) as (s1 & n1 & E1 & F1 & _ & _ & _ & H).
  destruct (count_no_contact n1 F1) as [K1 K1'].
  destruct (_discovery_cache s1 !! "left") as [l|];
    [destruct (_discovery_cache s1 !! "right") as [rg|]|].
  - destruct H as (new & E & K6 & K3 & _).
    erewrite since_app by (rewrite E, E1, <- app_assoc; reflexivity).
    rewrite !count_app, K1, K1'. simpl. auto.
  - rewrite H. cbn [snd].
    erewrite since_app by (simpl; rewrite E1, <- app_assoc; reflexivity).
    rewrite !count_app, K1. split; [tally|]. intros _. tally.
  - rewrite H. cbn [snd].
    erewrite since_app by (simpl; rewrite E1, <- app_assoc; reflexivity).
    rewrite !count_app, K1. split; [tally|]. intros _. tally.
Qed.

(** ** [unpair_glasses], then [verify_pairing] *)

(** After [unpair_glasses], [verify_pairing] returns [False] without any
    external call: the addresses are gone from the config object, whatever
    the store still holds. *)
Theorem unpair_then_verify (w : env) (s : state) :
  let s1 := (unpair_glasses w s).2 in
  let r := verify_pairing w s1 in
  r.1 = Val false /\
  calls (since s r.2) = [] /\
  config r.2 = cleared (config s) /\
  saved r.2 = saved s.
Proof.
  simpl. split; [done|]. split; [|done].
  erewrite since_app by (simpl; rewrite <- !app_assoc; reflexivity). done.
Qed.

(** ** [_verify_windows_pairing] *)

(** What the scan result says about an address: the first device with
    that address, compared in lower case, decides, by its pairing status
    if it has one and by [True] if it has none; no such device, [False]. *)
Definition verdict (is_paired : BLEDevice -> option bool) (address : string)
    (devices : list BLEDevice) : bool :=
  match List.find (fun device =>
                     String.eqb (lower (dev_address device)) (lower address))
                  devices with
  | Some device => default true (is_paired device)
  | None => false
  end.

Lemma for_each_same_address is_paired address devices w s :
  for_each devices (same_address is_paired address) w s =
  (Val (match List.find (fun device =>
                           String.eqb (lower (dev_address device)) (lower address))
                        devices with
        | Some device => Some (default true (is_paired device))
        | None => None
        end), s).
Proof.
  induction devices as [|device devices IH]; [done|].
  cbn [for_each bind List.find]. unfold same_address at 1.
  destruct (String.eqb (lower (dev_address device)) (lower address)).
  - by destruct (is_paired device).
  - simpl. apply IH.
Qed.

Lemma verify_windows_pairing_run is_paired address w s :
  exists b s' ok,
    _verify_windows_pairing is_paired address w s = (Val b, s') /\
    calls (since s s') = [(Discover 5%Q, ok)] /\
    config s' = config s /\ saved s' = saved s /\
    _discovery_cache s' = _discovery_cache s /\
    _last_scan s' = _last_scan s /\
    match respond w (trace s) (Discover 5%Q) with
    | Returns devices => ok = true /\ b = verdict is_paired address devices
    | Raises _ => ok = false /\ b = false
    end.
Proof.
  unfold _verify_windows_pairing. cbn [try_except bind ext].
  destruct (respond w (trace s) (Discover 5%Q)) as [devices|e] eqn:Hscan.
  - rewrite for_each_same_address. unfold verdict.
    destruct (List.find _ devices) as [device|]; simpl.
    + do 2 eexists. exists true. split; [reflexivity|]. simpl.
      erewrite since_app by (simpl; reflexivity). done.
    + do 2 eexists. exists true. split; [reflexivity|]. simpl.
      erewrite since_app by (simpl; reflexivity). done.
  - do 2 eexists. exists false. split; [reflexivity|]. simpl.
    erewrite since_app by (simpl; rewrite <- app_assoc; reflexivity). done.
Qed.

(** [_verify_windows_pairing] never raises and makes one external call, a
    five-second scan; it leaves config object, store and discovery cache
    alone.  If the scan returns, the result is the verdict of the first
    device with the address (in any letter case): its pairing status, or
    [True] if the platform gives none; [False] if no device has the
    address.  If the scan raises, the result is [False]. *)
Theorem verify_windows_pairing_verdict
    (is_paired : BLEDevice -> option bool) (address : string)
    (w : env) (s : state) :
  exists b s' ok,
    _verify_windows_pairing is_paired address w s = (Val b, s') /\
    calls (since s s') = [(Discover 5%Q, ok)] /\
    config s' = config s /\ saved s' = saved s /\
    _discovery_cache s' = _discovery_cache s /\
    _last_scan s' = _last_scan s /\
    match respond w (trace s) (Discover 5%Q) with
    | Returns devices => ok = true /\ b = verdict is_paired address devices
    | Raises _ => ok = false /\ b = false
    end.
Proof. apply verify_windows_pairing_run. Qed.

Lemma lower_char_twice c : lower_char (lower_char c) = lower_char c.
Proof. by destruct c as [[] [] [] [] [] [] [] []]. Qed.

Lemma lower_twice s : lower (lower s) = lower s.
Proof. induction s as [|c s IH]; [done|]. simpl. by rewrite lower_char_twice, IH. Qed.

Lemma for_each_ext {A B} (xs : list A) (f g : A -> M (option B)) w s :
  (forall x w s, f x w s = g x w s) -> for_each xs f w s = for_each xs g w s.
Proof.
  intros H. revert s. induction xs as [|x xs IH]; intros s; [done|].
  cbn [for_each bind]. rewrite H.
  destruct (g x w s) as [[[b|]|e] s1]; auto.
Qed.

(** The letter case of the address does not matter to
    [_verify_windows_pairing]: two addresses that agree in lower case give
    the same run, and so does an address and its lower-case form. *)
Theorem verify_windows_pairing_case
    (is_paired : BLEDevice -> option bool) (address address' : string)
    (w : env) (s : state) :
  lower address = lower address' ->
  _verify_windows_pairing is_paired address w s =
  _verify_windows_pairing is_paired address' w s /\
  _verify_windows_pairing is_paired (lower address) w s =
  _verify_windows_pairing is_paired address w s.
Proof.
  intros H.
  assert (forall a a', lower a = lower a' ->
            _verify_windows_pairing is_paired a w s =
            _verify_windows_pairing is_paired a' w s) as Hrun.
  { intros a a' Ha. unfold _verify_windows_pairing. cbn [try_except bind].
    destruct (ext (Discover 5%Q) w s) as [[devices|e] s1]; [|done].
    rewrite (for_each_ext devices (same_address is_paired a)
               (same_address is_paired a')); [done|].
    intros x w' s'. unfold same_address. by rewrite Ha. }
  split; [by apply Hrun|]. apply Hrun, lower_twice.
Qed.

Lemma verify_windows_pairing_case_witness :
  _verify_windows_pairing (fun _ => None) "AA:BB" two_glasses (fresh quiet) =
  _verify_windows_pairing (fun _ => None) "aa:bb" two_glasses (fresh quiet) /\
  _verify_windows_pairing (fun _ => None) (lower "AA:BB") two_glasses (fresh quiet) =
  _verify_windows_pairing (fun _ => None) "AA:BB" two_glasses (fresh quiet).
Proof.
  apply (verify_windows_pairing_case (fun _ => None) "AA:BB" "aa:bb"
           two_glasses (fresh quiet)).
  reflexivity.
Defined.

(** ** [set_silent_mode]: what goes out *)

(** The events [set_silent_mode] may add: the one command frame, opcode
    and flag, sent with a response expected; the status refresh; log
    lines. *)
Definition silent_mode_event (DASHBOARD_OPEN : Z) (enabled : bool) (ev : event)
  : Prop :=
  match ev with
  | Called (SendCommand command expect_response) _ =>
      command = frame DASHBOARD_OPEN enabled /\ expect_response = true
  | Called UpdateStatus _ => True
  | Called _ _ => False
  | Logged _ _ | Printed _ => True
  end.

Lemma set_silent_mode_run DO CR enabled w s :
  let r := set_silent_mode DO CR enabled w s in
  Forall (silent_mode_event DO enabled) (since s r.2) /\
  (count is_send (since s r.2) <= 1)%nat /\
  (count is_refreshed (since s r.2) <= count is_send (since s r.2))%nat /\
  config r.2 = config s /\ saved r.2 = saved s /\
  _discovery_cache r.2 = _discovery_cache s /\
  (r.1 = Val true /\ _silent_mode r.2 = enabled \/
   r.1 = Val false /\
   (_silent_mode r.2 = _silent_mode s \/ (0 < count is_send (since s r.2))%nat)) /\
  (~ (0 <= DO < 256)%Z -> count is_send (since s r.2) = 0%nat).
Proof.
  cbv zeta. unfold set_silent_mode. cbn [try_except bind get].
  destruct (Bool.eqb enabled (_silent_mode s)) eqn:Hsame.
  { apply Bool.eqb_prop in Hsame. simpl. rewrite since_refl, count_nil.
    repeat split; try done; try lia. left. by split. }
  cbn [bind]. unfold bytes. cbn [forallb]. fold (frame DO enabled).
  destruct ((0 <=? DO)%Z && (DO <? 256)%Z) eqn:HDO.
  - assert ((if enabled then 1%Z else 0%Z) = (if enabled then 1%Z else 0%Z)) by done.
    replace (((0 <=? (if enabled then 1 else 0))%Z &&
              ((if enabled then 1 else 0) <? 256)%Z) && true) with true
      by (by destruct enabled).
    cbn [andb ret bind ext].
    destruct (respond w (trace s) (SendCommand (frame DO enabled) true))
      as [[[|b0 [|b1 rest]]|]|e] eqn:E; simpl.
    + erewrite since_app by (simpl; flatten; done).
      split; [by repeat constructor|]. split; [tally|]. split; [tally|].
      repeat split; try done; try lia. right. split; [done|]. by left.
    + erewrite since_app by (simpl; flatten; done).
      split; [by repeat constructor|]. split; [tally|]. split; [tally|].
      repeat split; try done; try lia. right. split; [done|]. by left.
    + destruct (b1 =? CR)%Z; simpl.
      * answer.
        -- erewrite since_app by (simpl; flatten; done).
           split; [by repeat constructor|]. split; [tally|]. split; [tally|].
           repeat split; try done; try lia. left. done.
        -- erewrite since_app by (simpl; flatten; done).
           split; [by repeat constructor|]. split; [tally|]. split; [tally|].
           repeat split; try done; try lia. right. split; [done|]. right. tally.
      * erewrite since_app by (simpl; flatten; done).
        split; [by repeat constructor|]. split; [tally|]. split; [tally|].
        repeat split; try done; try lia. right. split; [done|]. by left.
    + erewrite since_app by (simpl; flatten; done).
      split; [by repeat constructor|]. split; [tally|]. split; [tally|].
      repeat split; try done; try lia. right. split; [done|]. by left.
    + erewrite since_app by (simpl; flatten; done).
      split; [by repeat constructor|]. split; [tally|]. split; [tally|].
      repeat split; try done; try lia. right. split; [done|]. by left.
  - simpl.
    erewrite since_app by (simpl; done).
    split; [by repeat constructor|]. split; [tally|]. split; [tally|].
    repeat split; try done. right. split; [done|]. by left.
Qed.

(** Whatever the constants, the environment and the state,
    [set_silent_mode] sends at most one command, and only the frame made of
    the opcode and the flag, with a response expected; it refreshes the
    status only after a send; it never touches the config object, the store
    or the discovery cache; and when it returns [True] the state is as
    asked, while a [False] leaves the state as it was unless a command went
    out. *)
Theorem set_silent_mode_contract
    (DASHBOARD_OPEN COMMAND_RESPONSE : Z) (enabled : bool) (w : env) (s : state) :
  let r := set_silent_mode DASHBOARD_OPEN COMMAND_RESPONSE enabled w s in
  Forall (silent_mode_event DASHBOARD_OPEN enabled) (since s r.2) /\
  (count is_send (since s r.2) <= 1)%nat /\
  (count is_refreshed (since s r.2) <= count is_send (since s r.2))%nat /\
  config r.2 = config s /\ saved r.2 = saved s /\
  _discovery_cache r.2 = _discovery_cache s /\
  (r.1 = Val true /\ _silent_mode r.2 = enabled \/
   r.1 = Val false /\
   (_silent_mode r.2 = _silent_mode s \/ (0 < count is_send (since s r.2))%nat)).
Proof.
  intros r. subst r.
  destruct (set_silent_mode_run DASHBOARD_OPEN COMMAND_RESPONSE enabled w s)
    as (? & ? & ? & ? & ? & ? & ? & _).
  done.
Qed.

(** With an opcode that is not a byte, building the frame fails:
    [set_silent_mode] makes no external call and cannot change the state;
    it returns [True] only when there was nothing to do. *)
Theorem set_silent_mode_bad_opcode
    (DASHBOARD_OPEN COMMAND_RESPONSE : Z) (enabled : bool) (w : env) (s : state) :
  ~ (0 <= DASHBOARD_OPEN < 256)%Z ->
  let r := set_silent_mode DASHBOARD_OPEN COMMAND_RESPONSE enabled w s in
  count is_call (since s r.2) = 0%nat /\
  _silent_mode r.2 = _silent_mode s /\
  (r.1 = Val true <-> _silent_mode s = enabled).
Proof.
  intros HDO r. subst r.
  destruct (decide (_silent_mode s = enabled)) as [Hx|Hx].
  - rewrite set_silent_mode_same by done. simpl.
    rewrite since_refl, count_nil. done.
  - unfold set_silent_mode. cbn [try_except bind get].
    replace (Bool.eqb enabled (_silent_mode s)) with false
      by (symmetry; apply Bool.eqb_false_iff; congruence).
    cbn [bind]. unfold bytes. cbn [forallb].
    replace ((0 <=? DASHBOARD_OPEN)%Z && (DASHBOARD_OPEN <? 256)%Z) with false
      by (symmetry; lia).
    simpl. erewrite since_app by (simpl; done).
    split; [tally|]. split; [done|]. split; [discriminate|done].
Qed.

Lemma set_silent_mode_bad_opcode_witness :
  let s := fresh quiet in
  let r := set_silent_mode 256 201 true acknowledging s in
  count is_call (since s r.2) = 0%nat /\
  _silent_mode r.2 = _silent_mode s /\
  (r.1 = Val true <-> _silent_mode s = true).
Proof.
  apply (set_silent_mode_bad_opcode 256 201 true acknowledging (fresh quiet)).
  lia.
Defined.

(** ** Battery levels *)

(** The manager's dict object exists. *)
Definition allocated (m : manager) : Prop :=
  is_Some (heap m !! _battery_level m).

(** A run of [update_battery_level] calls, the oldest first. *)
Definition updates (us : list (string * Z)) (m : manager) : manager :=
  foldl (fun m u => update_battery_level u.1 u.2 m) m us.

(** A run of changes a caller makes to the dict at [loc]. *)
Definition mutates (loc : nat) (ops : list mutation) (m : manager) : manager :=
  foldl (mutate loc) m ops.

Definition is_side (side : string) : Prop := side = "left" \/ side = "right".

#[local] Instance is_side_dec side : Decision (is_side side).
Proof. unfold is_side. apply _. Defined.

Lemma update_battery_level_at side level m :
  _battery_level (update_battery_level side level m) = _battery_level m.
Proof. unfold update_battery_level. by destruct (_ !! side). Qed.

Lemma update_battery_level_deref side level m :
  deref (update_battery_level side level m) (_battery_level m) =
  if decide (is_Some (deref m (_battery_level m) !! side))
  then <[side := Some level]> (deref m (_battery_level m))
  else deref m (_battery_level m).
Proof.
  unfold update_battery_level.
  destruct (deref m (_battery_level m) !! side) as [old|] eqn:Hside.
  - rewrite decide_True by done.
    unfold deref at 1. cbn [heap]. by rewrite lookup_insert_eq.
  - rewrite decide_False; [done|]. by intros [? ?].
Qed.

Lemma update_battery_level_logged side level m :
  length (logged (update_battery_level side level m)) =
  (length (logged m) +
   if decide (is_Some (deref m (_battery_level m) !! side)) then 1 else 0)%nat.
Proof.
  unfold update_battery_level.
  destruct (deref m (_battery_level m) !! side) as [old|] eqn:Hside.
  - rewrite decide_True by done. cbn [logged]. rewrite length_app. simpl. lia.
  - rewrite decide_False; [lia|]. by intros [? ?].
Qed.

Lemma updates_snoc us u m :
  updates (us ++ [u]) m = update_battery_level u.1 u.2 (updates us m).
Proof. unfold updates. by rewrite foldl_app. Qed.

Lemma updates_at us m : _battery_level (updates us m) = _battery_level m.
Proof.
  induction us as [|u us IH] using rev_ind; [done|].
  by rewrite updates_snoc, update_battery_level_at.
Qed.

Lemma init_lookup side :
  deref __init__ (_battery_level __init__) !! side =
  if decide (is_side side) then Some None else None.
Proof.
  unfold deref, __init__. cbn [heap _battery_level].
  rewrite lookup_singleton_eq. cbn [default id].
  destruct (decide (side = "left")) as [->|Hl].
  { rewrite lookup_insert_eq, decide_True; [done|by left]. }
  rewrite lookup_insert_ne by done.
  destruct (decide (side = "right")) as [->|Hr].
  { rewrite lookup_insert_eq, decide_True; [done|by right]. }
  rewrite lookup_insert_ne by done.
  rewrite lookup_empty, decide_False; [done|]. by intros [?|?].
Qed.

Lemma updates_lookup us side :
  let m := updates us __init__ in
  deref m (_battery_level m) !! side =
  if decide (is_side side)
  then Some (snd <$> last (filter (fun u => u.1 = side) us))
  else None.
Proof.
  induction us as [|u us IH] using rev_ind; intros m; subst m.
  - apply init_lookup.
  - rewrite updates_snoc, update_battery_level_at.
    rewrite update_battery_level_deref.
    cbn zeta in IH.
    rewrite filter_app, filter_cons, filter_nil.
    destruct (decide (u.1 = side)) as [<-|Hne].
    + destruct (decide (is_side u.1)) as [Hs|Hs].
      * rewrite decide_True by (rewrite IH; done).
        rewrite lookup_insert_eq, last_snoc. done.
      * rewrite decide_False by (rewrite IH; by intros [? ?]). done.
    + rewrite app_nil_r.
      destruct (decide (is_Some _)); [|done].
      by rewrite lookup_insert_ne.
Qed.

Lemma updates_logged us :
  length (logged (updates us __init__)) =
  length (filter (fun u => is_side u.1) us).
Proof.
  induction us as [|u us IH] using rev_ind; [done|].
  rewrite updates_snoc, update_battery_level_logged, IH.
  rewrite filter_app, length_app, filter_cons, filter_nil.
  pose proof (updates_lookup us u.1) as Hl. cbn zeta in Hl. rewrite Hl.
  destruct (decide (is_side u.1)).
  - rewrite decide_True by done. done.
  - rewrite decide_False by (by intros [? ?]). done.
Qed.

(** From [__init__], after any run of [update_battery_level] calls the
    dict has exactly the keys ['left'] and ['right']; each holds the level
    of the last update made for that side, or [None] when there was none.
    Updates for any other side leave no trace in it. *)
Theorem update_battery_level_last_wins (us : list (string * Z)) (side : string) :
  let m := updates us __init__ in
  deref m (_battery_level m) !! side =
  if decide (is_side side)
  then Some (snd <$> last (filter (fun u => u.1 = side) us))
  else None.
Proof. apply updates_lookup. Qed.

(** From [__init__], [update_battery_level] logs one line for each update
    of ['left'] or ['right'] and none for an update of any other side. *)
Theorem update_battery_level_logs (us : list (string * Z)) :
  length (logged (updates us __init__)) =
  length (filter (fun u => is_side u.1) us).
Proof. apply updates_logged. Qed.

Lemma mutates_elsewhere loc ops m other :
  other <> loc -> deref (mutates loc ops m) other = deref m other.
Proof.
  intros Hne. induction ops as [|op ops IH] using rev_ind; [done|].
  unfold mutates in *. rewrite foldl_app. cbn [foldl].
  unfold deref at 1. unfold mutate at 1. cbn [heap].
  rewrite lookup_insert_ne by done. apply IH.
Qed.

Lemma battery_level_fresh m :
  allocated m -> (battery_level m).1 <> _battery_level m.
Proof.
  intros Hm Heq. unfold battery_level in Heq. cbn [fst] in Heq.
  apply (is_fresh (dom (heap m))). rewrite Heq. by apply elem_of_dom.
Qed.

Lemma updates_elsewhere us m other :
  other <> _battery_level m -> deref (updates us m) other = deref m other.
Proof.
  intros Hne. induction us as [|u us IH] using rev_ind; [done|].
  rewrite updates_snoc. unfold update_battery_level.
  rewrite updates_at.
  destruct (_ !! u.1); [|done].
  unfold deref at 1. cbn [heap]. rewrite lookup_insert_ne by done. apply IH.
Qed.

(** The [battery_level] property hands out a copy.  For a manager whose
    dict exists, the dict returned has the manager's levels and is another
    object: whatever the caller then does to it, the manager's own levels
    stay as they were, and whatever updates the manager then receives, the
    dict the caller holds stays as it was handed out. *)
Theorem battery_level_is_a_copy
    (m : manager) (ops : list mutation) (us : list (string * Z)) :
  allocated m ->
  let loc := (battery_level m).1 in
  let m' := (battery_level m).2 in
  deref m' loc = deref m (_battery_level m) /\
  loc <> _battery_level m' /\
  deref (mutates loc ops m') (_battery_level m') = deref m (_battery_level m) /\
  deref (updates us m') loc = deref m (_battery_level m).
Proof.
  intros Hm loc m'.
  pose proof (battery_level_fresh m Hm) as Hfresh. fold loc in Hfresh.
  assert (Hat : _battery_level m' = _battery_level m) by done.
  assert (Hcopy : deref m' loc = deref m (_battery_level m)).
  { unfold deref at 1. subst m' loc. unfold battery_level. cbn [snd fst heap].
    by rewrite lookup_insert_eq. }
  assert (Hown : deref m' (_battery_level m) = deref m (_battery_level m)).
  { unfold deref at 1. subst m'. unfold battery_level. cbn [snd heap].
    by rewrite lookup_insert_ne. }
  split; [done|]. split; [by rewrite Hat|]. split.
  - rewrite Hat, mutates_elsewhere by done. done.
  - rewrite updates_elsewhere by (by rewrite Hat). done.
Qed.

Lemma battery_level_is_a_copy_witness :
  let m := __init__ in
  let loc := (battery_level m).1 in
  let m' := (battery_level m).2 in
  allocated m /\
  deref m' loc = deref m (_battery_level m) /\
  loc <> _battery_level m' /\
  deref (mutates loc [SetItem "left" (Some 5%Z); DelItem "right"; Clear] m')
    (_battery_level m') = deref m (_battery_level m) /\
  deref (updates [("left", 80%Z)] m') loc = deref m (_battery_level m).
Proof.
  split.
  - unfold allocated. vm_compute. eauto.
  - apply (battery_level_is_a_copy __init__
             [SetItem "left" (Some 5%Z); DelItem "right"; Clear]
             [("left", 80%Z)]).
    unfold allocated. vm_compute. eauto.
Defined.
